(** * Rate limiter: token bucket primitive, decisioner, overrides,
      circuit breaker, identity extraction, abuse detector, fallback
      handler and middleware.

    Conventions of the embedding.

    - Numbers.  The Lua script and the TypeScript code compute on
      IEEE-754 doubles.  Two models are given.  In [Lua],
      [TokenBucketEngine], [OverrideManager] and the modules built on
      them every number is an exact rational ([Q]); they carry the
      statements that follow the control flow of the code or compare
      two runs.  In [LuaDouble], [OverrideDouble] and [EngineDouble]
      the result of every operation is rounded by a function [rnd];
      the statements about quantities (bounds on counts, floors,
      delays) are proved there, for every [rnd] with the four
      properties of [Double.binary64_like], which [Double.round],
      rounding to the nearest double with ties to even, has.  With the
      identity for [rnd] the second model is the first.  NaN and
      infinities are out of the picture: division by zero differs
      ([x / 0] is [0] in [Q]), so statements about the script take the
      capacity positive, as [validatePolicy] demands, and the bounds on
      magnitudes in the statements on doubles keep every result far
      from overflow.  The one infinity the code can return, [Math.min]
      of an empty list in the fallback handler, is a value of its own.
    - Strings.  A string is a sequence of code units below 256 (the
      range of an HTTP header value, which Node decodes as Latin-1);
      [trim] and [toLowerCase] are ECMAScript's on that range.  Code
      units above 255 are not represented.
    - Time.  [Date.now()], [current_time_ms] and [last_refill_ms] are
      integers ([Z], milliseconds).  A function that reads the clock takes
      the reading as an argument.
    - State.  The Redis key space, the override collection and the
      override cache are passed in and returned.  Expiry of Redis keys
      (EXPIRE) and of override documents is real time and is only
      recorded, not performed.
    - Failure.  A rejected promise or a thrown error is a value of a sum
      or option type. *)

From Stdlib Require Import ZArith QArith Qround Qminmax Qabs Qpower Lqa Lia.
From Stdlib Require Import String Ascii List Bool.
From stdpp Require Import gmap strings list.

Local Open Scope Q_scope.

(** ** Rational helpers *)

Definition Qge_bool (x y : Q) : bool := Qle_bool y x.
Definition Qgt_bool (x y : Q) : bool := negb (Qle_bool x y).

(** ** The atomic token-bucket primitive (core/lua-scripts.ts) *)

Module Lua.

(** A bucket is a Redis hash with the two fields the script writes with
    HMSET; [ttl_seconds] records the argument of the last EXPIRE. *)
Record Bucket := mkBucket {
  tokens : Q;
  last_refill_ms : Z;
  ttl_seconds : Z
}.

(** The value the script returns, before Redis converts it to a reply. *)
Record ScriptReturn := mkReturn {
  allowed : Z;
  state : Z;
  current_tokens : Q;
  usage_pct : Q
}.

(** [redis.call('HMGET', KEYS[1], 'tokens', 'last_refill_ms')] followed by
    [tonumber]: a missing key gives nil for both fields. *)
Definition HMGET (store : gmap string Bucket) (key : string) : option Q * option Z :=
  match store !! key with
  | Some b => (Some (tokens b), Some (last_refill_ms b))
  | None => (None, None)
  end.

(** Lines 58-66: elapsed time and refill. *)
Definition refill (capacity refill_rate_per_sec : Q) (current_time_ms : Z)
    (bucket_data : option Q * option Z) : Q * Z :=
  let current_tokens := default capacity (fst bucket_data) in
  let last_refill_ms := default current_time_ms (snd bucket_data) in
  let elapsed_seconds := inject_Z (current_time_ms - last_refill_ms) / 1000 in
  if Qgt_bool elapsed_seconds 0 then
    let tokens_to_add := elapsed_seconds * refill_rate_per_sec in
    (Qmin capacity (current_tokens + tokens_to_add), current_time_ms)
  else (current_tokens, last_refill_ms).

(** Lines 68-70 and 88-90: usage percentage of a token count. *)
Definition usage_of (capacity current_tokens : Q) : Q :=
  let tokens_consumed := capacity - current_tokens in
  (tokens_consumed / capacity) * 100.

(** Lines 72-82: throttle state before consumption, as (state, allowed). *)
Definition classify (usage_pct soft_threshold_pct hard_threshold_pct : Q) : Z * Z :=
  if Qge_bool usage_pct hard_threshold_pct then (2, 0)%Z
  else if Qge_bool usage_pct soft_threshold_pct then (1, 1)%Z
  else (0, 1)%Z.

(** Lines 84-100: consumption with the overshoot guard.  Takes and returns
    the locals (allowed, state, current_tokens, usage_pct). *)
Definition consume (capacity soft_threshold_pct hard_threshold_pct : Q)
    (locals : ScriptReturn) : ScriptReturn :=
  if (allowed locals =? 1)%Z then
    let current_tokens := current_tokens locals - 1 in
    let usage_pct := usage_of capacity current_tokens in
    if Qge_bool usage_pct hard_threshold_pct then
      mkReturn 0 2 (current_tokens + 1) usage_pct
    else if Qge_bool usage_pct soft_threshold_pct then
      mkReturn (allowed locals) 1 current_tokens usage_pct
    else
      mkReturn (allowed locals) (state locals) current_tokens usage_pct
  else locals.

(** TOKEN_BUCKET_LUA_SCRIPT: one atomic run on the store. *)
Definition TOKEN_BUCKET_LUA_SCRIPT (store : gmap string Bucket) (key : string)
    (capacity refill_rate_per_sec : Q) (current_time_ms : Z)
    (soft_threshold_pct hard_threshold_pct : Q) (ttl_arg : option Z)
    : gmap string Bucket * ScriptReturn :=
  let ttl_seconds := default 3600%Z ttl_arg in
  let bucket_data := HMGET store key in
  let '(current_tokens, last_refill_ms) :=
    refill capacity refill_rate_per_sec current_time_ms bucket_data in
  let usage_pct := usage_of capacity current_tokens in
  let '(state, allowed) := classify usage_pct soft_threshold_pct hard_threshold_pct in
  let locals :=
    consume capacity soft_threshold_pct hard_threshold_pct
      (mkReturn allowed state current_tokens usage_pct) in
  if (Lua.allowed locals =? 1)%Z then
    (<[key := mkBucket (Lua.current_tokens locals) last_refill_ms ttl_seconds]> store,
     locals)
  else (store, locals).

(** The token count after refill and before any consumption, as the
    script computes it for [key]. *)
Definition refilled_tokens (store : gmap string Bucket) (key : string)
    (capacity refill_rate_per_sec : Q) (current_time_ms : Z) : Q :=
  fst (refill capacity refill_rate_per_sec current_time_ms (HMGET store key)).

(** Redis turns the Lua numbers of the returned table into integer
    replies by truncating them. *)
Definition Qtrunc (q : Q) : Z := Z.quot (Qnum q) (Zpos (Qden q)).

Definition redis_reply (r : ScriptReturn) : Z * Z * Z * Z :=
  (allowed r, state r, Qtrunc (current_tokens r), Qtrunc (usage_pct r)).

(** A run of consecutive invocations on one key with fixed parameters,
    one per timestamp; the key does not expire in between. *)
Fixpoint run_calls (store : gmap string Bucket) (key : string)
    (capacity refill_rate_per_sec soft_threshold_pct hard_threshold_pct : Q)
    (ttl_arg : option Z) (times : list Z)
    : gmap string Bucket * list ScriptReturn :=
  match times with
  | [] => (store, [])
  | now :: rest =>
      let '(store1, r) :=
        TOKEN_BUCKET_LUA_SCRIPT store key capacity refill_rate_per_sec now
          soft_threshold_pct hard_threshold_pct ttl_arg in
      let '(store2, rs) :=
        run_calls store1 key capacity refill_rate_per_sec
          soft_threshold_pct hard_threshold_pct ttl_arg rest in
      (store2, r :: rs)
  end.

Fixpoint allowed_count (rs : list ScriptReturn) : Z :=
  match rs with
  | [] => 0
  | r :: rest => ((if (allowed r =? 1)%Z then 1 else 0) + allowed_count rest)%Z
  end.

(** Call times that never go back, starting at [from]. *)
Fixpoint nondecreasing (from : Z) (times : list Z) : Prop :=
  match times with
  | [] => True
  | t :: rest => (from <= t)%Z /\ nondecreasing t rest
  end.

(** The bucket of [key] is full: not yet created, or holding [capacity]. *)
Definition full_bucket (store : gmap string Bucket) (key : string) (capacity : Q) : Prop :=
  match store !! key with
  | Some b => tokens b == capacity
  | None => True
  end.

(** The shape of a run: the pre-consumption check denies, the overshoot
    guard denies after refunding, or the token is consumed and stored. *)
Inductive Run (store : gmap string Bucket) (key : string)
    (capacity rate : Q) (now : Z) (softp hardp : Q) (ttl : option Z)
    : gmap string Bucket -> ScriptReturn -> Prop :=
  | RunDenied t l :
      refill capacity rate now (HMGET store key) = (t, l) ->
      hardp <= usage_of capacity t ->
      Run store key capacity rate now softp hardp ttl
        store (mkReturn 0 2 t (usage_of capacity t))
  | RunRefunded t l :
      refill capacity rate now (HMGET store key) = (t, l) ->
      usage_of capacity t < hardp ->
      hardp <= usage_of capacity (t - 1) ->
      Run store key capacity rate now softp hardp ttl
        store (mkReturn 0 2 (t - 1 + 1) (usage_of capacity (t - 1)))
  | RunAllowed t l st :
      refill capacity rate now (HMGET store key) = (t, l) ->
      usage_of capacity t < hardp ->
      usage_of capacity (t - 1) < hardp ->
      (st = 0 \/ st = 1)%Z ->
      Run store key capacity rate now softp hardp ttl
        (<[key := mkBucket (t - 1) l (default 3600%Z ttl)]> store)
        (mkReturn 1 st (t - 1) (usage_of capacity (t - 1))).


(** Seconds between two millisecond timestamps. *)
Definition seconds (from to : Z) : Q := inject_Z (to - from) / 1000.

(** Seconds from the first call, at [t0], to the last one. *)
Definition span (t0 : Z) (times : list Z) : Q := seconds t0 (List.last times t0).

(** The at-most bound as first stated: at most [C + floor(r W)] calls
    are allowed, whatever the thresholds. *)
Definition allowed_at_most_capacity_plus_refill : Prop :=
  forall store key C r softp hardp ttl t0 times,
    0 < C -> 0 <= r -> 0 < softp -> softp <= hardp -> hardp <= 200 ->
    full_bucket store key C ->
    nondecreasing t0 times ->
    inject_Z (allowed_count (snd (run_calls store key C r softp hardp ttl (t0 :: times))))
      <= C + inject_Z (Qfloor (r * span t0 times)).

End Lua.

(** ** JavaScript values and string helpers *)

Module JS.

(** Truthiness of an optional string: [undefined] and [''] are falsy. *)
Definition truthy_str (s : option string) : bool :=
  match s with
  | Some s => negb (String.eqb s "")
  | None => false
  end.

(** Truthiness of an optional number: [undefined] and [0] are falsy. *)
Definition truthy_num (q : option Q) : bool :=
  match q with
  | Some q => negb (Qeq_bool q 0)
  | None => false
  end.

(** [a || b] on strings. *)
Definition or_str (a : option string) (b : option string) : option string :=
  if truthy_str a then a else b.

(** [a || b] where [a] is an optional number and [b] a number. *)
Definition or_num (a : option Q) (b : Q) : Q :=
  match a with
  | Some q => if Qeq_bool q 0 then b else q
  | None => b
  end.

(** [!o] on a value that is an object or [null]. *)
Definition nullish {A : Type} (o : option A) : bool :=
  match o with
  | None => true
  | Some _ => false
  end.

(** [a === b] on values that are strings or [undefined]. *)
Definition strict_eq (a b : option string) : bool :=
  match a, b with
  | Some x, Some y => String.eqb x y
  | None, None => true
  | _, _ => false
  end.

(** [s.startsWith(p)]. *)
Definition startsWith (s p : string) : bool := String.prefix p s.

(** [s.includes(p)]. *)
Fixpoint includes (s p : string) : bool :=
  String.prefix p s ||
  match s with
  | EmptyString => false
  | String _ rest => includes rest p
  end.

(** [s.substring(n)]. *)
Fixpoint substring_from (n : nat) (s : string) : string :=
  match n, s with
  | O, _ => s
  | S n', String _ rest => substring_from n' rest
  | S _, EmptyString => EmptyString
  end.

(** [s.split(c)] for a one-character separator: never empty. *)
Fixpoint split (c : ascii) (s : string) : list string :=
  match s with
  | EmptyString => [EmptyString]
  | String a rest =>
      if Ascii.eqb a c then EmptyString :: split c rest
      else match split c rest with
           | [] => [String a EmptyString]
           | p :: ps => String a p :: ps
           end
  end.

(** White space and line terminators of ECMAScript among the code units
    below 256: TAB, LF, VT, FF, CR, SP and NBSP (U+00A0). *)
Definition is_space (a : ascii) : bool :=
  let n := nat_of_ascii a in
  (n =? 32)%nat || ((9 <=? n)%nat && (n <=? 13)%nat) || (n =? 160)%nat.

Fixpoint trim_start (s : string) : string :=
  match s with
  | String a rest => if is_space a then trim_start rest else s
  | EmptyString => EmptyString
  end.

Definition str_rev (s : string) : string :=
  string_of_list_ascii (rev (list_ascii_of_string s)).

(** [s.trim()]. *)
Definition trim (s : string) : string :=
  str_rev (trim_start (str_rev (trim_start s))).

Definition is_alnum (a : ascii) : bool :=
  let n := nat_of_ascii a in
  ((48 <=? n)%nat && (n <=? 57)%nat) ||
  ((65 <=? n)%nat && (n <=? 90)%nat) ||
  ((97 <=? n)%nat && (n <=? 122)%nat).

Fixpoint map_chars (f : ascii -> ascii) (s : string) : string :=
  match s with
  | EmptyString => EmptyString
  | String a rest => String (f a) (map_chars f rest)
  end.

(** [s.toLowerCase()]: among the code units below 256 the letters with a
    lower-case form are A-Z and U+00C0-U+00DE without the sign U+00D7. *)
Definition is_upper (n : nat) : bool :=
  ((65 <=? n)%nat && (n <=? 90)%nat) ||
  ((192 <=? n)%nat && (n <=? 222)%nat && negb (n =? 215)%nat).

Definition toLowerCase (s : string) : string :=
  map_chars (fun a =>
    let n := nat_of_ascii a in
    if is_upper n then ascii_of_nat (n + 32) else a) s.

(** [Math.floor] and [Math.ceil], with an integer result. *)
Definition Math_floor (q : Q) : Z := Qfloor q.
Definition Math_ceil (q : Q) : Z := Qceiling q.

End JS.

(** ** Types (types/index.ts) *)

Record BucketPolicy := mkPolicy {
  rpm : Q;
  rps : Q;
  burst_capacity : Q;
  refill_rate_per_sec : option Q
}.

Record ThrottleConfig := mkThrottle {
  soft_threshold_pct : option Q;
  hard_threshold_pct : Q
}.

Inductive ThrottleState := normal | soft | hard.

Inductive RateLimitScope :=
  | user_global | user_endpoint | tenant_global | tenant_endpoint
  | global_endpoint | global_system.

Inductive OverrideType := OT_penalty_multiplier | OT_temporary_ban | OT_custom_limit.
Inductive OverrideSource := auto_detector | manual_operator.

Record TenantOverride := mkOverride {
  o_tenant_id : string;
  o_user_id : option string;
  o_endpoint : option string;
  override_type : OverrideType;
  penalty_multiplier : option Q;
  custom_rate : option Q;
  custom_burst : option Q;
  reason : string;
  source : OverrideSource;
  created_at : Z;
  expires_at : Z
}.

Record RequestIdentity := mkIdentity {
  tenant_id : string;
  user_id : string;
  endpoint : string;
  ip_address : option string
}.

(** ** Bucket engine (core/token-bucket.ts) *)

Module TokenBucketEngine.

(** [policy.refill_rate_per_sec || policy.rpm / 60]. *)
Definition refillRatePerSec (policy : BucketPolicy) : Q :=
  JS.or_num (refill_rate_per_sec policy) (rpm policy / 60).

(** [calculateResetTime]; [Date_now] is the reading of [Date.now()]. *)
Definition calculateResetTime (Date_now : Z)
    (currentTokens capacity refillRatePerSec : Q) : Q :=
  if Qge_bool currentTokens capacity then inject_Z Date_now
  else
    let tokensNeeded := capacity - currentTokens in
    let secondsToReset := tokensNeeded / refillRatePerSec in
    inject_Z Date_now + secondsToReset * 1000.

Definition calculateRetryAfter
    (currentTokens capacity refillRatePerSec hardThresholdPct : Q) : Z :=
  let maxAllowedTokensConsumed := (capacity * hardThresholdPct) / 100 in
  let currentTokensConsumed := capacity - currentTokens in
  if Qle_bool currentTokensConsumed maxAllowedTokensConsumed then 0%Z
  else
    let tokensToRefill := currentTokensConsumed - maxAllowedTokensConsumed in
    let secondsToWait := tokensToRefill / refillRatePerSec in
    JS.Math_ceil secondsToWait.

Definition mapStateToEnum (state : Z) : ThrottleState :=
  match state with
  | 0%Z => normal
  | 1%Z => soft
  | 2%Z => hard
  | _ => normal
  end.

End TokenBucketEngine.

(** ** Override manager (core/override-manager.ts) *)

Module OverrideManager.

(** The override collection and the LRU cache.  A cache entry keeps the
    time it was set; [get] ignores entries older than [CACHE_TTL_MS].
    Eviction by size (10000 entries) is not modelled. *)
Definition CACHE_TTL_MS : Z := 30000.

Record CacheEntry := mkEntry {
  set_at : Z;
  cached_override : option TenantOverride
}.

Definition cache_get (cache : gmap string CacheEntry) (now : Z) (k : string)
    : option CacheEntry :=
  match cache !! k with
  | Some e => if (now - set_at e <=? CACHE_TTL_MS)%Z then Some e else None
  | None => None
  end.

Definition getCacheKey (tenant_id : string) (user_id endpoint : option string) : string :=
  ("override:" ++ tenant_id ++ ":" ++
   default "none" (JS.or_str user_id (Some "none")) ++ ":" ++
   default "none" (JS.or_str endpoint (Some "none")))%string.

(** One condition of the [$or] list of [buildOverrideQuery]: each field is
    either compared with a value or required not to exist. *)
Inductive FieldCond := Equals (v : string) | NotExists.

Definition field_matches (c : FieldCond) (field : option string) : bool :=
  match c, field with
  | Equals v, Some x => String.eqb x v
  | Equals _, None => false
  | NotExists, None => true
  | NotExists, Some _ => false
  end.

Record OrCondition := mkOr { cond_user_id : FieldCond; cond_endpoint : FieldCond }.

Record BaseQuery := mkBase { q_tenant_id : string; q_expires_after : Z }.

Definition buildOverrideQuery (now : Z) (tenant_id : string)
    (user_id endpoint : option string) : BaseQuery * list OrCondition :=
  let baseQuery := mkBase tenant_id now in
  let c1 :=
    match user_id, endpoint with
    | Some u, Some e =>
        if JS.truthy_str user_id && JS.truthy_str endpoint
        then [mkOr (Equals u) (Equals e)] else []
    | _, _ => []
    end in
  let c2 :=
    match user_id with
    | Some u => if JS.truthy_str user_id then [mkOr (Equals u) NotExists] else []
    | None => []
    end in
  let c3 :=
    match endpoint with
    | Some e => if JS.truthy_str endpoint then [mkOr NotExists (Equals e)] else []
    | None => []
    end in
  (baseQuery, c1 ++ c2 ++ c3 ++ [mkOr NotExists NotExists]).

Definition or_matches (c : OrCondition) (o : TenantOverride) : bool :=
  field_matches (cond_user_id c) (o_user_id o) &&
  field_matches (cond_endpoint c) (o_endpoint o).

Definition query_matches (q : BaseQuery * list OrCondition) (o : TenantOverride) : bool :=
  String.eqb (o_tenant_id o) (q_tenant_id (fst q)) &&
  (q_expires_after (fst q) <? expires_at o)%Z &&
  existsb (fun c => or_matches c o) (snd q).

(** [.sort({ created_at: -1 })]: newest first, by stable insertion. *)
Fixpoint insert_desc (o : TenantOverride) (l : list TenantOverride) : list TenantOverride :=
  match l with
  | [] => [o]
  | x :: rest =>
      if (created_at x <=? created_at o)%Z then o :: l
      else x :: insert_desc o rest
  end.

Fixpoint sort_desc (l : list TenantOverride) : list TenantOverride :=
  match l with
  | [] => []
  | x :: rest => insert_desc x (sort_desc rest)
  end.

(** [TenantOverrideModel.find({...baseQuery, $or}).sort(...).lean().exec()]
    on the documents of the collection. *)
Definition find_overrides (collection : list TenantOverride)
    (q : BaseQuery * list OrCondition) : list TenantOverride :=
  sort_desc (List.filter (query_matches q) collection).

(** [!o.field]. *)
Definition absent (field : option string) : bool := negb (JS.truthy_str field).

Definition getPriorityOverride (overrides : list TenantOverride)
    (user_id endpoint : option string) : option TenantOverride :=
  let override : option TenantOverride := None in
  if (0 <? length overrides)%nat then
    (* Priority 1: user_id + endpoint *)
    let override :=
      if JS.truthy_str user_id && JS.truthy_str endpoint then
        List.find (fun o => JS.strict_eq (o_user_id o) user_id &&
                            JS.strict_eq (o_endpoint o) endpoint) overrides
      else override in
    (* Priority 2: user_id only *)
    let override :=
      if JS.nullish override && JS.truthy_str user_id then
        List.find (fun o => JS.strict_eq (o_user_id o) user_id &&
                            absent (o_endpoint o)) overrides
      else override in
    (* Priority 3: endpoint only *)
    let override :=
      if JS.nullish override && JS.truthy_str endpoint then
        List.find (fun o => JS.strict_eq (o_endpoint o) endpoint &&
                            absent (o_user_id o)) overrides
      else override in
    (* Priority 4: tenant only *)
    let override :=
      if JS.nullish override then
        List.find (fun o => absent (o_user_id o) && absent (o_endpoint o)) overrides
      else override in
    override
  else override.

(** [getActiveOverride]: [collection] is [None] when the store query
    throws; the call then fails open.  Returns the result and the cache. *)
Definition getActiveOverride (cache : gmap string CacheEntry)
    (collection : option (list TenantOverride)) (now : Z)
    (tenant_id : string) (user_id endpoint : option string)
    : option TenantOverride * gmap string CacheEntry :=
  let cacheKey := getCacheKey tenant_id user_id endpoint in
  match cache_get cache now cacheKey with
  | Some cached => (cached_override cached, cache)
  | None =>
      match collection with
      | None => (None, cache)
      | Some docs =>
          let overrides :=
            find_overrides docs (buildOverrideQuery now tenant_id user_id endpoint) in
          let override := getPriorityOverride overrides user_id endpoint in
          (override, <[cacheKey := mkEntry now override]> cache)
      end
  end.

Record Applied := mkApplied {
  tenantPolicy : BucketPolicy;
  userPolicy : option BucketPolicy;
  banned : bool
}.

Definition scale (multiplier : Q) (p : BucketPolicy) : BucketPolicy :=
  mkPolicy
    (inject_Z (JS.Math_floor (rpm p * multiplier)))
    (inject_Z (JS.Math_floor (rps p * multiplier)))
    (inject_Z (JS.Math_floor (burst_capacity p * multiplier)))
    (if JS.truthy_num (refill_rate_per_sec p)
     then option_map (fun r => r * multiplier) (refill_rate_per_sec p)
     else None).

Definition applyOverride (override : TenantOverride)
    (tenantPolicy : BucketPolicy) (userPolicy : option BucketPolicy) : Applied :=
  match override_type override with
  | OT_temporary_ban => mkApplied tenantPolicy userPolicy true
  | OT_penalty_multiplier =>
      match penalty_multiplier override with
      | Some multiplier =>
          if JS.truthy_num (Some multiplier) then
            mkApplied (scale multiplier tenantPolicy)
                      (option_map (scale multiplier) userPolicy) false
          else mkApplied tenantPolicy userPolicy false
      | None => mkApplied tenantPolicy userPolicy false
      end
  | OT_custom_limit =>
      match custom_rate override, custom_burst override with
      | Some rate, Some burst =>
          if JS.truthy_num (Some rate) && JS.truthy_num (Some burst) then
            let customPolicy :=
              mkPolicy rate (rate / 60) burst (Some (rate / 60)) in
            mkApplied customPolicy (Some customPolicy) false
          else mkApplied tenantPolicy userPolicy false
      | _, _ => mkApplied tenantPolicy userPolicy false
      end
  end.

(** [hasActiveOverride]: a count over the collection; [false] when the
    store query throws. *)
Definition hasActiveOverride (collection : option (list TenantOverride)) (now : Z)
    (tenant_id : string) : bool :=
  match collection with
  | Some docs =>
      (0 <? length (List.filter (fun o =>
          String.eqb (o_tenant_id o) tenant_id && (now <? expires_at o)%Z) docs))%nat
  | None => false
  end.

Definition invalidateCache (cache : gmap string CacheEntry)
    (tenant_id : string) (user_id endpoint : option string) : gmap string CacheEntry :=
  delete (getCacheKey tenant_id None None)
    (delete (getCacheKey tenant_id None endpoint)
      (delete (getCacheKey tenant_id user_id None)
        (delete (getCacheKey tenant_id user_id endpoint) cache))).

(** [createOverride]: the store fills [created_at]; then the cache keys
    of the override are dropped. *)
Definition createOverride (cache : gmap string CacheEntry)
    (collection : list TenantOverride) (now : Z) (override : TenantOverride)
    : list TenantOverride * gmap string CacheEntry :=
  let newOverride :=
    mkOverride (o_tenant_id override) (o_user_id override) (o_endpoint override)
      (override_type override) (penalty_multiplier override)
      (custom_rate override) (custom_burst override) (reason override)
      (source override) now (expires_at override) in
  (collection ++ [newOverride],
   invalidateCache cache (o_tenant_id override) (o_user_id override) (o_endpoint override)).

(** The four shapes of section 4.4, for a request [(user_id, endpoint)];
    an empty string counts as not given. *)
Definition field_absent (f : option string) : bool :=
  match f with None => true | Some _ => false end.

Definition shape (k : nat) (user_id endpoint : option string) (o : TenantOverride) : bool :=
  match k with
  | 1%nat => JS.truthy_str user_id && JS.truthy_str endpoint &&
             JS.strict_eq (o_user_id o) user_id && JS.strict_eq (o_endpoint o) endpoint
  | 2%nat => JS.truthy_str user_id &&
             JS.strict_eq (o_user_id o) user_id && field_absent (o_endpoint o)
  | 3%nat => JS.truthy_str endpoint &&
             JS.strict_eq (o_endpoint o) endpoint && field_absent (o_user_id o)
  | 4%nat => field_absent (o_user_id o) && field_absent (o_endpoint o)
  | _ => false
  end.

(** The rank of the first shape a document has, if any. *)
Definition shape_rank (user_id endpoint : option string) (o : TenantOverride) : option nat :=
  if shape 1 user_id endpoint o then Some 1%nat
  else if shape 2 user_id endpoint o then Some 2%nat
  else if shape 3 user_id endpoint o then Some 3%nat
  else if shape 4 user_id endpoint o then Some 4%nat
  else None.

(** The lookup contract: the result is an active override of the tenant
    whose shape has the least rank among the active overrides that match
    the request, and there is no result only when none matches. *)
Definition top_match (docs : list TenantOverride) (now : Z) (t : string)
    (u e : option string) (res : option TenantOverride) : Prop :=
  match res with
  | Some o =>
      In o docs /\ o_tenant_id o = t /\ (now < expires_at o)%Z /\
      exists k, shape_rank u e o = Some k /\
        forall o', In o' docs -> o_tenant_id o' = t -> (now < expires_at o')%Z ->
          forall k', shape_rank u e o' = Some k' -> (k <= k')%nat
  | None =>
      forall o', In o' docs -> o_tenant_id o' = t -> (now < expires_at o')%Z ->
        shape_rank u e o' = None
  end.

(** [Math.max(1, Math.floor(x * m))]: a floored product that never goes
    below one. *)
Definition floor_at_least_one (m x : Q) : Q := Qmax 1 (inject_Z (Qfloor (x * m))).

(** The first document of the first shape that occurs in [L]. *)
Definition first_shape (L : list TenantOverride) (u e : option string) : option TenantOverride :=
  match List.find (shape 1 u e) L with
  | Some o => Some o
  | None =>
      match List.find (shape 2 u e) L with
      | Some o => Some o
      | None =>
          match List.find (shape 3 u e) L with
          | Some o => Some o
          | None => List.find (shape 4 u e) L
          end
      end
  end.

(** The precedence contract for every lookup, cached or not. *)
Definition lookup_always_top_match : Prop :=
  forall cache docs now t u e,
    top_match docs now t u e (fst (getActiveOverride cache (Some docs) now t u e)).

(** The penalty contract with a floor at one on every scaled field. *)
Definition penalty_never_below_one : Prop :=
  forall o m tp up,
    override_type o = OT_penalty_multiplier -> penalty_multiplier o = Some m ->
    0 < m -> m <= 1 ->
    0 < rpm tp -> 0 < rps tp -> 0 < burst_capacity tp ->
    let p' := tenantPolicy (applyOverride o tp up) in
    rpm p' == floor_at_least_one m (rpm tp) /\
    rps p' == floor_at_least_one m (rps tp) /\
    burst_capacity p' == floor_at_least_one m (burst_capacity tp).

End OverrideManager.

(** ** Redis client: script cache and retry (storage/redis-client.ts) *)

Module RedisClient.

Inductive Script := TokenBucketScript | BatchTokenBucketScript.

Definition SCRIPT_NAME (s : Script) : string :=
  match s with
  | TokenBucketScript => "TOKEN_BUCKET"
  | BatchTokenBucketScript => "BATCH_TOKEN_BUCKET"
  end.

(** The digest SCRIPT LOAD answers for a script. *)
Definition sha1 (s : Script) : string :=
  match s with
  | TokenBucketScript => "sha1:token-bucket"
  | BatchTokenBucketScript => "sha1:batch-token-bucket"
  end.

Record Error := mkError { message : string }.

(** The server of a standalone deployment.  [script_loads] and
    [evalsha_calls] count the commands it has received. *)
Record Server := mkServer {
  reachable : bool;
  script_cache : gset string;
  store : gmap string Lua.Bucket;
  script_loads : nat;
  evalsha_calls : nat
}.

Record Client := mkClient {
  scriptsLoaded : bool;
  scriptSHAs : gmap string string
}.

Inductive Outcome (A : Type) :=
  | Returned (a : A)
  | Thrown (e : Error)
  | Pending.
Arguments Returned {A} a.
Arguments Thrown {A} e.
Arguments Pending {A}.

(** [client.script('LOAD', script)]. *)
Definition script_load (srv : Server) (s : Script) : (string + Error) * Server :=
  if reachable srv then
    (inl (sha1 s),
     mkServer true ({[ sha1 s ]} ∪ script_cache srv) (store srv)
       (S (script_loads srv)) (evalsha_calls srv))
  else (inr (mkError "Connection is closed."), srv).

Record Reply := mkReply {
  r_allowed : bool;
  r_state : Z;
  r_tokens : Z;
  r_usagePct : Z
}.

(** [client.evalsha(sha, 1, key, ...)]. *)
Definition evalsha (srv : Server) (sha key : string)
    (capacity refillRatePerSec : Q) (currentTimeMs : Z)
    (softThresholdPct hardThresholdPct : Q) (ttlSeconds : Z)
    : (Z * Z * Z * Z + Error) * Server :=
  if reachable srv then
    let srv1 := mkServer true (script_cache srv) (store srv)
                  (script_loads srv) (S (evalsha_calls srv)) in
    if bool_decide (sha ∈ script_cache srv) then
      if String.eqb sha (sha1 TokenBucketScript) then
        let '(store', ret) :=
          Lua.TOKEN_BUCKET_LUA_SCRIPT (store srv) key capacity refillRatePerSec
            currentTimeMs softThresholdPct hardThresholdPct (Some ttlSeconds) in
        (inl (Lua.redis_reply ret),
         mkServer true (script_cache srv) store'
           (script_loads srv) (S (evalsha_calls srv)))
      else (inr (mkError "ERR unexpected script"), srv1)
    else (inr (mkError "NOSCRIPT No matching script. Please use EVAL."), srv1)
  else (inr (mkError "Connection is closed."), srv).

(** [loadScripts], standalone or sentinel branch. *)
Definition loadScripts (c : Client) (srv : Server) : Outcome unit * Client * Server :=
  if scriptsLoaded c then (Returned tt, c, srv)
  else
    match script_load srv TokenBucketScript with
    | (inr _, srv1) => (Thrown (mkError "Failed to load Lua scripts"), c, srv1)
    | (inl tokenBucketSHA, srv1) =>
        let c1 := mkClient (scriptsLoaded c)
                    (<[SCRIPT_NAME TokenBucketScript := tokenBucketSHA]> (scriptSHAs c)) in
        match script_load srv1 BatchTokenBucketScript with
        | (inr _, srv2) => (Thrown (mkError "Failed to load Lua scripts"), c1, srv2)
        | (inl batchSHA, srv2) =>
            let c2 := mkClient (scriptsLoaded c1)
                        (<[SCRIPT_NAME BatchTokenBucketScript := batchSHA]> (scriptSHAs c1)) in
            (Returned tt, mkClient true (scriptSHAs c2), srv2)
        end
    end.

(** [checkTokenBucket].  [steps] bounds the number of nested calls that
    are followed; [Pending] means the promise has not settled by then.
    [currentTimeMs] is the reading of [Date.now()]. *)
Fixpoint checkTokenBucket (steps : nat) (c : Client) (srv : Server)
    (currentTimeMs : Z) (key : string) (capacity refillRatePerSec : Q)
    (softThresholdPct hardThresholdPct : Q)
    : Outcome Reply * Client * Server :=
  match steps with
  | O => (Pending, c, srv)
  | S steps' =>
      let sha := scriptSHAs c !! SCRIPT_NAME TokenBucketScript in
      if negb (JS.truthy_str sha) then
        match loadScripts c srv with
        | (Returned _, c1, srv1) =>
            checkTokenBucket steps' c1 srv1 currentTimeMs key capacity
              refillRatePerSec softThresholdPct hardThresholdPct
        | (Thrown e, c1, srv1) => (Thrown e, c1, srv1)
        | (Pending, c1, srv1) => (Pending, c1, srv1)
        end
      else
        let ttlSeconds := 3600%Z in
        match evalsha srv (default "" sha) key capacity refillRatePerSec
                currentTimeMs softThresholdPct hardThresholdPct ttlSeconds with
        | (inl (a, s, t, u), srv1) =>
            (Returned (mkReply (a =? 1)%Z s t u), c, srv1)
        | (inr error, srv1) =>
            if JS.includes (message error) "NOSCRIPT" then
              let c1 := mkClient (scriptsLoaded c)
                          (delete (SCRIPT_NAME TokenBucketScript) (scriptSHAs c)) in
              match loadScripts c1 srv1 with
              | (Returned _, c2, srv2) =>
                  checkTokenBucket steps' c2 srv2 currentTimeMs key capacity
                    refillRatePerSec softThresholdPct hardThresholdPct
              | (Thrown e, c2, srv2) => (Thrown e, c2, srv2)
              | (Pending, c2, srv2) => (Pending, c2, srv2)
              end
            else (Thrown (mkError "Token bucket check failed"), c, srv1)
        end
  end.

(** What a server restart does to the script cache. *)
Definition restart (srv : Server) : Server :=
  mkServer (reachable srv) ∅ (store srv) (script_loads srv) (evalsha_calls srv).

(** The client once [loadScripts] has run to its end. *)
Definition loaded_client : Client :=
  mkClient true
    (<[SCRIPT_NAME BatchTokenBucketScript := sha1 BatchTokenBucketScript]>
      (<[SCRIPT_NAME TokenBucketScript := sha1 TokenBucketScript]> ∅)).

(** The same client after the catch block has deleted the digest. *)
Definition forgetful_client : Client :=
  mkClient true (delete (SCRIPT_NAME TokenBucketScript) (scriptSHAs loaded_client)).

End RedisClient.

(** ** Circuit breaker ([CircuitBreaker], imported as utils/circuit-breaker) *)

Module CircuitBreaker.

Inductive CircuitBreakerState := CLOSED | OPEN | HALF_OPEN.

Definition state_eqb (a b : CircuitBreakerState) : bool :=
  match a, b with
  | CLOSED, CLOSED | OPEN, OPEN | HALF_OPEN, HALF_OPEN => true
  | _, _ => false
  end.

Record CircuitBreakerConfig := mkConfig {
  failure_threshold : Z;
  timeout_ms : Z;
  success_threshold : Z
}.

Record Breaker := mkBreaker {
  state : CircuitBreakerState;
  failures : Z;
  successes : Z;
  last_failure_time : option Z;
  next_attempt_time : Z
}.

Definition new_breaker : Breaker := mkBreaker CLOSED 0 0 None 0.

(** [transitionTo]; metrics and logs are left out. *)
Definition transitionTo (config : CircuitBreakerConfig) (Date_now : Z)
    (b : Breaker) (new_state : CircuitBreakerState) : Breaker :=
  let old_state := state b in
  if state_eqb old_state new_state then b
  else
    let b := mkBreaker new_state (failures b) (successes b)
               (last_failure_time b) (next_attempt_time b) in
    match new_state with
    | OPEN => mkBreaker (state b) (failures b) (successes b)
                (last_failure_time b) (Date_now + timeout_ms config)%Z
    | _ => b
    end.

Definition onSuccess (config : CircuitBreakerConfig) (Date_now : Z) (b : Breaker) : Breaker :=
  let b := mkBreaker (state b) 0 (successes b) (last_failure_time b) (next_attempt_time b) in
  if state_eqb (state b) HALF_OPEN then
    let b := mkBreaker (state b) (failures b) (successes b + 1)%Z
               (last_failure_time b) (next_attempt_time b) in
    if (successes b >=? success_threshold config)%Z then
      let b := transitionTo config Date_now b CLOSED in
      mkBreaker (state b) (failures b) 0 (last_failure_time b) (next_attempt_time b)
    else b
  else b.

Definition onFailure (config : CircuitBreakerConfig) (Date_now : Z) (b : Breaker) : Breaker :=
  let b := mkBreaker (state b) (failures b + 1)%Z (successes b)
             (Some Date_now) (next_attempt_time b) in
  if state_eqb (state b) HALF_OPEN then
    let b := transitionTo config Date_now b OPEN in
    mkBreaker (state b) (failures b) 0 (last_failure_time b) (next_attempt_time b)
  else if (failures b >=? failure_threshold config)%Z then
    transitionTo config Date_now b OPEN
  else b.

(** What [execute] throws: its own error, or the operation's. *)
Inductive ExecError (E : Type) :=
  | CircuitOpenError (next_retry : Z)
  | OperationError (e : E).
Arguments CircuitOpenError {E} next_retry.
Arguments OperationError {E} e.

(** [execute].  The operation acts on a world [W]; [clock] is [Date.now()]
    read from it.  Returns the result, the breaker and the world. *)
Definition execute {T E W : Type} (clock : W -> Z) (config : CircuitBreakerConfig)
    (b : Breaker) (operation : W -> (T + E) * W) (w : W)
    : (T + ExecError E) * Breaker * W :=
  let gate :=
    if state_eqb (state b) OPEN then
      if (clock w <? next_attempt_time b)%Z then None
      else Some (transitionTo config (clock w) b HALF_OPEN)
    else Some b in
  match gate with
  | None => (inr (CircuitOpenError (next_attempt_time b)), b, w)
  | Some b =>
      match operation w with
      | (inl result, w') => (inl result, onSuccess config (clock w') b, w')
      | (inr error, w') => (inr (OperationError error), onFailure config (clock w') b, w')
      end
  end.

(** [reset]. *)
Definition reset (b : Breaker) : Breaker := mkBreaker CLOSED 0 0 None 0.

(** A run of [execute] calls, one per operation. *)
Fixpoint execute_all {T E W : Type} (clock : W -> Z) (config : CircuitBreakerConfig)
    (b : Breaker) (operations : list (W -> (T + E) * W)) (w : W) : Breaker * W :=
  match operations with
  | [] => (b, w)
  | op :: rest =>
      let '(_, b', w') := execute clock config b op w in
      execute_all clock config b' rest w'
  end.

(** An operation that resolves on every world. *)
Definition succeeds {T E W : Type} (op : W -> (T + E) * W) : Prop :=
  forall w, exists r w', op w = (inl r, w').

(** An operation that rejects on [w]. *)
Definition fails_at {T E W : Type} (op : W -> (T + E) * W) (w : W) : Prop :=
  exists e w', op w = (inr e, w').

(** The breakers a process can hold: a new one, and what [execute] and
    [reset] make of one. *)
Inductive reachable {T E W : Type} (clock : W -> Z) (config : CircuitBreakerConfig)
    : Breaker -> Prop :=
  | reach_new : reachable clock config new_breaker
  | reach_execute b (op : W -> (T + E) * W) w :
      reachable clock config b ->
      reachable clock config (snd (fst (execute clock config b op w)))
  | reach_reset b :
      reachable clock config b -> reachable clock config (reset b).

(** [b] after [transitionTo('HALF_OPEN')]. *)
Definition half_open (b : Breaker) : Breaker :=
  mkBreaker HALF_OPEN (failures b) (successes b) (last_failure_time b) (next_attempt_time b).

End CircuitBreaker.

(** ** Identity extraction ([extractIdentity] and its helpers) *)

Module Identity.

(** The part of an Express request that is read.  Header names are in
    lower case and each header value is one string. *)
Record Request := mkRequest {
  path : string;
  headers : gmap string string;
  ip : option string;
  remoteAddress : option string
}.

(** A claim value: a string, or anything else. *)
Inductive JValue := JStr (s : string) | JOther.

(** What [jwt.verify] and [jwt.decode] give: an object or a string. *)
Inductive JWTPayload := PObject (claims : gmap string JValue) | PString (s : string).

Record JwtConfig := mkJwtConfig {
  secret : option string;
  header : string
}.

Definition headerLowerCase (c : JwtConfig) : string := JS.toLowerCase (header c).

Definition hasSecret (c : JwtConfig) : bool :=
  JS.truthy_str (secret c) &&
  (0 <? String.length (JS.trim (default "" (secret c))))%nat.

(** The jsonwebtoken library: [verify token secret] is [None] when it
    throws, [decode token] is [None] when it returns null. *)
Record JwtLibrary := mkJwt {
  verify : string -> string -> option JWTPayload;
  decode : string -> option JWTPayload
}.

(** [!payload]. *)
Definition payload_falsy (p : JWTPayload) : bool :=
  match p with
  | PString s => String.eqb s ""
  | PObject _ => false
  end.

(** [typeof payload.k === 'string' ? payload.k : null]. *)
Definition string_claim (p : JWTPayload) (k : string) : option string :=
  match p with
  | PObject claims =>
      match claims !! k with
      | Some (JStr s) => Some s
      | _ => None
      end
  | PString _ => None
  end.

Definition getClientIP (req : Request) : string :=
  let forwarded := headers req !! "x-forwarded-for" in
  if JS.truthy_str forwarded then
    JS.trim (hd "" (JS.split "," (default "" forwarded)))
  else
    let realIP := headers req !! "x-real-ip" in
    if JS.truthy_str realIP then default "" realIP
    else
      default "unknown"
        (JS.or_str (ip req) (JS.or_str (remoteAddress req) (Some "unknown"))).

(** The token of an authorization header: what follows ["Bearer "], or
    the whole header. *)
Definition bearer_token (authHeader : string) : string :=
  if JS.startsWith authHeader "Bearer " then JS.substring_from 7 authHeader
  else authHeader.

(** [jwt.verify] when a secret is configured, else [jwt.decode]; [None]
    when the former throws or the latter returns null. *)
Definition decode_payload (jwt : JwtLibrary) (jwtConfig : JwtConfig) (token : string)
    : option JWTPayload :=
  if hasSecret jwtConfig then verify jwt token (default "" (secret jwtConfig))
  else decode jwt token.

Definition extractFromJWT (jwt : JwtLibrary) (jwtConfig : JwtConfig) (req : Request)
    : option (string * string) :=
  let authHeader := headers req !! headerLowerCase jwtConfig in
  if negb (JS.truthy_str authHeader) then None
  else
    let token := bearer_token (default "" authHeader) in
    if String.eqb token "" then None
    else
      match decode_payload jwt jwtConfig token with
      | None => None
      | Some payload =>
          if payload_falsy payload then None
          else
            let tenant_id :=
              JS.or_str (string_claim payload "tenant_id")
                (JS.or_str (string_claim payload "tenantId") (Some "default")) in
            let user_id :=
              JS.or_str (string_claim payload "user_id")
                (JS.or_str (string_claim payload "userId")
                  (JS.or_str (string_claim payload "sub") (Some "unknown"))) in
            Some (default "default" tenant_id, default "unknown" user_id)
      end.

Definition extractFromAPIKey (req : Request) : option (string * string) :=
  let apiKey := headers req !! "x-api-key" in
  if negb (JS.truthy_str apiKey) then None
  else
    let apiKey := default "" apiKey in
    match JS.split "." apiKey with
    | p0 :: p1 :: _ => Some (p0, p1)
    | _ => Some (apiKey, "default")
    end.

Definition extractFromHeaders (req : Request) : option (string * string) :=
  let tenant_id := headers req !! "x-tenant-id" in
  let user_id := headers req !! "x-user-id" in
  if JS.truthy_str tenant_id && JS.truthy_str user_id then
    Some (default "" tenant_id, default "" user_id)
  else if JS.truthy_str tenant_id then Some (default "" tenant_id, "default")
  else None.

Definition extractIdentity (jwt : JwtLibrary) (jwtConfig : JwtConfig) (req : Request)
    : RequestIdentity :=
  let endpoint := path req in
  match extractFromJWT jwt jwtConfig req with
  | Some (t, u) => mkIdentity t u endpoint (Some (getClientIP req))
  | None =>
      match extractFromAPIKey req with
      | Some (t, u) => mkIdentity t u endpoint (Some (getClientIP req))
      | None =>
          match extractFromHeaders req with
          | Some (t, u) => mkIdentity t u endpoint (Some (getClientIP req))
          | None =>
              let ip := getClientIP req in
              mkIdentity "anonymous"
                ("ip_" ++ JS.map_chars (fun a => if JS.is_alnum a then a else "_"%char) ip)
                endpoint (Some ip)
          end
      end
  end.

End Identity.

(** ** Abuse detection job (jobs/abuse-detection-job.ts) *)

Module AbuseDetectionJob.

Inductive PenaltyType := adaptive | fixed.

Record AbuseDetectionConfig := mkAbuseConfig {
  enabled : bool;
  checkIntervalMs : Z;
  throttleThreshold : Q;
  detectionWindowMinutes : Z;
  penaltyDurationMs : Z;
  penaltyType : PenaltyType;
  penaltyMultiplier : Q
}.

Inductive Severity := high | medium.

(** The override object [penalizeTenant] builds; [reason_text] is the
    formatted reason string, [created_at] is filled by the store. *)
Definition penalty_override (config : AbuseDetectionConfig) (Date_now : Z)
    (tenant_id : string) (reason_text : string) : TenantOverride :=
  let expiresAt := (Date_now + penaltyDurationMs config)%Z in
  let configPenaltyType := penaltyType config in
  let override_type :=
    match configPenaltyType with
    | adaptive => OT_penalty_multiplier
    | fixed => OT_custom_limit
    end in
  mkOverride tenant_id None None override_type
    (match configPenaltyType with
     | adaptive => Some (penaltyMultiplier config)
     | fixed => None
     end)
    None None reason_text auto_detector Date_now expiresAt.

(** [penalizeTenant]: [collection] is [None] when the store is down; a
    throwing [createOverride] is caught.  Returns the collection, the
    override cache and the severity flagged, if any. *)
Definition penalizeTenant (config : AbuseDetectionConfig) (Date_now : Z)
    (cache : gmap string OverrideManager.CacheEntry)
    (collection : option (list TenantOverride))
    (tenant_id : string) (throttle_rate : Q) (reason_text : string)
    : option (list TenantOverride) * gmap string OverrideManager.CacheEntry
      * option Severity :=
  let hasOverride := OverrideManager.hasActiveOverride collection Date_now tenant_id in
  if hasOverride then (collection, cache, None)
  else
    let severity := if Qgt_bool throttle_rate (8 # 10) then high else medium in
    let override := penalty_override config Date_now tenant_id reason_text in
    match collection with
    | None => (collection, cache, None)
    | Some docs =>
        let '(docs', cache') :=
          OverrideManager.createOverride cache docs Date_now override in
        (Some docs', cache', Some severity)
    end.

End AbuseDetectionJob.

(** ** Decisioner ([ThrottleDecisioner]) *)

Module ThrottleDecisioner.

Record Policies := mkPolicies {
  user : option BucketPolicy;
  tenant : BucketPolicy;
  user_endpoints : option (gmap string BucketPolicy);
  tenant_endpoints : option (gmap string BucketPolicy);
  throttle_config : ThrottleConfig
}.

Record TenantRateLimitPolicy := mkTenantPolicy {
  policy_tenant_id : string;
  policies : Policies
}.

Record GlobalRateLimitPolicy := mkGlobalPolicy {
  global : BucketPolicy;
  endpoints : option (gmap string BucketPolicy)
}.

Record Check := mkCheck {
  c_scope : RateLimitScope;
  c_key : string;
  c_policy : BucketPolicy;
  softPct : Q;
  hardPct : Q
}.

Record CheckResult := mkResult {
  r_scope : RateLimitScope;
  r_allowed : bool;
  r_state : ThrottleState;
  r_tokens : Z;
  r_usage_pct : Z;
  r_limit : Q;
  r_policy : BucketPolicy;
  r_hardPct : Q
}.

Record RateLimitDecision := mkDecision {
  allowed : bool;
  state : ThrottleState;
  scope : RateLimitScope;
  limit : Q;
  remaining : Z;
  reset : Z;
  retry_after : option Z;
  debug : list (RateLimitScope * Z * Z)
}.

(** [endpoint.split('?')[0]]. *)
Definition withoutQuery (endpoint : string) : string :=
  hd "" (JS.split "?" endpoint).

(** [s.replace(/\/$/, '')]. *)
Definition dropTrailingSlash (s : string) : string :=
  match JS.str_rev s with
  | String "/" rest => JS.str_rev rest
  | _ => s
  end.

Definition is_key_char (a : ascii) : bool :=
  JS.is_alnum a || Ascii.eqb a "-" || Ascii.eqb a "_" || Ascii.eqb a "/".

Definition normalizeEndpoint (endpoint : string) : string :=
  let withoutQuery := withoutQuery endpoint in
  let normalized := dropTrailingSlash withoutQuery in
  JS.map_chars (fun a => if is_key_char a then a else "_"%char) normalized.

Definition getEndpointPolicy (endpoints : gmap string BucketPolicy) (endpoint : string)
    : option BucketPolicy :=
  let normalized := normalizeEndpoint endpoint in
  match endpoints !! normalized with
  | Some p => Some p
  | None => endpoints !! endpoint
  end.

(** Step 3 of [performHierarchicalCheck]: the ordered check list. *)
Definition buildChecks (tenantPolicy : TenantRateLimitPolicy)
    (globalPolicy : GlobalRateLimitPolicy) (identity : RequestIdentity) : list Check :=
  let throttleConfig := throttle_config (policies tenantPolicy) in
  let hard_threshold_pct := hard_threshold_pct throttleConfig in
  let soft_threshold_pct := default hard_threshold_pct (soft_threshold_pct throttleConfig) in
  let T := tenant_id identity in
  let U := user_id identity in
  let E := normalizeEndpoint (endpoint identity) in
  let byEndpoint (m : option (gmap string BucketPolicy)) :=
    match m with
    | Some eps => getEndpointPolicy eps (endpoint identity)
    | None => None
    end in
  (match user (policies tenantPolicy) with
   | Some p =>
       [mkCheck user_global ("{tenant:" ++ T ++ "}:user:" ++ U ++ ":bucket")%string
          p soft_threshold_pct hard_threshold_pct]
   | None => []
   end) ++
  (match byEndpoint (user_endpoints (policies tenantPolicy)) with
   | Some p =>
       [mkCheck user_endpoint
          ("{tenant:" ++ T ++ "}:user:" ++ U ++ ":endpoint:" ++ E ++ ":bucket")%string
          p soft_threshold_pct hard_threshold_pct]
   | None => []
   end) ++
  [mkCheck tenant_global ("{tenant:" ++ T ++ "}:bucket")%string
     (tenant (policies tenantPolicy)) soft_threshold_pct hard_threshold_pct] ++
  (match byEndpoint (tenant_endpoints (policies tenantPolicy)) with
   | Some p =>
       [mkCheck tenant_endpoint
          ("{tenant:" ++ T ++ "}:endpoint:" ++ E ++ ":bucket")%string
          p soft_threshold_pct hard_threshold_pct]
   | None => []
   end) ++
  (match byEndpoint (endpoints globalPolicy) with
   | Some p =>
       [mkCheck global_endpoint ("global:endpoint:" ++ E ++ ":bucket")%string p 100 110]
   | None => []
   end) ++
  [mkCheck global_system "global:bucket" (global globalPolicy) 100 110].

(** One evaluation of the primitive for a check, with the script resident
    on the server ([redisClient.checkTokenBucket] on its success path),
    mapped to a check result as [executeSingleCheck] and
    [executeTenantBatchChecks] do. *)
Definition executeSingleCheck (store : gmap string Lua.Bucket) (currentTimeMs : Z)
    (check : Check) : gmap string Lua.Bucket * CheckResult :=
  let '(store', ret) :=
    Lua.TOKEN_BUCKET_LUA_SCRIPT store (c_key check)
      (burst_capacity (c_policy check))
      (TokenBucketEngine.refillRatePerSec (c_policy check))
      currentTimeMs (softPct check) (hardPct check) (Some 3600%Z) in
  let '(a, s, t, u) := Lua.redis_reply ret in
  (store',
   mkResult (c_scope check) (a =? 1)%Z (TokenBucketEngine.mapStateToEnum s) t u
     (rpm (c_policy check)) (c_policy check) (hardPct check)).

(** A pipeline, or a sequence of single calls: the evaluations run one
    after the other on the store. *)
Fixpoint executeChecks (store : gmap string Lua.Bucket) (currentTimeMs : Z)
    (checks : list Check) : gmap string Lua.Bucket * list CheckResult :=
  match checks with
  | [] => (store, [])
  | c :: rest =>
      let '(store1, r) := executeSingleCheck store currentTimeMs c in
      let '(store2, rs) := executeChecks store1 currentTimeMs rest in
      (store2, r :: rs)
  end.

(** The merge loop of [executeBatchChecks]; a missing entry stands for
    an [undefined] array element. *)
Fixpoint mergeResults (checks : list Check) (tenantResults globalResults : list CheckResult)
    : list (option CheckResult) :=
  match checks with
  | [] => []
  | check :: rest =>
      if JS.startsWith (c_key check) "{tenant:" then
        hd_error tenantResults :: mergeResults rest (tl tenantResults) globalResults
      else
        hd_error globalResults :: mergeResults rest tenantResults (tl globalResults)
  end.

Definition executeBatchChecks (store : gmap string Lua.Bucket) (currentTimeMs : Z)
    (checks : list Check) : gmap string Lua.Bucket * list (option CheckResult) :=
  let tenantChecks := List.filter (fun c => JS.startsWith (c_key c) "{tenant:") checks in
  let globalChecks := List.filter (fun c => JS.startsWith (c_key c) "global:") checks in
  let '(store1, tenantResults) := executeChecks store currentTimeMs tenantChecks in
  let '(store2, globalResults) := executeChecks store1 currentTimeMs globalChecks in
  (store2, mergeResults checks tenantResults globalResults).

Definition statePriority (s : ThrottleState) : Z :=
  match s with
  | hard => 3
  | soft => 2
  | normal => 1
  end.

(** [results.reduce(...)] without an initial value; [None] on an empty
    array, where JavaScript throws. *)
Definition aggregateResults (results : list CheckResult) : option CheckResult :=
  match results with
  | [] => None
  | first :: rest =>
      Some (fold_left (fun worst current =>
              if (statePriority (r_state current) >? statePriority (r_state worst))%Z
              then current else worst) rest first)
  end.

Definition calculateReset (Date_now : Z) (tokens capacity refillRatePerSec : Q) : Z :=
  JS.Math_ceil
    (TokenBucketEngine.calculateResetTime Date_now tokens capacity refillRatePerSec / 1000).

(** Steps 5-8 of [performHierarchicalCheck]. *)
Definition decide_from (Date_now : Z) (results : list CheckResult)
    : option RateLimitDecision :=
  match aggregateResults results with
  | None => None
  | Some worstResult =>
      let rate := TokenBucketEngine.refillRatePerSec (r_policy worstResult) in
      let resetTime :=
        calculateReset Date_now (inject_Z (r_tokens worstResult))
          (r_limit worstResult) rate in
      let retryAfter :=
        match r_state worstResult with
        | hard =>
            Some (TokenBucketEngine.calculateRetryAfter
                    (inject_Z (r_tokens worstResult))
                    (burst_capacity (r_policy worstResult)) rate
                    (r_hardPct worstResult))
        | _ => None
        end in
      Some (mkDecision
              (match r_state worstResult with hard => false | _ => true end)
              (r_state worstResult) (r_scope worstResult) (r_limit worstResult)
              (JS.Math_floor (inject_Z (r_tokens worstResult)))
              resetTime retryAfter
              (map (fun r => (r_scope r, r_tokens r, r_usage_pct r)) results))
  end.

(** [performHierarchicalCheck] on loaded policies and the override found
    by [getActiveOverride].  [Date_now] is the clock reading; store calls
    succeed.  [None] stands for a thrown TypeError. *)
Definition performHierarchicalCheck (store : gmap string Lua.Bucket) (Date_now : Z)
    (tenantPolicy : TenantRateLimitPolicy) (globalPolicy : GlobalRateLimitPolicy)
    (override : option TenantOverride) (identity : RequestIdentity)
    : gmap string Lua.Bucket * option RateLimitDecision :=
  let applied :=
    match override with
    | Some o =>
        Some (o, OverrideManager.applyOverride o
                   (tenant (policies tenantPolicy)) (user (policies tenantPolicy)))
    | None => None
    end in
  let banned_decision :=
    match applied with
    | Some (o, result) =>
        if OverrideManager.banned result then
          let retryAfter := JS.Math_ceil (inject_Z (expires_at o - Date_now) / 1000) in
          Some (mkDecision false hard tenant_global 0 0
                  (JS.Math_ceil (inject_Z (expires_at o) / 1000)) (Some retryAfter) [])
        else None
    | None => None
    end in
  match banned_decision with
  | Some d => (store, Some d)
  | None =>
      let tenantPolicy :=
        match applied with
        | Some (_, result) =>
            let p := policies tenantPolicy in
            mkTenantPolicy (policy_tenant_id tenantPolicy)
              (mkPolicies
                 (match OverrideManager.userPolicy result with
                  | Some up => Some up
                  | None => user p
                  end)
                 (OverrideManager.tenantPolicy result)
                 (user_endpoints p) (tenant_endpoints p) (throttle_config p))
        | None => tenantPolicy
        end in
      let checks := buildChecks tenantPolicy globalPolicy identity in
      let '(store', results) := executeBatchChecks store Date_now checks in
      match mapM id results with
      | Some results => (store', decide_from Date_now results)
      | None => (store', None)
      end
  end.

(** The reset epoch as the bucket engine's contract words it: now plus
    the time to refill from [tokens] to [capacity], in milliseconds,
    rounded up to seconds. *)
Definition reset_epoch_s (Date_now : Z) (tokens capacity refill_rate_per_sec : Q) : Z :=
  Qceiling ((inject_Z Date_now + ((capacity - tokens) / refill_rate_per_sec) * 1000) / 1000).

End ThrottleDecisioner.

(** ** Rate-limit modes (types/index.ts) *)

Inductive RateLimitMode := shadow | logging | enforcement.

(** ** Fallback handler (core/fallback-handler.ts) *)

Module FallbackHandler.

Record FallbackBucket := mkFallbackBucket {
  requests : list Z;
  lastCleanup : Z
}.

(** A JavaScript number that may be [Infinity]. *)
Inductive Num := Finite (z : Z) | Infinity.

Record Decision := mkDecision {
  allowed : bool;
  state : ThrottleState;
  scope : RateLimitScope;
  limit : Z;
  remaining : Z;
  reset : Z;
  retry_after : option Num;
  debug : list (RateLimitScope * Z * Q)
}.

Definition windowMs : Z := 60000.

Definition getBucketKey (identity : RequestIdentity) : string :=
  ("fallback:" ++ tenant_id identity)%string.

(** [Math.min(...l)]. *)
Definition Math_min (l : list Z) : Num :=
  match l with
  | [] => Infinity
  | x :: rest => Finite (fold_left Z.min rest x)
  end.

(** [checkRateLimit] of the fallback handler.  [fallbackRPM] is the
    configured limit, an integer the configuration requires to be
    positive; [usagePct] is exact for it.  The bucket object is updated
    in place, so the map holds the filtered and extended request list. *)
Definition checkRateLimit (fallbackRPM : Z) (buckets : gmap string FallbackBucket)
    (Date_now : Z) (identity : RequestIdentity) (mode : RateLimitMode)
    : gmap string FallbackBucket * Decision :=
  let key := getBucketKey identity in
  let now := Date_now in
  let bucket :=
    match buckets !! key with
    | Some bucket => bucket
    | None => mkFallbackBucket [] now
    end in
  let windowStart := (now - windowMs)%Z in
  let requests :=
    List.filter (fun timestamp => (windowStart <? timestamp)%Z) (requests bucket) in
  let requestCount := Z.of_nat (length requests) in
  let remaining := Z.max 0 (fallbackRPM - requestCount) in
  let allowed := (requestCount <? fallbackRPM)%Z in
  let requests := if allowed then requests ++ [now] else requests in
  let reset := JS.Math_ceil (inject_Z (now + windowMs) / 1000) in
  let usagePct := inject_Z requestCount / inject_Z fallbackRPM * 100 in
  let softThresholdPct := 100 in
  let hardThresholdPct := 110 in
  let state :=
    if Qge_bool usagePct hardThresholdPct then hard
    else if Qge_bool usagePct softThresholdPct then soft
    else normal in
  let retryAfter :=
    if negb allowed then
      Some (match Math_min requests with
            | Finite oldestRequest =>
                let oldestAge := (now - oldestRequest)%Z in
                Finite (JS.Math_ceil (inject_Z (windowMs - oldestAge) / 1000))
            | Infinity => Infinity
            end)
    else None in
  (<[key := mkFallbackBucket requests now]> buckets,
   mkDecision
     (match mode with enforcement => allowed | _ => true end)
     state tenant_global fallbackRPM remaining reset retryAfter
     [(tenant_global, remaining, usagePct)]).

(** [cleanupOldBuckets]. *)
Definition cleanupOldBuckets (buckets : gmap string FallbackBucket) (Date_now : Z)
    : gmap string FallbackBucket :=
  let maxAge := (windowMs * 2)%Z in
  filter (fun kb => ~ (maxAge < Date_now - lastCleanup (snd kb))%Z) buckets.

(** A run of calls for one identity, one per clock reading. *)
Fixpoint checkAll (fallbackRPM : Z) (buckets : gmap string FallbackBucket)
    (identity : RequestIdentity) (mode : RateLimitMode) (times : list Z)
    : gmap string FallbackBucket * list Decision :=
  match times with
  | [] => (buckets, [])
  | now :: rest =>
      let '(buckets1, d) := checkRateLimit fallbackRPM buckets now identity mode in
      let '(buckets2, ds) := checkAll fallbackRPM buckets1 identity mode rest in
      (buckets2, d :: ds)
  end.

(** The clock readings of the calls of a run that were admitted. *)
Fixpoint admitted (times : list Z) (ds : list Decision) : list Z :=
  match times, ds with
  | t :: times', d :: ds' =>
      if allowed d then t :: admitted times' ds' else admitted times' ds'
  | _, _ => []
  end.

(** How many of [ts] lie in the window [(a, a + 60000]]. *)
Definition in_window (a : Z) (ts : list Z) : Z :=
  Z.of_nat (length (List.filter (fun t => (a <? t)%Z && (t <=? a + windowMs)%Z) ts)).

(** The bucket of a tenant holds the admitted calls of the last window. *)
Definition tracks (buckets : gmap string FallbackBucket) (identity : RequestIdentity)
    (last : Z) (hist : list Z) : Prop :=
  match buckets !! getBucketKey identity with
  | Some b => requests b = List.filter (fun t => (last - windowMs <? t)%Z) hist
  | None => hist = []
  end.

Definition bounded (rpm : Z) (hist : list Z) : Prop :=
  forall a, (in_window a hist <= rpm)%Z.

(** The bucket of a tenant as calls up to [last] leave it. *)
Definition within_limit (rpm last : Z) (buckets : gmap string FallbackBucket)
    (identity : RequestIdentity) : Prop :=
  match buckets !! getBucketKey identity with
  | Some b => (Z.of_nat (length (requests b)) <= rpm)%Z /\
              Forall (fun t => (t <= last)%Z) (requests b)
  | None => True
  end.

(** What a caller can rely on in a fallback decision: it is never hard;
    it either admits, with no retry hint and at least one request
    remaining, or refuses as soft with nothing remaining and a retry hint
    of 1 to 60 seconds; outside enforcement it always allows. *)
Definition sound_decision (rpm : Z) (mode : RateLimitMode) (d : Decision) : Prop :=
  limit d = rpm /\ scope d = tenant_global /\ state d <> hard /\
  (mode <> enforcement -> allowed d = true) /\
  ((retry_after d = None /\ state d = normal /\ (1 <= remaining d <= rpm)%Z /\
    allowed d = true) \/
   (exists s, retry_after d = Some (Finite s) /\ (1 <= s <= 60)%Z /\
      state d = soft /\ remaining d = 0%Z /\ (mode = enforcement -> allowed d = false))).

End FallbackHandler.

(** ** The check behind breaker and fallback
    (core/throttle-decisioner.ts, core/fallback-handler.ts) *)

Module RateLimitCheck.
Import CircuitBreaker.

(** [executeWithFallback]: the operation acts on a state [S] and either
    resolves or rejects; the fallback runs on the state the rejected
    operation left. *)
Definition executeWithFallback {T E S : Type} (operation : S -> (T + E) * S)
    (fallbackOperation : S -> T * S) (s : S) : T * S :=
  match operation s with
  | (inl result, s') => (result, s')
  | (inr _, s') => fallbackOperation s'
  end.

(** [ThrottleDecisioner.checkRateLimit]: the hierarchical check behind
    the store's circuit breaker, the in-memory handler as fallback.  The
    state is the breaker and the world both operations act on. *)
Definition checkRateLimit {D E W : Type} (clock : W -> Z) (config : CircuitBreakerConfig)
    (performHierarchicalCheck : W -> (D + E) * W) (fallbackCheck : W -> D * W)
    (s : Breaker * W) : D * (Breaker * W) :=
  executeWithFallback
    (fun s : Breaker * W =>
       let '(r, b', w') := execute clock config (fst s) performHierarchicalCheck (snd s) in
       (r, (b', w')))
    (fun s : Breaker * W =>
       let '(d, w') := fallbackCheck (snd s) in (d, (fst s, w')))
    s.

End RateLimitCheck.

(** ** Middleware (middleware/rate-limiter.ts, types/index.ts) *)

Module Middleware.
Import FallbackHandler.

(** [validateIdentity]. *)
Definition validateIdentity (identity : RequestIdentity) : bool :=
  if negb (JS.truthy_str (Some (tenant_id identity))) ||
     String.eqb (JS.trim (tenant_id identity)) "" then false
  else if negb (JS.truthy_str (Some (user_id identity))) ||
          String.eqb (JS.trim (user_id identity)) "" then false
  else if negb (JS.truthy_str (Some (endpoint identity))) ||
          String.eqb (JS.trim (endpoint identity)) "" then false
  else true.

(** A decision as the middleware receives it: from the hierarchical
    check or from the fallback handler. *)
Inductive Decision :=
  | FromStore (d : ThrottleDecisioner.RateLimitDecision)
  | FromFallback (d : FallbackHandler.Decision).

Definition d_allowed (d : Decision) : bool :=
  match d with
  | FromStore d => ThrottleDecisioner.allowed d
  | FromFallback d => FallbackHandler.allowed d
  end.

Definition d_state (d : Decision) : ThrottleState :=
  match d with
  | FromStore d => ThrottleDecisioner.state d
  | FromFallback d => FallbackHandler.state d
  end.

Definition d_scope (d : Decision) : RateLimitScope :=
  match d with
  | FromStore d => ThrottleDecisioner.scope d
  | FromFallback d => FallbackHandler.scope d
  end.

Definition d_limit (d : Decision) : Q :=
  match d with
  | FromStore d => ThrottleDecisioner.limit d
  | FromFallback d => inject_Z (FallbackHandler.limit d)
  end.

Definition d_remaining (d : Decision) : Z :=
  match d with
  | FromStore d => ThrottleDecisioner.remaining d
  | FromFallback d => FallbackHandler.remaining d
  end.

Definition d_reset (d : Decision) : Z :=
  match d with
  | FromStore d => ThrottleDecisioner.reset d
  | FromFallback d => FallbackHandler.reset d
  end.

Definition d_retry_after (d : Decision) : option Num :=
  match d with
  | FromStore d => option_map Finite (ThrottleDecisioner.retry_after d)
  | FromFallback d => FallbackHandler.retry_after d
  end.

(** Truthiness of an optional number. *)
Definition truthy (n : option Num) : bool :=
  match n with
  | Some (Finite z) => negb (z =? 0)%Z
  | Some Infinity => true
  | None => false
  end.

(** A header value: the number or text it was made from. *)
Inductive HeaderValue :=
  | OfNumber (q : Q)
  | OfNum (n : Num)
  | OfMode (mode : RateLimitMode)
  | OfText (s : string)
  | OfWarning (scope : RateLimitScope) (remaining : Z).

(** The body of the 429 answer; [error] and [message] are fixed texts,
    the latter naming [scope]. *)
Record TooManyRequests := mkTooManyRequests {
  body_limit : Q;
  body_remaining : Z;
  body_reset : Z;
  body_retry_after : option Num;
  body_scope : RateLimitScope
}.

Inductive Response :=
  | Next
  | Status429 (body : TooManyRequests).

(** The handler [rateLimitMiddleware(mode)] returns, on the identity
    extracted from the request.  [configMode] is the configured mode;
    [checkRateLimit] is [None] when the check throws.  Returns the
    headers in the order they are set and how the request goes on. *)
Definition rateLimitMiddleware (mode : option RateLimitMode) (configMode : RateLimitMode)
    (checkRateLimit : RequestIdentity -> RateLimitMode -> option Decision)
    (identity : RequestIdentity) : list (string * HeaderValue) * Response :=
  let rateLimitMode := default configMode mode in
  if negb (validateIdentity identity) then ([], Next)
  else
    match checkRateLimit identity rateLimitMode with
    | None => ([("X-RateLimit-Error"%string, OfText "true")], Next)
    | Some decision =>
        let headers :=
          [("X-RateLimit-Limit"%string, OfNumber (d_limit decision));
           ("X-RateLimit-Remaining"%string, OfNumber (inject_Z (d_remaining decision)));
           ("X-RateLimit-Reset"%string, OfNumber (inject_Z (d_reset decision)));
           ("X-RateLimit-Mode"%string, OfMode rateLimitMode)] in
        let headers :=
          if truthy (d_retry_after decision) then
            match d_retry_after decision with
            | Some n => headers ++ [("Retry-After"%string, OfNum n)]
            | None => headers
            end
          else headers in
        let headers :=
          match d_state decision with
          | soft =>
              if d_allowed decision then
                headers ++ [("X-RateLimit-Warning"%string,
                             OfWarning (d_scope decision) (d_remaining decision))]
              else headers
          | _ => headers
          end in
        if negb (d_allowed decision) then
          match rateLimitMode with
          | shadow => (headers ++ [("X-RateLimit-Shadow"%string, OfText "true")], Next)
          | logging => (headers ++ [("X-RateLimit-Exceeded"%string, OfText "true")], Next)
          | enforcement =>
              (headers,
               Status429 (mkTooManyRequests (d_limit decision) (d_remaining decision)
                            (d_reset decision) (d_retry_after decision) (d_scope decision)))
          end
        else (headers, Next)
    end.

(** The names of the headers set. *)
Definition header_names (h : list (string * HeaderValue)) : list string := map fst h.

End Middleware.

(** ** The detection run (jobs/abuse-detection-job.ts) *)

Module AbuseDetectionRun.
Import OverrideManager AbuseDetectionJob.

Inductive RunStatus := success | error.

(** The loop of [runDetection] over the tenants the metrics query
    reported; each entry carries the clock reading of its
    [penalizeTenant] call, [reason_of] formats the reason string.  The
    third component lists the [recordAbuseFlag] calls. *)
Fixpoint penalizeEach (config : AbuseDetectionConfig) (reason_of : Q -> string)
    (cache : gmap string CacheEntry) (collection : option (list TenantOverride))
    (abusiveTenants : list (string * Q * Z))
    : option (list TenantOverride) * gmap string CacheEntry * list (string * Severity) :=
  match abusiveTenants with
  | [] => (collection, cache, [])
  | (tenant_id, throttle_rate, Date_now) :: rest =>
      let '(collection1, cache1, flag) :=
        penalizeTenant config Date_now cache collection tenant_id throttle_rate
          (reason_of throttle_rate) in
      let '(collection2, cache2, flags) :=
        penalizeEach config reason_of cache1 collection1 rest in
      (collection2, cache2,
       match flag with
       | Some severity => (tenant_id, severity) :: flags
       | None => flags
       end)
  end.

(** [PrometheusClient.getTenantsWithHighThrottleRate]
    (metrics/prometheus-client.ts): [response] is the result list of the
    metrics query, [None] when the query throws; every error is caught
    and answered with the empty list. *)
Definition getTenantsWithHighThrottleRate (response : option (list (option string * Q)))
    : list (string * Q) :=
  match response with
  | Some result =>
      map (fun item =>
             (default "unknown"%string (JS.or_str (fst item) (Some "unknown"%string)),
              snd item)) result
  | None => []
  end.

(** The tenants reported, each with the clock reading of its turn in the
    loop. *)
Definition at_times (tenants : list (string * Q)) (clock : list Z)
    : list (string * Q * Z) :=
  map (fun p => (fst (fst p), snd (fst p), snd p)) (combine tenants clock).

(** [runDetection]: skipped while a run is in progress.  [abusiveTenants]
    is what [getTenantsWithHighThrottleRate] returned; as that method and
    [penalizeTenant] catch every error, the catch block of [runDetection]
    is not reached and the status recorded is ['success']. *)
Definition runDetection (config : AbuseDetectionConfig) (reason_of : Q -> string)
    (running : bool) (cache : gmap string CacheEntry)
    (collection : option (list TenantOverride))
    (abusiveTenants : list (string * Q * Z))
    : option (list TenantOverride) * gmap string CacheEntry * list (string * Severity)
      * option RunStatus :=
  if running then (collection, cache, [], None)
  else (penalizeEach config reason_of cache collection abusiveTenants, Some success).

(** A tenant-wide override of the detector that lasts the configured
    penalty duration. *)
Definition automatic_penalty (config : AbuseDetectionConfig) (o : TenantOverride) : Prop :=
  o_user_id o = None /\ o_endpoint o = None /\ source o = auto_detector /\
  expires_at o = (created_at o + penaltyDurationMs config)%Z.

End AbuseDetectionRun.

(** ** Further vocabulary for the properties *)

Module Terms.

(** The reducer of [aggregateResults]. *)
Definition pick_worse (worst current : ThrottleDecisioner.CheckResult)
    : ThrottleDecisioner.CheckResult :=
  if (ThrottleDecisioner.statePriority (ThrottleDecisioner.r_state current) >?
      ThrottleDecisioner.statePriority (ThrottleDecisioner.r_state worst))%Z
  then current else worst.

(** The check goes to the tenant batch of [executeBatchChecks]. *)
Definition tenant_scoped (c : ThrottleDecisioner.Check) : bool :=
  JS.startsWith (ThrottleDecisioner.c_key c) "{tenant:".

(** An operation that rejects on every world. *)
Definition fails {T E W : Type} (op : W -> (T + E) * W) : Prop :=
  forall w, exists e w', op w = (inr e, w').



End Terms.

(** ** Double-precision arithmetic

    The Lua script and the TypeScript code compute on IEEE-754 binary64
    numbers.  A double that is finite is a rational; an operation gives
    the exact result rounded to the nearest double, ties to even.  The
    models of this part apply a rounding function after every
    operation.  Overflow to an infinity and NaN are not represented:
    the rounding function is total on the rationals. *)

Module Double.

(** The binary exponent of a positive rational: [2 ^ ilog2 x <= x <
    2 ^ (ilog2 x + 1)]. *)
Definition ilog2 (x : Q) : Z :=
  let k0 := (Z.log2 (Qnum x) - Z.log2 (Zpos (Qden x)))%Z in
  if Qle_bool (2 ^ k0) x then k0 else (k0 - 1)%Z.

(** The decimal exponent of a positive rational, by search upwards from
    1 or downwards from 1/10. *)
Fixpoint ilog10_up (fuel : nat) (k : Z) (x : Q) : Z :=
  match fuel with
  | O => k
  | S fuel' => if Qle_bool (10 ^ (k + 1)) x then ilog10_up fuel' (k + 1) x else k
  end.

Fixpoint ilog10_down (fuel : nat) (k : Z) (x : Q) : Z :=
  match fuel with
  | O => k
  | S fuel' => if Qle_bool (10 ^ k) x then k else ilog10_down fuel' (k - 1) x
  end.

Definition ilog10 (x : Q) : Z :=
  let fuel := Z.to_nat (Z.log2 (Qnum x) + Z.log2 (Zpos (Qden x)) + 1) in
  if Qle_bool 1 x then ilog10_up fuel 0 x else ilog10_down fuel (-1) x.

(** The nearest integer, ties to even. *)
Definition nearest_even (q : Q) : Z :=
  let f := Qfloor q in
  match Qcompare (q - inject_Z f) (1 # 2) with
  | Lt => f
  | Gt => (f + 1)%Z
  | Eq => if Z.even f then f else (f + 1)%Z
  end.

(** Rounding to [prec] significant digits in radix [beta], to nearest,
    ties to even; [emin] is the least exponent of a normal number. *)
Definition round_to (beta : Z) (ilog : Q -> Z) (prec emin : Z) (x : Q) : Q :=
  if Qeq_bool x 0 then 0
  else
    let e := (Z.max (ilog (Qabs x)) emin - (prec - 1))%Z in
    Qred (inject_Z (nearest_even (x / inject_Z beta ^ e)) * inject_Z beta ^ e).

(** Rounding to binary64. *)
Definition round : Q -> Q := round_to 2 ilog2 53 (-1022).

(** The number [tostring] writes with the format [%.14g] of Lua 5.1:
    14 significant decimal digits. *)
Definition decimal14 : Q -> Q := round_to 10 ilog10 14 (-400).

(** [tonumber (tostring x)]. *)
Definition reread (x : Q) : Q := round (decimal14 x).

(** What the statements below use of the rounding: it respects
    equality of rationals, it is monotone, it leaves the integers up to
    [2 ^ 53] as they are, and its error is at most [2 ^ -53] of the
    magnitude plus half the least subnormal. *)
Record binary64_like (rnd : Q -> Q) : Prop := {
  rnd_proper : forall x y, x == y -> rnd x == rnd y;
  rnd_mono : forall x y, x <= y -> rnd x <= rnd y;
  rnd_int : forall z, (Z.abs z <= 2 ^ 53)%Z -> rnd (inject_Z z) == inject_Z z;
  rnd_err : forall x, Qabs (rnd x - x) <= (1 # 2 ^ 53) * Qabs x + (1 # 2 ^ 1075)
}.

(** What they use of the round trip through [tostring]: it is
    monotone and its error is at most [2 ^ -44] of the magnitude, the
    half unit of the fourteenth digit and the rounding of [tonumber],
    plus the least subnormal. *)
Record reread_like (str : Q -> Q) : Prop := {
  str_mono : forall x y, x <= y -> str x <= str y;
  str_err : forall x, Qabs (str x - x) <= (1 # 2 ^ 44) * Qabs x + (1 # 2 ^ 1074)
}.

End Double.

(** ** The token-bucket script on doubles (core/lua-scripts.ts)

    The script of [Lua] with every arithmetic operation rounded by
    [rnd].  The token count goes to the store through [tostring] and
    comes back through [tonumber]: [str] is that round trip.  The
    timestamps are whole numbers of milliseconds below [10 ^ 14], which
    [tostring] writes in full. *)

Module LuaDouble.

Section Script.
Variables rnd str : Q -> Q.

(** Lines 58-66: elapsed time and refill. *)
Definition refill (capacity refill_rate_per_sec : Q) (current_time_ms : Z)
    (bucket_data : option Q * option Z) : Q * Z :=
  let current_tokens := default capacity (fst bucket_data) in
  let last_refill_ms := default current_time_ms (snd bucket_data) in
  let elapsed_seconds := rnd (rnd (inject_Z (current_time_ms - last_refill_ms)) / 1000) in
  if Qgt_bool elapsed_seconds 0 then
    let tokens_to_add := rnd (elapsed_seconds * refill_rate_per_sec) in
    (Qmin capacity (rnd (current_tokens + tokens_to_add)), current_time_ms)
  else (current_tokens, last_refill_ms).

(** Lines 68-70 and 88-90: usage percentage of a token count. *)
Definition usage_of (capacity current_tokens : Q) : Q :=
  let tokens_consumed := rnd (capacity - current_tokens) in
  rnd (rnd (tokens_consumed / capacity) * 100).

(** Lines 84-100: consumption with the overshoot guard. *)
Definition consume (capacity soft_threshold_pct hard_threshold_pct : Q)
    (locals : Lua.ScriptReturn) : Lua.ScriptReturn :=
  if (Lua.allowed locals =? 1)%Z then
    let current_tokens := rnd (Lua.current_tokens locals - 1) in
    let usage_pct := usage_of capacity current_tokens in
    if Qge_bool usage_pct hard_threshold_pct then
      Lua.mkReturn 0 2 (rnd (current_tokens + 1)) usage_pct
    else if Qge_bool usage_pct soft_threshold_pct then
      Lua.mkReturn (Lua.allowed locals) 1 current_tokens usage_pct
    else
      Lua.mkReturn (Lua.allowed locals) (Lua.state locals) current_tokens usage_pct
  else locals.

(** TOKEN_BUCKET_LUA_SCRIPT: one atomic run on the store. *)
Definition TOKEN_BUCKET_LUA_SCRIPT (store : gmap string Lua.Bucket) (key : string)
    (capacity refill_rate_per_sec : Q) (current_time_ms : Z)
    (soft_threshold_pct hard_threshold_pct : Q) (ttl_arg : option Z)
    : gmap string Lua.Bucket * Lua.ScriptReturn :=
  let ttl_seconds := default 3600%Z ttl_arg in
  let bucket_data := Lua.HMGET store key in
  let '(current_tokens, last_refill_ms) :=
    refill capacity refill_rate_per_sec current_time_ms bucket_data in
  let usage_pct := usage_of capacity current_tokens in
  let '(state, allowed) := Lua.classify usage_pct soft_threshold_pct hard_threshold_pct in
  let locals :=
    consume capacity soft_threshold_pct hard_threshold_pct
      (Lua.mkReturn allowed state current_tokens usage_pct) in
  if (Lua.allowed locals =? 1)%Z then
    (<[key := Lua.mkBucket (str (Lua.current_tokens locals)) last_refill_ms ttl_seconds]>
       store,
     locals)
  else (store, locals).

(** The token count after refill and before any consumption. *)
Definition refilled_tokens (store : gmap string Lua.Bucket) (key : string)
    (capacity refill_rate_per_sec : Q) (current_time_ms : Z) : Q :=
  fst (refill capacity refill_rate_per_sec current_time_ms (Lua.HMGET store key)).

(** A run of consecutive invocations on one key with fixed parameters,
    one per timestamp; the key does not expire in between. *)
Fixpoint run_calls (store : gmap string Lua.Bucket) (key : string)
    (capacity refill_rate_per_sec soft_threshold_pct hard_threshold_pct : Q)
    (ttl_arg : option Z) (times : list Z)
    : gmap string Lua.Bucket * list Lua.ScriptReturn :=
  match times with
  | [] => (store, [])
  | now :: rest =>
      let '(store1, r) :=
        TOKEN_BUCKET_LUA_SCRIPT store key capacity refill_rate_per_sec now
          soft_threshold_pct hard_threshold_pct ttl_arg in
      let '(store2, rs) :=
        run_calls store1 key capacity refill_rate_per_sec
          soft_threshold_pct hard_threshold_pct ttl_arg rest in
      (store2, r :: rs)
  end.

End Script.

(** The stored bucket of [key] is within capacity, and what is consumed
    of it is below the share of the hard threshold, up to [2 ^ -20]
    tokens. *)
Definition below_hard (key : string) (C hardp : Q) (store : gmap string Lua.Bucket) : Prop :=
  match store !! key with
  | Some b => Lua.tokens b <= C /\ C - Lua.tokens b < C * hardp / 100 + (1 # 2 ^ 20)
  | None => True
  end.

(** What a run keeps true after [n] allowed calls, the first call made
    at [t0] and the last at [tcur]: before the first allowed call the
    bucket is as it was, full; afterwards the stored count is within
    capacity and below the hard threshold, and the stored count plus
    [n], less an error of [2 ^ -22] for each allowed call, is at most
    the capacity plus the refill from [t0] to the stored refill time. *)
Definition Inv (key : string) (C r hardp : Q) (t0 : Z)
    (store : gmap string Lua.Bucket) (tcur : Z) (n : Z) : Prop :=
  (t0 <= tcur)%Z /\ (0 <= n)%Z /\
  match store !! key with
  | None => n = 0%Z
  | Some b =>
      (n = 0%Z /\ Lua.tokens b == C) \/
      ((0 < n)%Z /\ (t0 <= Lua.last_refill_ms b)%Z /\
       Lua.tokens b <= C /\ C - Lua.tokens b < C * hardp / 100 + (1 # 2 ^ 20) /\
       Lua.tokens b + inject_Z n * (1 - (1 # 2 ^ 22))
         <= C + r * Lua.seconds t0 (Z.min (Lua.last_refill_ms b) tcur))
  end.

End LuaDouble.

(** ** Penalty scaling on doubles (core/override-manager.ts) *)

Module OverrideDouble.
Import OverrideManager.

Section Scale.
Variable rnd : Q -> Q.

(** The penalty branch of [applyOverride]: [Math.floor] of the rounded
    product for the three limits, the rounded product for the refill
    rate. *)
Definition scale (multiplier : Q) (p : BucketPolicy) : BucketPolicy :=
  mkPolicy
    (inject_Z (JS.Math_floor (rnd (rpm p * multiplier))))
    (inject_Z (JS.Math_floor (rnd (rps p * multiplier))))
    (inject_Z (JS.Math_floor (rnd (burst_capacity p * multiplier))))
    (if JS.truthy_num (refill_rate_per_sec p)
     then option_map (fun r => rnd (r * multiplier)) (refill_rate_per_sec p)
     else None).

Definition applyOverride (override : TenantOverride)
    (tenantPolicy : BucketPolicy) (userPolicy : option BucketPolicy) : Applied :=
  match override_type override with
  | OT_temporary_ban => mkApplied tenantPolicy userPolicy true
  | OT_penalty_multiplier =>
      match penalty_multiplier override with
      | Some multiplier =>
          if JS.truthy_num (Some multiplier) then
            mkApplied (scale multiplier tenantPolicy)
                      (option_map (scale multiplier) userPolicy) false
          else mkApplied tenantPolicy userPolicy false
      | None => mkApplied tenantPolicy userPolicy false
      end
  | OT_custom_limit =>
      match custom_rate override, custom_burst override with
      | Some rate, Some burst =>
          if JS.truthy_num (Some rate) && JS.truthy_num (Some burst) then
            let customPolicy :=
              mkPolicy rate (rnd (rate / 60)) burst (Some (rnd (rate / 60))) in
            mkApplied customPolicy (Some customPolicy) false
          else mkApplied tenantPolicy userPolicy false
      | _, _ => mkApplied tenantPolicy userPolicy false
      end
  end.

(** [p'] is [p] with the penalty multiplier [m] applied field by field. *)
Definition scaled (m : Q) (p p' : BucketPolicy) : Prop :=
  rpm p' = inject_Z (Qfloor (rnd (rpm p * m))) /\
  rps p' = inject_Z (Qfloor (rnd (rps p * m))) /\
  burst_capacity p' = inject_Z (Qfloor (rnd (burst_capacity p * m))) /\
  refill_rate_per_sec p' =
    match refill_rate_per_sec p with
    | Some r => if Qeq_bool r 0 then None else Some (rnd (r * m))
    | None => None
    end.

End Scale.

End OverrideDouble.

(** ** Reset time and retry delay on doubles (core/token-bucket.ts) *)

Module EngineDouble.

Section Engine.
Variable rnd : Q -> Q.

(** [calculateResetTime]; [Date_now] is the reading of [Date.now()]. *)
Definition calculateResetTime (Date_now : Z)
    (currentTokens capacity refillRatePerSec : Q) : Q :=
  if Qge_bool currentTokens capacity then inject_Z Date_now
  else
    let tokensNeeded := rnd (capacity - currentTokens) in
    let secondsToReset := rnd (tokensNeeded / refillRatePerSec) in
    rnd (inject_Z Date_now + rnd (secondsToReset * 1000)).

Definition calculateRetryAfter
    (currentTokens capacity refillRatePerSec hardThresholdPct : Q) : Z :=
  let maxAllowedTokensConsumed := rnd (rnd (capacity * hardThresholdPct) / 100) in
  let currentTokensConsumed := rnd (capacity - currentTokens) in
  if Qle_bool currentTokensConsumed maxAllowedTokensConsumed then 0%Z
  else
    let tokensToRefill := rnd (currentTokensConsumed - maxAllowedTokensConsumed) in
    let secondsToWait := rnd (tokensToRefill / refillRatePerSec) in
    JS.Math_ceil secondsToWait.

End Engine.

End EngineDouble.

(** * Properties *)

(** ** Rational comparisons *)

Lemma Qge_bool_true x y : Qge_bool x y = true <-> y <= x.
Proof. unfold Qge_bool. apply Qle_bool_iff. Qed.

Lemma Qge_bool_false x y : Qge_bool x y = false <-> x < y.
Proof.
  unfold Qge_bool. split; intros H.
  - apply Qnot_le_lt. intros Hle. apply Qle_bool_iff in Hle. congruence.
  - destruct (Qle_bool y x) eqn:E; [|reflexivity].
    apply Qle_bool_iff in E. lra.
Qed.

Lemma Qgt_bool_true x y : Qgt_bool x y = true <-> y < x.
Proof.
  unfold Qgt_bool. rewrite negb_true_iff. apply (Qge_bool_false y x).
Qed.

Lemma Qgt_bool_false x y : Qgt_bool x y = false <-> x <= y.
Proof.
  unfold Qgt_bool. rewrite negb_false_iff. apply Qle_bool_iff.
Qed.

(** ** The token-bucket primitive *)

Module LuaFacts.
Import Lua.

Lemma script_run store key capacity rate now softp hardp ttl :
  Run store key capacity rate now softp hardp ttl
    (fst (TOKEN_BUCKET_LUA_SCRIPT store key capacity rate now softp hardp ttl))
    (snd (TOKEN_BUCKET_LUA_SCRIPT store key capacity rate now softp hardp ttl)).
Proof.
  unfold TOKEN_BUCKET_LUA_SCRIPT.
  destruct (refill capacity rate now (HMGET store key)) as [t l] eqn:Hr.
  unfold classify.
  destruct (Qge_bool (usage_of capacity t) hardp) eqn:H1.
  - apply Qge_bool_true in H1. simpl. eapply RunDenied; eauto.
  - apply Qge_bool_false in H1.
    assert (Hcons : forall st0, (st0 = 0 \/ st0 = 1)%Z ->
      Run store key capacity rate now softp hardp ttl
        (fst (let locals := consume capacity softp hardp
                 (mkReturn 1 st0 t (usage_of capacity t)) in
              if (allowed locals =? 1)%Z
              then (<[key:=mkBucket (current_tokens locals) l (default 3600%Z ttl)]> store, locals)
              else (store, locals)))
        (snd (let locals := consume capacity softp hardp
                 (mkReturn 1 st0 t (usage_of capacity t)) in
              if (allowed locals =? 1)%Z
              then (<[key:=mkBucket (current_tokens locals) l (default 3600%Z ttl)]> store, locals)
              else (store, locals)))).
    { intros st0 Hst0. unfold consume. simpl.
      destruct (Qge_bool (usage_of capacity (t - 1)) hardp) eqn:H2.
      - apply Qge_bool_true in H2. simpl. eapply RunRefunded; eauto.
      - apply Qge_bool_false in H2.
        destruct (Qge_bool (usage_of capacity (t - 1)) softp); simpl;
          eapply RunAllowed; eauto. }
    destruct (Qge_bool (usage_of capacity t) softp); apply Hcons; auto.
Qed.






Lemma usage_lt_iff C x h : 0 < C -> usage_of C x < h <-> (C - x) * 100 < h * C.
Proof.
  intros HC. unfold usage_of.
  assert (E : (C - x) / C * 100 == ((C - x) * 100) / C) by (field; lra).
  rewrite E. split; intros H.
  - apply (Qmult_lt_r _ _ C) in H; [|exact HC].
    assert (E2 : (C - x) * 100 / C * C == (C - x) * 100) by (field; lra).
    rewrite E2 in H. exact H.
  - apply Qlt_shift_div_r; assumption.
Qed.

Lemma seconds_split (a b c : Z) : seconds a c == seconds a b + seconds b c.
Proof.
  unfold seconds, Z.sub. rewrite !inject_Z_plus, !inject_Z_opp. field.
Qed.

Lemma seconds_nonneg (a b : Z) : (a <= b)%Z -> 0 <= seconds a b.
Proof.
  intros H. unfold seconds. apply Qle_shift_div_l; [reflexivity|].
  rewrite Qmult_0_l. change 0 with (inject_Z 0). rewrite <- Zle_Qle. lia.
Qed.

Lemma seconds_nonpos (a b : Z) : (b <= a)%Z -> seconds a b <= 0.
Proof.
  intros H. pose proof (seconds_nonneg b a H) as H1.
  pose proof (seconds_split a b a) as H2.
  assert (H3 : seconds a a == 0).
  { unfold seconds. rewrite Z.sub_diag. reflexivity. }
  lra.
Qed.

Lemma seconds_pos_lt (a b : Z) : 0 < seconds a b -> (a < b)%Z.
Proof.
  intros H. destruct (Z_lt_le_dec a b) as [L|L]; [exact L|].
  pose proof (seconds_nonpos a b L). lra.
Qed.

Lemma last_cons_default (rest : list Z) : forall t d,
  List.last (t :: rest) d = List.last rest t.
Proof.
  induction rest as [|x xs IH]; intros t d; [reflexivity|].
  change (List.last (t :: x :: xs) d) with (List.last (x :: xs) d).
  rewrite (IH x d), (IH x t). reflexivity.
Qed.

(** C2, as stated, fails: with capacity 20 and thresholds 100/110, a
    fresh bucket allows 21 calls in the same millisecond. *)
Lemma burst_above_capacity : ~ allowed_at_most_capacity_plus_refill.
Proof.
  intros H.
  specialize (H ∅ "k"%string 20 1 100 110 None 0%Z (repeat 0%Z 20)).
  assert (Hnd : nondecreasing 0 (repeat 0%Z 20)) by (simpl; repeat (split; [lia|]); exact I).
  assert (Hfull : full_bucket ∅ "k" 20) by exact I.
  specialize (H ltac:(reflexivity) ltac:(discriminate) ltac:(reflexivity)
                ltac:(discriminate) ltac:(discriminate) Hfull Hnd).
  vm_compute in H. apply H. reflexivity.
Qed.

End LuaFacts.

(** ** Override lookup and application *)

Module OverrideFacts.
Import OverrideManager.

Lemma In_insert_desc o x l : In x (insert_desc o l) <-> x = o \/ In x l.
Proof.
  induction l as [|y l IH]; simpl.
  - intuition.
  - destruct (created_at y <=? created_at o)%Z; simpl; [intuition|].
    rewrite IH. intuition.
Qed.

Lemma In_sort_desc x l : In x (sort_desc l) <-> In x l.
Proof.
  induction l as [|y l IH]; simpl; [reflexivity|].
  rewrite In_insert_desc, IH. intuition.
Qed.

Lemma truthy_Some s : JS.truthy_str (Some s) = true <-> s <> ""%string.
Proof.
  simpl. rewrite negb_true_iff. destruct (String.eqb_spec s ""); split; congruence.
Qed.

(** On the documents the query lets through, the query's [$or] branch
    that matched is the shape of the document. *)
Lemma query_matches_rank now t u e o :
  query_matches (buildOverrideQuery now t u e) o = true <->
  o_tenant_id o = t /\ (now < expires_at o)%Z /\ is_Some (shape_rank u e o).
Proof.
  unfold query_matches, buildOverrideQuery, shape_rank, shape, or_matches. simpl.
  rewrite !andb_true_iff, String.eqb_eq, Z.ltb_lt.
  destruct o as [ot ou oe ty pm cr cb rs src ca ea]. simpl.
  assert (X : forall (b : bool) (P Q R : Prop), (b = true <-> R) -> ((P /\ Q) /\ b = true <-> P /\ Q /\ R))
    by (intros; tauto).
  apply X. clear X.
  destruct u as [u|], e as [e|], ou as [ou|], oe as [oe|]; simpl;
    repeat match goal with
    | |- context [String.eqb ?a ?b] => destruct (String.eqb_spec a b); subst; simpl
    end;
    split; intros H; try discriminate; try (eexists; reflexivity); try reflexivity;
    try (destruct H as [? H]; discriminate); try congruence.
Qed.

Lemma find_agree {A} (f g : A -> bool) (l : list A) :
  (forall x, In x l -> f x = g x) -> List.find f l = List.find g l.
Proof.
  induction l as [|x l IH]; intros H; [reflexivity|]. simpl.
  rewrite (H x (or_introl eq_refl)). destruct (g x); [reflexivity|].
  apply IH. intros y Hy. apply H. right. exact Hy.
Qed.

Lemma find_false {A} (l : list A) : List.find (fun _ => false) l = None.
Proof. induction l; simpl; auto. Qed.

(** A ranked document has no empty-string field. *)
Lemma ranked_fields u e o :
  is_Some (shape_rank u e o) ->
  absent (o_user_id o) = field_absent (o_user_id o) /\
  absent (o_endpoint o) = field_absent (o_endpoint o).
Proof.
  unfold shape_rank, shape, absent.
  destruct o as [ot ou oe ty pm cr cb rs src ca ea]. simpl.
  destruct u as [u|], e as [e|], ou as [ou|], oe as [oe|]; simpl;
    repeat match goal with
    | |- context [String.eqb ?a ?b] => destruct (String.eqb_spec a b); subst; simpl
    end;
    intros [k Hk]; try discriminate; try congruence; split; reflexivity.
Qed.

Lemma getPriorityOverride_first_shape L u e :
  (forall o, In o L -> is_Some (shape_rank u e o)) ->
  getPriorityOverride L u e = first_shape L u e.
Proof.
  intros HL. unfold getPriorityOverride, first_shape.
  destruct L as [|o0 L0]; [reflexivity|].
  set (L := o0 :: L0) in *.
  change (0 <? length L)%nat with true. cbv iota.
  assert (E1 : (if JS.truthy_str u && JS.truthy_str e
                then List.find (fun o => JS.strict_eq (o_user_id o) u &&
                                         JS.strict_eq (o_endpoint o) e) L
                else None) = List.find (shape 1 u e) L).
  { unfold shape. destruct (JS.truthy_str u && JS.truthy_str e) eqn:G.
    - apply find_agree. intros x _. reflexivity.
    - rewrite <- (find_false L). apply find_agree. intros x _. reflexivity. }
  assert (E2 : (if JS.truthy_str u
                then List.find (fun o => JS.strict_eq (o_user_id o) u &&
                                         absent (o_endpoint o)) L
                else None) = List.find (shape 2 u e) L).
  { unfold shape. destruct (JS.truthy_str u) eqn:G.
    - apply find_agree. intros x Hx. destruct (ranked_fields u e x (HL x Hx)) as [_ ->].
      reflexivity.
    - rewrite <- (find_false L). apply find_agree. intros x _. reflexivity. }
  assert (E3 : (if JS.truthy_str e
                then List.find (fun o => JS.strict_eq (o_endpoint o) e &&
                                         absent (o_user_id o)) L
                else None) = List.find (shape 3 u e) L).
  { unfold shape. destruct (JS.truthy_str e) eqn:G.
    - apply find_agree. intros x Hx. destruct (ranked_fields u e x (HL x Hx)) as [-> _].
      reflexivity.
    - rewrite <- (find_false L). apply find_agree. intros x _. reflexivity. }
  assert (E4 : List.find (fun o => absent (o_user_id o) && absent (o_endpoint o)) L
               = List.find (shape 4 u e) L).
  { apply find_agree. intros x Hx.
    destruct (ranked_fields u e x (HL x Hx)) as [-> ->]. reflexivity. }
  rewrite E1.
  destruct (List.find (shape 1 u e) L) as [o1|] eqn:F1.
  { reflexivity. }
  cbn [JS.nullish andb].
  rewrite E2.
  destruct (List.find (shape 2 u e) L) as [o2|] eqn:F2.
  { reflexivity. }
  cbn [JS.nullish andb].
  rewrite E3.
  destruct (List.find (shape 3 u e) L) as [o3|] eqn:F3.
  { reflexivity. }
  cbn [JS.nullish andb].
  exact E4.
Qed.

Lemma shape_rank_ge1 u e o k : shape_rank u e o = Some k -> (1 <= k <= 4)%nat.
Proof.
  unfold shape_rank.
  repeat match goal with |- context [if ?b then _ else _] => destruct b end;
    intros H; inversion H; lia.
Qed.

Lemma first_shape_top L u e :
  (forall o, In o L -> is_Some (shape_rank u e o)) ->
  match first_shape L u e with
  | Some o => In o L /\ exists k, shape_rank u e o = Some k /\
      forall o' k', In o' L -> shape_rank u e o' = Some k' -> (k <= k')%nat
  | None => L = []
  end.
Proof.
  intros HL. unfold first_shape.
  destruct (List.find (shape 1 u e) L) as [o|] eqn:F1.
  { apply find_some in F1 as [Hin Hs]. split; [exact Hin|]. exists 1%nat.
    split; [unfold shape_rank; rewrite Hs; reflexivity|].
    intros o' k' _ Hk. apply shape_rank_ge1 in Hk. lia. }
  pose proof (find_none _ _ F1) as N1.
  destruct (List.find (shape 2 u e) L) as [o|] eqn:F2.
  { apply find_some in F2 as [Hin Hs]. split; [exact Hin|]. exists 2%nat.
    split; [unfold shape_rank; rewrite (N1 o Hin), Hs; reflexivity|].
    intros o' k' Hin' Hk. unfold shape_rank in Hk. rewrite (N1 o' Hin') in Hk.
    fold (shape_rank u e o') in Hk.
    repeat match type of Hk with (if ?b then _ else _) = _ => destruct b end;
      inversion Hk; lia. }
  pose proof (find_none _ _ F2) as N2.
  destruct (List.find (shape 3 u e) L) as [o|] eqn:F3.
  { apply find_some in F3 as [Hin Hs]. split; [exact Hin|]. exists 3%nat.
    split; [unfold shape_rank; rewrite (N1 o Hin), (N2 o Hin), Hs; reflexivity|].
    intros o' k' Hin' Hk. unfold shape_rank in Hk.
    rewrite (N1 o' Hin'), (N2 o' Hin') in Hk.
    repeat match type of Hk with (if ?b then _ else _) = _ => destruct b end;
      inversion Hk; lia. }
  pose proof (find_none _ _ F3) as N3.
  destruct (List.find (shape 4 u e) L) as [o|] eqn:F4.
  { apply find_some in F4 as [Hin Hs]. split; [exact Hin|]. exists 4%nat.
    split; [unfold shape_rank; rewrite (N1 o Hin), (N2 o Hin), (N3 o Hin), Hs; reflexivity|].
    intros o' k' Hin' Hk. unfold shape_rank in Hk.
    rewrite (N1 o' Hin'), (N2 o' Hin'), (N3 o' Hin') in Hk.
    repeat match type of Hk with (if ?b then _ else _) = _ => destruct b end;
      inversion Hk; lia. }
  pose proof (find_none _ _ F4) as N4.
  destruct L as [|o L]; [reflexivity|]. exfalso.
  destruct (HL o (or_introl eq_refl)) as [k Hk]. unfold shape_rank in Hk.
  rewrite (N1 o), (N2 o), (N3 o), (N4 o) in Hk by (left; reflexivity). discriminate.
Qed.

(** C7, as stated, fails on a lookup answered from the cache: a lookup
    for (acme, alice, /api) finds nothing and caches that; then a
    tenant-wide, an endpoint-only and a user-only override are created,
    none of which drops the cache key of (acme, alice, /api); the next
    lookup for (acme, alice, /api) still answers null, although three
    active overrides match and the user-only one ranks first. *)
Lemma cached_null_masks_new_override : ~ lookup_always_top_match.
Proof.
  intros H.
  set (t := "acme"%string). set (u := Some "alice"%string). set (e := Some "/api"%string).
  set (cache1 := snd (getActiveOverride ∅ (Some []) 1000 t u e)).
  set (o4 := mkOverride t None None OT_penalty_multiplier (Some (1 # 10)) None None
               "abuse"%string auto_detector 0 100000).
  set (o3 := mkOverride t None e OT_temporary_ban None None None
               "manual"%string manual_operator 0 100000).
  set (o2 := mkOverride t u None OT_temporary_ban None None None
               "manual"%string manual_operator 0 100000).
  set (s4 := createOverride cache1 [] 2000 o4).
  set (s3 := createOverride (snd s4) (fst s4) 2100 o3).
  set (s2 := createOverride (snd s3) (fst s3) 2200 o2).
  specialize (H (snd s2) (fst s2) 3000%Z t u e).
  assert (E : fst (getActiveOverride (snd s2) (Some (fst s2)) 3000 t u e) = None)
    by (vm_compute; reflexivity).
  rewrite E in H. simpl in H.
  specialize (H _ (or_intror (or_intror (or_introl eq_refl))) eq_refl ltac:(reflexivity)).
  vm_compute in H. discriminate.
Qed.

(** C7 (amended): when the lookup is not answered from the cache (no
    entry under its key, or an entry older than 30 s) and the store
    answers, [getActiveOverride] returns at most one override: an active
    override of the tenant whose shape comes first in the order
    user+endpoint, user, endpoint, tenant-wide among the active overrides
    matching the request, and null only when no active override matches. *)
Theorem lookup_returns_top_match cache docs now t u e :
  cache_get cache now (getCacheKey t u e) = None ->
  top_match docs now t u e (fst (getActiveOverride cache (Some docs) now t u e)).
Proof.
  intros Hmiss. unfold getActiveOverride. rewrite Hmiss. simpl.
  set (L := find_overrides docs (buildOverrideQuery now t u e)).
  assert (HL : forall o, In o L <->
            In o docs /\ o_tenant_id o = t /\ (now < expires_at o)%Z /\
            is_Some (shape_rank u e o)).
  { intros o. unfold L, find_overrides. rewrite In_sort_desc, filter_In, query_matches_rank.
    reflexivity. }
  assert (HR : forall o, In o L -> is_Some (shape_rank u e o)).
  { intros o Ho. apply HL in Ho. tauto. }
  rewrite (getPriorityOverride_first_shape L u e HR).
  pose proof (first_shape_top L u e HR) as Htop.
  unfold top_match.
  destruct (first_shape L u e) as [o|].
  - destruct Htop as [Hin (k & Hk & Hmin)]. apply HL in Hin.
    destruct Hin as (Hd & Ht & Hexp & _). repeat split; auto.
    exists k. split; [exact Hk|]. intros o' Hd' Ht' Hexp' k' Hk'.
    apply (Hmin o' k'); [|exact Hk']. apply HL. repeat split; eauto.
  - intros o' Hd' Ht' Hexp'. destruct (shape_rank u e o') as [k|] eqn:Hk; [|reflexivity].
    exfalso. assert (Hin : In o' L) by (apply HL; rewrite Hk; repeat split; eauto).
    rewrite Htop in Hin. exact Hin.
Qed.

Lemma lookup_returns_top_match_witness :
  let o1 := mkOverride "acme" (Some "alice") (Some "/api") OT_temporary_ban None None None
              "r1" manual_operator 5 100000 in
  let o4 := mkOverride "acme" None None OT_custom_limit None (Some 50) (Some 50)
              "r4" manual_operator 9 100000 in
  cache_get ∅ 1000 (getCacheKey "acme" (Some "alice") (Some "/api")) = None /\
  top_match [o4; o1] 1000 "acme" (Some "alice") (Some "/api")
    (fst (getActiveOverride ∅ (Some [o4; o1]) 1000 "acme" (Some "alice") (Some "/api"))).
Proof.
  intros o1 o4. split; [reflexivity|].
  apply (lookup_returns_top_match ∅ [o4; o1] 1000%Z "acme"%string
           (Some "alice"%string) (Some "/api"%string)).
  reflexivity.
Defined.

(** C3, as stated, fails: a tenant limit of 5 rpm under multiplier 0.1
    becomes 0, not 1. *)
Lemma penalty_collapses_to_zero : ~ penalty_never_below_one.
Proof.
  intros H.
  specialize (H (mkOverride "acme" None None OT_penalty_multiplier (Some (1 # 10))
                   None None "abuse" auto_detector 0 1000)
                (1 # 10) (mkPolicy 5 (5 # 60) 5 None) None eq_refl eq_refl).
  specialize (H ltac:(reflexivity) ltac:(discriminate) ltac:(reflexivity)
                ltac:(reflexivity) ltac:(reflexivity)).
  destruct H as [H _]. vm_compute in H. discriminate.
Qed.

End OverrideFacts.

(** ** Circuit breaker *)

Module BreakerFacts.
Import CircuitBreaker.

Section Breaker.
Context {T E W : Type}.
Variable clock : W -> Z.
Variable config : CircuitBreakerConfig.

Lemma open_fails_fast b (op : W -> (T + E) * W) w :
  state b = OPEN -> (clock w < next_attempt_time b)%Z ->
  execute clock config b op w = (inr (CircuitOpenError (next_attempt_time b)), b, w).
Proof.
  intros Hs Ht. unfold execute. rewrite Hs. simpl.
  apply Z.ltb_lt in Ht. rewrite Ht. reflexivity.
Qed.

Lemma open_probe b (op : W -> (T + E) * W) w :
  state b = OPEN -> (next_attempt_time b <= clock w)%Z ->
  execute clock config b op w = execute clock config (half_open b) op w.
Proof.
  intros Hs Ht. unfold execute. rewrite Hs. simpl.
  apply Z.ltb_ge in Ht. rewrite Ht. unfold transitionTo. rewrite Hs. reflexivity.
Qed.

Lemma half_open_runs b (op : W -> (T + E) * W) w :
  state b = HALF_OPEN ->
  execute clock config b op w =
    match op w with
    | (inl r, w') => (inl r, onSuccess config (clock w') b, w')
    | (inr e, w') => (inr (OperationError e), onFailure config (clock w') b, w')
    end.
Proof. intros Hs. unfold execute. rewrite Hs. reflexivity. Qed.

Lemma half_open_failure b (op : W -> (T + E) * W) w e w' :
  state b = HALF_OPEN -> op w = (inr e, w') ->
  execute clock config b op w =
    (inr (OperationError e),
     mkBreaker OPEN (failures b + 1) 0 (Some (clock w')) (clock w' + timeout_ms config), w').
Proof.
  intros Hs Hop. rewrite (half_open_runs b op w Hs), Hop.
  unfold onFailure, transitionTo. simpl. rewrite Hs. reflexivity.
Qed.

Lemma half_open_success b (op : W -> (T + E) * W) w r w' :
  state b = HALF_OPEN -> op w = (inl r, w') ->
  execute clock config b op w =
    (inl r,
     if (successes b + 1 >=? success_threshold config)%Z
     then mkBreaker CLOSED 0 0 (last_failure_time b) (next_attempt_time b)
     else mkBreaker HALF_OPEN 0 (successes b + 1) (last_failure_time b) (next_attempt_time b),
     w').
Proof.
  intros Hs Hop. rewrite (half_open_runs b op w Hs), Hop.
  unfold onSuccess, transitionTo. simpl. rewrite Hs. simpl.
  destruct (successes b + 1 >=? success_threshold config)%Z; reflexivity.
Qed.

Lemma successes_counted (ops : list (W -> (T + E) * W)) : forall b w,
  state b = HALF_OPEN -> (0 <= successes b)%Z ->
  Forall succeeds ops ->
  (successes b + Z.of_nat (length ops) < success_threshold config)%Z ->
  state (fst (execute_all clock config b ops w)) = HALF_OPEN /\
  successes (fst (execute_all clock config b ops w)) = (successes b + Z.of_nat (length ops))%Z.
Proof.
  induction ops as [|op ops IH]; intros b w Hs H0 Hall Hlt.
  - simpl. split; [exact Hs | lia].
  - inversion Hall as [|? ? Hop Hrest]; subst.
    destruct (Hop w) as (r & w' & Hr).
    cbn [execute_all]. rewrite (half_open_success b op w r w' Hs Hr).
    cbn [length] in Hlt.
    assert (Hc : (successes b + 1 >=? success_threshold config)%Z = false).
    { rewrite Z.geb_leb. apply Z.leb_gt. lia. }
    rewrite Hc.
    set (b1 := mkBreaker HALF_OPEN 0 (successes b + 1) (last_failure_time b) (next_attempt_time b)).
    destruct (IH b1 w' eq_refl) as [A B]; [simpl; lia | exact Hrest | simpl; lia |].
    split; [exact A|]. rewrite B. simpl. lia.
Qed.

Lemma threshold_closes (ops : list (W -> (T + E) * W)) b w :
  state b = HALF_OPEN -> successes b = 0%Z ->
  Forall succeeds ops ->
  (1 <= success_threshold config)%Z ->
  Z.of_nat (length ops) = success_threshold config ->
  state (fst (execute_all clock config b ops w)) = CLOSED.
Proof.
  intros Hs H0 Hall Hk Hlen.
  destruct (exists_last (l := ops)) as (front & op & ->).
  { intros ->. simpl in Hlen. lia. }
  apply Forall_app in Hall as [Hfront Hop]. inversion Hop as [|? ? Hop1 _]; subst.
  rewrite length_app in Hlen. simpl in Hlen.
  assert (Happ : forall (l1 l2 : list (W -> (T + E) * W)) b0 w0,
    execute_all clock config b0 (l1 ++ l2) w0 =
    execute_all clock config (fst (execute_all clock config b0 l1 w0)) l2
      (snd (execute_all clock config b0 l1 w0))).
  { induction l1 as [|x l1 IH1]; intros l2 b0 w0; [reflexivity|].
    cbn [app execute_all]. destruct (execute clock config b0 x w0) as [[? b'] w'']. apply IH1. }
  rewrite Happ.
  destruct (successes_counted front b w Hs) as [A B]; [lia | exact Hfront | lia |].
  set (b1 := fst (execute_all clock config b front w)) in *.
  set (w1 := snd (execute_all clock config b front w)).
  destruct (Hop1 w1) as (r & w' & Hr).
  cbn [execute_all]. rewrite (half_open_success b1 op w1 r w' A Hr).
  assert (Hc : (successes b1 + 1 >=? success_threshold config)%Z = true).
  { rewrite Z.geb_leb. apply Z.leb_le. lia. }
  rewrite Hc. reflexivity.
Qed.

Lemma reachable_successes b :
  reachable (T:=T) (E:=E) clock config b -> state b <> HALF_OPEN -> successes b = 0%Z.
Proof.
  induction 1 as [|b op w Hb IH|b Hb IH]; intros Hne; try reflexivity.
  destruct b as [st f s l n]. simpl in IH.
  revert Hne. unfold execute, onSuccess, onFailure, transitionTo. simpl.
  destruct st; simpl in *;
    repeat (match goal with
            | |- context [if ?c then _ else _] => destruct c eqn:?
            | |- context [op w] => destruct (op w) as [[?|?] ?]
            end; simpl in *);
    intros; try (apply IH; discriminate); try reflexivity; try congruence.
Qed.


(** C6: for a breaker the process can hold and [success_threshold >= 1]:
    in OPEN before [next_attempt_time] every [execute] throws at once and
    leaves breaker and world as they were, whatever the operation; in OPEN
    at or after [next_attempt_time] the call becomes a HALF_OPEN call and
    runs the operation; a failure in HALF_OPEN, that of the entering call
    included, gives OPEN with [next_attempt_time = now + timeout_ms],
    [now] being the clock when the operation failed; and [success_threshold]
    successes in a row, counted from the call that enters HALF_OPEN, end in
    CLOSED, the breaker staying HALF_OPEN before the last of them. *)
Theorem breaker_step_relation (b : Breaker) (w : W) :
  (1 <= success_threshold config)%Z ->
  reachable (T:=T) (E:=E) clock config b ->
  (state b = OPEN -> (clock w < next_attempt_time b)%Z ->
   forall op : W -> (T + E) * W,
     execute clock config b op w = (inr (CircuitOpenError (next_attempt_time b)), b, w)) /\
  (state b = OPEN -> (next_attempt_time b <= clock w)%Z ->
   forall op : W -> (T + E) * W,
     execute clock config b op w =
       match op w with
       | (inl r, w') => (inl r, onSuccess config (clock w') (half_open b), w')
       | (inr e, w') =>
           (inr (OperationError e), onFailure config (clock w') (half_open b), w')
       end) /\
  (state b = HALF_OPEN \/ (state b = OPEN /\ (next_attempt_time b <= clock w)%Z) ->
   forall (op : W -> (T + E) * W) e w', op w = (inr e, w') ->
     state (snd (fst (execute clock config b op w))) = OPEN /\
     next_attempt_time (snd (fst (execute clock config b op w)))
       = (clock w' + timeout_ms config)%Z) /\
  (state b = OPEN -> (next_attempt_time b <= clock w)%Z ->
   forall ops : list (W -> (T + E) * W),
     Forall succeeds ops ->
     Z.of_nat (length ops) = success_threshold config ->
     state (fst (execute_all clock config b ops w)) = CLOSED /\
     forall front back, ops = front ++ back -> front <> [] -> back <> [] ->
       state (fst (execute_all clock config b front w)) = HALF_OPEN).
Proof.
  intros Hk Hreach.
  split; [|split; [|split]].
  - intros Hs Ht op. apply open_fails_fast; assumption.
  - intros Hs Ht op. rewrite (open_probe b op w Hs Ht).
    apply half_open_runs. reflexivity.
  - intros [Hs | [Hs Ht]] op e w' Hop.
    + rewrite (half_open_failure b op w e w' Hs Hop). split; reflexivity.
    + rewrite (open_probe b op w Hs Ht).
      rewrite (half_open_failure (half_open b) op w e w' eq_refl Hop).
      split; reflexivity.
  - intros Hs Ht ops Hall Hlen.
    assert (H0 : successes b = 0%Z).
    { apply (reachable_successes b Hreach). rewrite Hs. discriminate. }
    assert (Hsame : forall l : list (W -> (T + E) * W), l <> [] ->
              execute_all clock config b l w = execute_all clock config (half_open b) l w).
    { intros [|op l] Hl; [congruence|]. cbn [execute_all].
      rewrite (open_probe b op w Hs Ht). reflexivity. }
    split.
    + rewrite Hsame by (intros ->; simpl in Hlen; lia).
      apply threshold_closes; auto.
    + intros front back -> Hf Hb. rewrite (Hsame front Hf).
      apply Forall_app in Hall as [Hfront _].
      rewrite length_app in Hlen.
      assert (0 < length back)%nat by (destruct back; [congruence | simpl; lia]).
      apply (successes_counted front (half_open b) w); auto; simpl; lia.
Qed.

End Breaker.

Lemma breaker_step_relation_witness :
  let probe_config := mkConfig 1 60000 2 in
  let tripped : Breaker :=
    snd (fst (execute (T:=unit) (E:=unit) (fun w : Z => w) probe_config new_breaker
                (fun w => (inr tt, w)) 0%Z)) in
  state tripped = OPEN /\
  execute (T:=unit) (E:=unit) (fun w : Z => w) probe_config tripped
    (fun w => (inl tt, w)) 100%Z
  = (inr (CircuitOpenError 60000), tripped, 100%Z) /\
  state (fst (execute_all (T:=unit) (E:=unit) (fun w : Z => w) probe_config tripped
                [fun w => (inl tt, (w + 1)%Z); fun w => (inl tt, (w + 1)%Z)] 60000%Z))
  = CLOSED.
Proof.
  intros probe_config tripped.
  assert (Hreach : reachable (T:=unit) (E:=unit) (fun w : Z => w) probe_config tripped)
    by (apply reach_execute, reach_new).
  destruct (breaker_step_relation (T:=unit) (E:=unit) (fun w : Z => w) probe_config
              tripped 100%Z ltac:(vm_compute; discriminate) Hreach) as (Hfast & _).
  destruct (breaker_step_relation (T:=unit) (E:=unit) (fun w : Z => w) probe_config
              tripped 60000%Z ltac:(vm_compute; discriminate) Hreach) as (_ & _ & _ & Hclose).
  split; [reflexivity|]. split.
  - apply (Hfast eq_refl). reflexivity.
  - apply (Hclose eq_refl).
    + vm_compute. discriminate.
    + repeat constructor; intros w0; eauto.
    + reflexivity.
Defined.

End BreakerFacts.

(** ** Redis client: script-cache miss *)

Module RedisFacts.
Import RedisClient.

Lemma forgetful_never_settles steps : forall srv now key capacity rate softp hardp,
  checkTokenBucket steps forgetful_client srv now key capacity rate softp hardp
    = (Pending, forgetful_client, srv).
Proof.
  induction steps as [|n IH]; intros; [reflexivity|].
  cbn [checkTokenBucket].
  change (scriptSHAs forgetful_client !! SCRIPT_NAME TokenBucketScript) with (@None string).
  cbn [JS.truthy_str negb]. unfold loadScripts. cbn [scriptsLoaded forgetful_client].
  apply IH.
Qed.

(** An error that is not a script-cache miss is surfaced: with the digest
    cached and the server unreachable, the call throws at once. *)
Lemma other_error_is_surfaced steps srv now key capacity rate softp hardp :
  reachable srv = false ->
  checkTokenBucket (S steps) loaded_client srv now key capacity rate softp hardp
    = (Thrown (mkError "Token bucket check failed"), loaded_client, srv).
Proof.
  intros Hr. cbn [checkTokenBucket].
  change (scriptSHAs loaded_client !! SCRIPT_NAME TokenBucketScript)
    with (Some (sha1 TokenBucketScript)).
  change (negb (JS.truthy_str (Some (sha1 TokenBucketScript)))) with false. cbv iota.
  unfold evalsha. rewrite Hr. reflexivity.
Qed.

(** C5 on the code: a client that has loaded its scripts meets a server
    that is up but no longer holds the token-bucket script (it restarted).
    EVALSHA answers NOSCRIPT; the catch block deletes the digest and calls
    [loadScripts], which returns at once because [scriptsLoaded] is still
    true; the nested call finds no digest, calls [loadScripts] again, and
    so on.  However many nested calls are followed, the promise has not
    settled, no SCRIPT LOAD was sent and EVALSHA was sent once: the script
    is never reloaded and the call is never retried. *)
Theorem noscript_retry_never_settles steps srv now key capacity rate softp hardp :
  reachable srv = true ->
  sha1 TokenBucketScript ∉ script_cache srv ->
  exists c' srv',
    checkTokenBucket steps loaded_client srv now key capacity rate softp hardp
      = (Pending, c', srv') /\
    script_loads srv' = script_loads srv /\
    store srv' = store srv /\
    (evalsha_calls srv' <= S (evalsha_calls srv))%nat.
Proof.
  intros Hr Hn. destruct steps as [|n].
  - exists loaded_client, srv. repeat split; auto.
  - destruct srv as [up cache st nl ne]. simpl in Hr, Hn. subst up.
    cbn [checkTokenBucket].
    change (scriptSHAs loaded_client !! SCRIPT_NAME TokenBucketScript)
      with (Some (sha1 TokenBucketScript)).
    change (negb (JS.truthy_str (Some (sha1 TokenBucketScript)))) with false. cbv iota.
    unfold evalsha. cbn [reachable script_cache store default].
    rewrite bool_decide_eq_false_2 by exact Hn.
    cbn [message].
    change (JS.includes "NOSCRIPT No matching script. Please use EVAL." "NOSCRIPT") with true.
    cbv iota. unfold loadScripts. cbn [scriptsLoaded loaded_client].
    fold forgetful_client. rewrite forgetful_never_settles.
    eexists _, _. split; [reflexivity|]. simpl. repeat split; auto.
Qed.

Lemma noscript_retry_never_settles_witness :
  let srv := restart (mkServer true {[ sha1 TokenBucketScript ]} ∅ 2 1) in
  reachable srv = true /\
  fst (fst (checkTokenBucket 1000 loaded_client srv 1700000000000 "global:bucket"
              100 1 100 110)) = Pending.
Proof.
  intros srv. split; [reflexivity|].
  destruct (noscript_retry_never_settles 1000 srv 1700000000000 "global:bucket"
              100 1 100 110) as (c' & srv' & H & _).
  - reflexivity.
  - unfold srv, restart. simpl. set_solver.
  - rewrite H. reflexivity.
Defined.

End RedisFacts.

(** ** Identity extraction *)

Module IdentityFacts.
Import Identity.



(** A token the configured decoder rejects gives no JWT identity: the
    other sources are tried. *)
Lemma rejected_token_falls_through jwt jwtConfig req authHeader :
  headers req !! headerLowerCase jwtConfig = Some authHeader ->
  decode_payload jwt jwtConfig (bearer_token authHeader) = None ->
  extractFromJWT jwt jwtConfig req = None.
Proof.
  intros Hh Hdec. unfold extractFromJWT. rewrite Hh.
  destruct (JS.truthy_str (Some authHeader)); [|reflexivity]. cbn [negb].
  change (default ""%string (Some authHeader)) with authHeader.
  destruct (String.eqb (bearer_token authHeader) ""); [reflexivity|].
  rewrite Hdec. reflexivity.
Qed.



End IdentityFacts.

(** ** Decisioner *)

Module DecisionerFacts.
Import ThrottleDecisioner.

(** Every decision built from check results takes limit, remaining and
    reset from the worst result, and the capacity it hands to
    [calculateResetTime] is that result's limit. *)
Lemma decide_from_reset Date_now results d :
  decide_from Date_now results = Some d ->
  exists worst,
    aggregateResults results = Some worst /\
    limit d = r_limit worst /\
    remaining d = r_tokens worst /\
    reset d = JS.Math_ceil
                (TokenBucketEngine.calculateResetTime Date_now (inject_Z (r_tokens worst))
                   (r_limit worst) (TokenBucketEngine.refillRatePerSec (r_policy worst)) / 1000).
Proof.
  unfold decide_from. destruct (aggregateResults results) as [worst|]; [|discriminate].
  intros H. inversion H; subst; clear H. exists worst. simpl.
  repeat split. unfold JS.Math_floor. apply Qfloor_Z.
Qed.

(** Every check result carries the rpm of its policy as limit. *)
Lemma executeSingleCheck_limit store now check :
  r_limit (snd (executeSingleCheck store now check)) = rpm (c_policy check) /\
  r_policy (snd (executeSingleCheck store now check)) = c_policy check.
Proof.
  unfold executeSingleCheck.
  destruct (Lua.TOKEN_BUCKET_LUA_SCRIPT _ _ _ _ _ _ _ _) as [store' ret].
  destruct (Lua.redis_reply ret) as [[[a s] t] u]. split; reflexivity.
Qed.

(** C4 on the code: tenant acme (rpm 10000, burst 20000), user policy rpm
    1000, burst 2000, thresholds 100/110, first request on an empty store.
    The worst scope is user_global with limit 1000 and 1999 tokens left.
    The reset epoch computed from the burst capacity is 60 ms ahead, which
    rounds up to the next second; the decision's reset is the current
    second, because the limit (rpm 1000) is passed as the capacity and
    1999 tokens count as a full bucket. *)
Theorem reset_uses_rpm_as_capacity :
  let now := 1700000000000%Z in
  let user_policy := mkPolicy 1000 (1000 / 60) 2000 None in
  let tenantPolicy :=
    mkTenantPolicy "acme"
      (mkPolicies (Some user_policy) (mkPolicy 10000 (10000 / 60) 20000 None)
         None None (mkThrottle (Some 100%Q) 110)) in
  let globalPolicy := mkGlobalPolicy (mkPolicy 100000 (100000 / 60) 200000 None) None in
  let identity := mkIdentity "acme" "alice" "/api/search" None in
  exists d,
    snd (performHierarchicalCheck ∅ now tenantPolicy globalPolicy None identity) = Some d /\
    scope d = user_global /\ limit d = rpm user_policy /\ remaining d = 1999%Z /\
    reset d = 1700000000%Z /\
    reset_epoch_s now (inject_Z (remaining d)) (burst_capacity user_policy)
      (TokenBucketEngine.refillRatePerSec user_policy) = 1700000001%Z /\
    reset d = calculateReset now (inject_Z (remaining d)) (rpm user_policy)
                (TokenBucketEngine.refillRatePerSec user_policy).
Proof.
  intros now user_policy tenantPolicy globalPolicy identity.
  eexists. split; [vm_compute; reflexivity|].
  vm_compute. repeat split; reflexivity.
Qed.

End DecisionerFacts.

(** ** Abuse detector *)

Module AbuseFacts.
Import AbuseDetectionJob.

Lemma custom_limit_without_values o tp up :
  override_type o = OT_custom_limit ->
  custom_rate o = None ->
  OverrideManager.applyOverride o tp up = OverrideManager.mkApplied tp up false.
Proof.
  intros Hty Hrate. unfold OverrideManager.applyOverride. rewrite Hty, Hrate. reflexivity.
Qed.

(** A decision under an override that changes no policy is the decision
    without the override. *)
Lemma unchanged_policies_same_decision store now tenantPolicy globalPolicy o identity :
  OverrideManager.applyOverride o
    (ThrottleDecisioner.tenant (ThrottleDecisioner.policies tenantPolicy))
    (ThrottleDecisioner.user (ThrottleDecisioner.policies tenantPolicy))
  = OverrideManager.mkApplied
      (ThrottleDecisioner.tenant (ThrottleDecisioner.policies tenantPolicy))
      (ThrottleDecisioner.user (ThrottleDecisioner.policies tenantPolicy)) false ->
  ThrottleDecisioner.performHierarchicalCheck store now tenantPolicy globalPolicy
    (Some o) identity
  = ThrottleDecisioner.performHierarchicalCheck store now tenantPolicy globalPolicy
      None identity.
Proof.
  intros H. unfold ThrottleDecisioner.performHierarchicalCheck. rewrite H.
  cbn [OverrideManager.banned OverrideManager.userPolicy OverrideManager.tenantPolicy].
  destruct tenantPolicy as [tid [u t ue te tc]]. simpl.
  destruct u; reflexivity.
Qed.

(** C10: with penalty type 'fixed', the override [penalizeTenant] stores
    for a tenant without an active override has type custom_limit and
    neither custom_rate nor custom_burst; [applyOverride] returns the
    tenant and user policies it was given, not banned, and the decision
    for a request is the one taken without the override. *)
Theorem fixed_penalty_changes_nothing config now cache docs tenant_id rate reason_text :
  penaltyType config = fixed ->
  OverrideManager.hasActiveOverride (Some docs) now tenant_id = false ->
  exists o cache' severity,
    penalizeTenant config now cache (Some docs) tenant_id rate reason_text
      = (Some (docs ++ [o]), cache', Some severity) /\
    o_tenant_id o = tenant_id /\
    source o = auto_detector /\
    override_type o = OT_custom_limit /\
    custom_rate o = None /\ custom_burst o = None /\ penalty_multiplier o = None /\
    (forall tp up,
       OverrideManager.applyOverride o tp up = OverrideManager.mkApplied tp up false) /\
    (forall store t tenantPolicy globalPolicy identity,
       ThrottleDecisioner.performHierarchicalCheck store t tenantPolicy globalPolicy
         (Some o) identity
       = ThrottleDecisioner.performHierarchicalCheck store t tenantPolicy globalPolicy
           None identity).
Proof.
  intros Hfixed Hnone. unfold penalizeTenant. rewrite Hnone.
  unfold OverrideManager.createOverride, penalty_override. rewrite Hfixed. simpl.
  eexists _, _, _. split; [reflexivity|]. simpl.
  repeat split.
  intros store t tenantPolicy globalPolicy identity.
  apply unchanged_policies_same_decision. apply custom_limit_without_values; reflexivity.
Qed.

Lemma fixed_penalty_changes_nothing_witness :
  let config := mkAbuseConfig true 60000 (8 # 10) 5 300000 fixed (1 # 10) in
  let o := mkOverride "acme" None None OT_custom_limit None None None
             "Automatic abuse detection" auto_detector 1000 301000 in
  penaltyType config = fixed /\
  fst (fst (penalizeTenant config 1000 ∅ (Some []) "acme" (9 # 10)
              "Automatic abuse detection")) = Some [o] /\
  OverrideManager.applyOverride o (mkPolicy 10000 (10000 # 60) 20000 None) None
    = OverrideManager.mkApplied (mkPolicy 10000 (10000 # 60) 20000 None) None false.
Proof.
  intros config o.
  destruct (fixed_penalty_changes_nothing config 1000 ∅ [] "acme" (9 # 10)
              "Automatic abuse detection" eq_refl eq_refl)
    as (o' & cache' & sev & Hp & _ & _ & _ & _ & _ & _ & Happ & _).
  assert (Ho : o' = o).
  { vm_compute in Hp. inversion Hp. reflexivity. }
  subst o'. split; [reflexivity|]. split; [reflexivity|]. apply Happ.
Defined.

End AbuseFacts.

(** ** More on the token-bucket primitive *)

Module LuaMoreFacts.
Import Lua LuaFacts Terms.

(** The return value and the entry written are read off the entry of
    the key alone. *)
Lemma script_return_local store1 store2 key capacity rate now softp hardp ttl :
  store1 !! key = store2 !! key ->
  snd (TOKEN_BUCKET_LUA_SCRIPT store1 key capacity rate now softp hardp ttl)
  = snd (TOKEN_BUCKET_LUA_SCRIPT store2 key capacity rate now softp hardp ttl) /\
  fst (TOKEN_BUCKET_LUA_SCRIPT store1 key capacity rate now softp hardp ttl) !! key
  = fst (TOKEN_BUCKET_LUA_SCRIPT store2 key capacity rate now softp hardp ttl) !! key.
Proof.
  intros H. unfold TOKEN_BUCKET_LUA_SCRIPT, HMGET. rewrite H.
  destruct (refill _ _ _ _) as [t l].
  destruct (classify _ _ _) as [st al].
  destruct (allowed (consume _ _ _ _) =? 1)%Z; simpl.
  - split; [reflexivity|]. rewrite !lookup_insert_eq. reflexivity.
  - split; [reflexivity | exact H].
Qed.

Lemma script_other_key store key key' capacity rate now softp hardp ttl :
  key <> key' ->
  fst (TOKEN_BUCKET_LUA_SCRIPT store key capacity rate now softp hardp ttl) !! key'
  = store !! key'.
Proof.
  intros Hne.
  pose proof (script_run store key capacity rate now softp hardp ttl) as R.
  destruct R; try reflexivity. apply lookup_insert_ne. exact Hne.
Qed.

Lemma script_allowed_state store key capacity rate now softp hardp ttl :
  let ret := snd (TOKEN_BUCKET_LUA_SCRIPT store key capacity rate now softp hardp ttl) in
  (allowed ret = 1%Z /\ (state ret = 0%Z \/ state ret = 1%Z)) \/
  (allowed ret = 0%Z /\ state ret = 2%Z).
Proof.
  pose proof (script_run store key capacity rate now softp hardp ttl) as R.
  destruct R as [t l Hr Hu | t l Hr Hu Hu' | t l st Hr Hu Hu' Hst]; simpl; auto.
Qed.

(** X1: invocations on two different keys do not interfere.  Whichever
    of the two runs first, each returns what it returns when run alone on
    the initial store, and the final store is the same. *)
Theorem disjoint_keys_independent store k1 k2 c1 r1 s1 h1 c2 r2 s2 h2 now1 now2 ttl :
  k1 <> k2 ->
  let a1 := TOKEN_BUCKET_LUA_SCRIPT store k1 c1 r1 now1 s1 h1 ttl in
  let a12 := TOKEN_BUCKET_LUA_SCRIPT (fst a1) k2 c2 r2 now2 s2 h2 ttl in
  let b2 := TOKEN_BUCKET_LUA_SCRIPT store k2 c2 r2 now2 s2 h2 ttl in
  let b21 := TOKEN_BUCKET_LUA_SCRIPT (fst b2) k1 c1 r1 now1 s1 h1 ttl in
  snd a12 = snd b2 /\ snd b21 = snd a1 /\ fst a12 = fst b21.
Proof.
  intros Hne a1 a12 b2 b21.
  assert (E2 : fst a1 !! k2 = store !! k2) by (apply script_other_key; exact Hne).
  assert (E1 : fst b2 !! k1 = store !! k1) by (apply script_other_key; congruence).
  destruct (script_return_local _ _ k2 c2 r2 now2 s2 h2 ttl E2) as [R2 L2].
  destruct (script_return_local _ _ k1 c1 r1 now1 s1 h1 ttl E1) as [R1 L1].
  split; [exact R2|]. split; [exact R1|].
  apply map_eq. intros k.
  destruct (decide (k = k2)) as [->|N2].
  - unfold a12. rewrite L2. unfold b21.
    rewrite (script_other_key (fst b2) k1 k2) by exact Hne. reflexivity.
  - unfold a12. rewrite (script_other_key (fst a1) k2 k) by congruence.
    destruct (decide (k = k1)) as [->|N1].
    + unfold b21. rewrite L1. reflexivity.
    + unfold b21. rewrite (script_other_key (fst b2) k1 k) by congruence.
      unfold a1, b2. rewrite !script_other_key by congruence. reflexivity.
Qed.

Lemma disjoint_keys_independent_witness :
  let a1 := TOKEN_BUCKET_LUA_SCRIPT ∅ "a" 10 1 1000 80 100 None in
  let a12 := TOKEN_BUCKET_LUA_SCRIPT (fst a1) "b" 5 2 2000 80 100 None in
  let b2 := TOKEN_BUCKET_LUA_SCRIPT ∅ "b" 5 2 2000 80 100 None in
  let b21 := TOKEN_BUCKET_LUA_SCRIPT (fst b2) "a" 10 1 1000 80 100 None in
  snd a12 = snd b2 /\ snd b21 = snd a1 /\ fst a12 = fst b21.
Proof.
  apply (disjoint_keys_independent ∅ "a"%string "b"%string 10 1 80 100 5 2 80 100
           1000%Z 2000%Z None).
  discriminate.
Defined.

(** X3: with the soft threshold at or above the hard threshold there is
    no soft state: every return is normal or hard. *)
Theorem no_soft_zone store key capacity rate now softp hardp ttl :
  hardp <= softp ->
  state (snd (TOKEN_BUCKET_LUA_SCRIPT store key capacity rate now softp hardp ttl)) <> 1%Z.
Proof.
  intros Hsh. unfold TOKEN_BUCKET_LUA_SCRIPT.
  destruct (refill _ _ _ _) as [t l]. unfold classify.
  destruct (Qge_bool (usage_of capacity t) hardp) eqn:H1; [simpl; discriminate|].
  apply Qge_bool_false in H1.
  assert (S1 : Qge_bool (usage_of capacity t) softp = false) by (apply Qge_bool_false; lra).
  rewrite S1. unfold consume. simpl.
  destruct (Qge_bool (usage_of capacity (t - 1)) hardp) eqn:H2; [simpl; discriminate|].
  apply Qge_bool_false in H2.
  assert (S2 : Qge_bool (usage_of capacity (t - 1)) softp = false) by (apply Qge_bool_false; lra).
  rewrite S2. simpl. discriminate.
Qed.

Lemma no_soft_zone_witness :
  state (snd (TOKEN_BUCKET_LUA_SCRIPT ∅ "a" 10 1 1000 110 110 None)) <> 1%Z.
Proof.
  apply (no_soft_zone ∅ "a"%string 10 1 1000%Z 110 110 None).
  unfold Qle. simpl. lia.
Defined.

End LuaMoreFacts.

(** ** More on the decisioner: the batch of checks and the decision *)

Module BatchFacts.
Import ThrottleDecisioner Terms.

Lemma string_app_inv_head (p a b : string) : (p ++ a = p ++ b)%string -> a = b.
Proof.
  induction p as [|c p IH]; simpl; intros H; [exact H|].
  injection H as H. apply IH. exact H.
Qed.

Ltac key_neq H :=
  repeat (simpl in H;
          first [ discriminate H
                | apply string_app_inv_head in H
                | injection H as H ]).

Ltac nodup_keys :=
  repeat (apply List.NoDup_cons; [simpl; intros H;
    repeat (destruct H as [H|H]; [solve [key_neq H] |]); exact H |]);
  apply List.NoDup_nil.

(** The check list: the tenant and the system check, and up to four
    more, in the order user, user endpoint, tenant, tenant endpoint,
    global endpoint, system. *)
Lemma buildChecks_shape tenantPolicy globalPolicy identity :
  exists o1 o2 o4 o5 : list Check,
    buildChecks tenantPolicy globalPolicy identity
    = o1 ++ o2 ++
      [mkCheck tenant_global ("{tenant:" ++ tenant_id identity ++ "}:bucket")%string
         (tenant (policies tenantPolicy))
         (default (hard_threshold_pct (throttle_config (policies tenantPolicy)))
                  (soft_threshold_pct (throttle_config (policies tenantPolicy))))
         (hard_threshold_pct (throttle_config (policies tenantPolicy)))] ++
      o4 ++ o5 ++ [mkCheck global_system "global:bucket" (global globalPolicy) 100 110] /\
    (o1 = [] \/ exists p s h, o1 = [mkCheck user_global
        ("{tenant:" ++ tenant_id identity ++ "}:user:" ++ user_id identity ++ ":bucket")%string
        p s h]) /\
    (o2 = [] \/ exists p s h, o2 = [mkCheck user_endpoint
        ("{tenant:" ++ tenant_id identity ++ "}:user:" ++ user_id identity ++ ":endpoint:" ++
         normalizeEndpoint (endpoint identity) ++ ":bucket")%string p s h]) /\
    (o4 = [] \/ exists p s h, o4 = [mkCheck tenant_endpoint
        ("{tenant:" ++ tenant_id identity ++ "}:endpoint:" ++
         normalizeEndpoint (endpoint identity) ++ ":bucket")%string p s h]) /\
    (o5 = [] \/ exists p s h, o5 = [mkCheck global_endpoint
        ("global:endpoint:" ++ normalizeEndpoint (endpoint identity) ++ ":bucket")%string
        p s h]).
Proof.
  unfold buildChecks.
  eexists _, _, _, _. split; [reflexivity|].
  split; [|split; [|split]].
  - destruct (user (policies tenantPolicy)); [right; eauto | left; reflexivity].
  - destruct (match user_endpoints (policies tenantPolicy) with
              | Some _ => _ | None => _ end); [right; eauto | left; reflexivity].
  - destruct (match tenant_endpoints (policies tenantPolicy) with
              | Some _ => _ | None => _ end); [right; eauto | left; reflexivity].
  - destruct (match endpoints globalPolicy with
              | Some _ => _ | None => _ end); [right; eauto | left; reflexivity].
Qed.

Lemma buildChecks_NoDup tenantPolicy globalPolicy identity :
  List.NoDup (map c_key (buildChecks tenantPolicy globalPolicy identity)).
Proof.
  destruct (buildChecks_shape tenantPolicy globalPolicy identity)
    as (o1 & o2 & o4 & o5 & -> & H1 & H2 & H4 & H5).
  set (T := tenant_id identity) in *. set (U := user_id identity) in *.
  set (E := normalizeEndpoint (endpoint identity)) in *. clearbody T U E.
  destruct H1 as [->|(? & ? & ? & ->)]; destruct H2 as [->|(? & ? & ? & ->)];
  destruct H4 as [->|(? & ? & ? & ->)]; destruct H5 as [->|(? & ? & ? & ->)];
  cbn [app map c_key]; nodup_keys.
Qed.

Lemma prefix_empty s : String.prefix "" s = true.
Proof. destruct s; reflexivity. Qed.

Lemma buildChecks_prefixes tenantPolicy globalPolicy identity :
  Forall (fun c => JS.startsWith (c_key c) "global:" = negb (tenant_scoped c))
         (buildChecks tenantPolicy globalPolicy identity).
Proof.
  destruct (buildChecks_shape tenantPolicy globalPolicy identity)
    as (o1 & o2 & o4 & o5 & -> & H1 & H2 & H4 & H5).
  set (T := tenant_id identity) in *. set (U := user_id identity) in *.
  set (E := normalizeEndpoint (endpoint identity)) in *. clearbody T U E.
  destruct H1 as [->|(? & ? & ? & ->)]; destruct H2 as [->|(? & ? & ? & ->)];
  destruct H4 as [->|(? & ? & ? & ->)]; destruct H5 as [->|(? & ? & ? & ->)];
  cbn [app];
  repeat (apply List.Forall_cons;
          [cbv [tenant_scoped JS.startsWith c_key]; simpl;
           rewrite ?prefix_empty; reflexivity|]);
  apply List.Forall_nil.
Qed.

Lemma buildChecks_nonempty tp gp identity : buildChecks tp gp identity <> [].
Proof.
  destruct (buildChecks_shape tp gp identity) as (o1 & o2 & o4 & o5 & -> & _).
  destruct o1; [|discriminate]. destruct o2; discriminate.
Qed.

Lemma executeSingleCheck_local store1 store2 now c :
  store1 !! c_key c = store2 !! c_key c ->
  snd (executeSingleCheck store1 now c) = snd (executeSingleCheck store2 now c) /\
  fst (executeSingleCheck store1 now c) !! c_key c
  = fst (executeSingleCheck store2 now c) !! c_key c.
Proof.
  intros H. unfold executeSingleCheck.
  destruct (LuaMoreFacts.script_return_local store1 store2 (c_key c)
              (burst_capacity (c_policy c))
              (TokenBucketEngine.refillRatePerSec (c_policy c)) now (softPct c) (hardPct c)
              (Some 3600%Z) H) as [R L].
  destruct (Lua.TOKEN_BUCKET_LUA_SCRIPT store1 _ _ _ _ _ _ _) as [s1 r1].
  destruct (Lua.TOKEN_BUCKET_LUA_SCRIPT store2 _ _ _ _ _ _ _) as [s2 r2].
  simpl in R, L. subst r2.
  destruct (Lua.redis_reply r1) as [[[a s] t] u]. simpl. split; [reflexivity | exact L].
Qed.

Lemma executeSingleCheck_other store now c k :
  c_key c <> k -> fst (executeSingleCheck store now c) !! k = store !! k.
Proof.
  intros H. unfold executeSingleCheck.
  pose proof (LuaMoreFacts.script_other_key store (c_key c) k (burst_capacity (c_policy c))
              (TokenBucketEngine.refillRatePerSec (c_policy c)) now (softPct c) (hardPct c)
              (Some 3600%Z) H) as O.
  destruct (Lua.TOKEN_BUCKET_LUA_SCRIPT store _ _ _ _ _ _ _) as [s1 r1].
  destruct (Lua.redis_reply r1) as [[[a s] t] u]. exact O.
Qed.

Lemma executeChecks_other now checks : forall store k,
  ~ In k (map c_key checks) -> fst (executeChecks store now checks) !! k = store !! k.
Proof.
  induction checks as [|c rest IH]; intros store k Hk; [reflexivity|].
  simpl in *.
  pose proof (executeSingleCheck_other store now c k) as O.
  destruct (executeSingleCheck store now c) as [s1 r].
  specialize (IH s1 k).
  destruct (executeChecks s1 now rest) as [s2 rs]. simpl in *.
  rewrite IH by tauto. apply O. tauto.
Qed.

Lemma executeChecks_independent now checks : forall store store0,
  List.NoDup (map c_key checks) ->
  (forall c, In c checks -> store !! c_key c = store0 !! c_key c) ->
  snd (executeChecks store now checks)
  = map (fun c => snd (executeSingleCheck store0 now c)) checks /\
  (forall c, In c checks ->
     fst (executeChecks store now checks) !! c_key c
     = fst (executeSingleCheck store0 now c) !! c_key c).
Proof.
  induction checks as [|c rest IH]; intros store store0 ND Hag;
    [split; [reflexivity | intros ? []]|].
  simpl in ND. apply List.NoDup_cons_iff in ND. destruct ND as [Hnin ND].
  destruct (executeSingleCheck_local store store0 now c (Hag c (or_introl eq_refl))) as [R L].
  pose proof (fun k => executeSingleCheck_other store now c k) as O.
  pose proof (executeChecks_other now rest (fst (executeSingleCheck store now c)) (c_key c) Hnin)
    as Ok.
  simpl.
  destruct (executeSingleCheck store now c) as [s1 r]. simpl in R, L, O, Ok.
  destruct (IH s1 store0 ND) as [IR IS].
  { intros c' Hin. rewrite O; [apply Hag; right; exact Hin|].
    intros E. apply Hnin. rewrite E. apply in_map. exact Hin. }
  destruct (executeChecks s1 now rest) as [s2 rs]. simpl in *.
  split; [rewrite R, IR; reflexivity|].
  intros c' [<-|Hin]; [rewrite Ok; exact L | apply IS; exact Hin].
Qed.

Lemma NoDup_map_filter {A B} (f : A -> B) (p : A -> bool) l :
  List.NoDup (map f l) -> List.NoDup (map f (List.filter p l)).
Proof.
  induction l as [|a l IH]; simpl; intros H; [exact H|].
  apply List.NoDup_cons_iff in H. destruct H as [Hn H].
  destruct (p a); simpl; [|apply IH; exact H].
  apply List.NoDup_cons; [|apply IH; exact H].
  intros Hin. apply Hn. apply in_map_iff in Hin. destruct Hin as (x & <- & Hx).
  apply filter_In in Hx. apply in_map. tauto.
Qed.

Lemma mergeResults_map (f : Check -> CheckResult) checks :
  Forall (fun c => JS.startsWith (c_key c) "global:" = negb (tenant_scoped c)) checks ->
  mergeResults checks
    (map f (List.filter (fun c => JS.startsWith (c_key c) "{tenant:") checks))
    (map f (List.filter (fun c => JS.startsWith (c_key c) "global:") checks))
  = map (fun c => Some (f c)) checks.
Proof.
  induction checks as [|c rest IH]; intros HF; [reflexivity|].
  apply List.Forall_cons_iff in HF. destruct HF as [Hc HF].
  unfold tenant_scoped in Hc. simpl. rewrite Hc.
  destruct (JS.startsWith (c_key c) "{tenant:"); simpl; rewrite IH by exact HF; reflexivity.
Qed.

(** On checks with pairwise different keys, each either tenant-scoped
    or global, the two batches and the merge give every check the result
    it has alone on the initial store. *)
Lemma executeBatchChecks_independent store now checks :
  List.NoDup (map c_key checks) ->
  Forall (fun c => JS.startsWith (c_key c) "global:" = negb (tenant_scoped c)) checks ->
  snd (executeBatchChecks store now checks)
  = map (fun c => Some (snd (executeSingleCheck store now c))) checks /\
  (forall c, In c checks ->
     fst (executeBatchChecks store now checks) !! c_key c
     = fst (executeSingleCheck store now c) !! c_key c) /\
  (forall k, ~ In k (map c_key checks) ->
     fst (executeBatchChecks store now checks) !! k = store !! k).
Proof.
  intros ND HF. unfold executeBatchChecks.
  set (tc := List.filter (fun c => JS.startsWith (c_key c) "{tenant:") checks).
  set (gc := List.filter (fun c => JS.startsWith (c_key c) "global:") checks).
  assert (NDt : List.NoDup (map c_key tc)) by (apply NoDup_map_filter; exact ND).
  assert (NDg : List.NoDup (map c_key gc)) by (apply NoDup_map_filter; exact ND).
  destruct (executeChecks_independent now tc store store NDt (fun _ _ => eq_refl)) as [Rt St].
  pose proof (executeChecks_other now tc store) as Ot.
  destruct (executeChecks store now tc) as [s1 tr]. simpl in Rt, St, Ot.
  assert (Hsep : forall c, In c gc -> ~ In (c_key c) (map c_key tc)).
  { intros c Hc Hin. apply filter_In in Hc. destruct Hc as [Hc Hg].
    apply in_map_iff in Hin. destruct Hin as (c' & E & Hc').
    apply filter_In in Hc'. destruct Hc' as [Hc' Ht].
    rewrite List.Forall_forall in HF. specialize (HF c Hc).
    unfold tenant_scoped in HF. simpl in Hg, Ht. rewrite Hg, <- E, Ht in HF. discriminate. }
  destruct (executeChecks_independent now gc s1 store NDg) as [Rg Sg].
  { intros c Hc. apply Ot. apply Hsep. exact Hc. }
  pose proof (executeChecks_other now gc s1) as Og.
  destruct (executeChecks s1 now gc) as [s2 gr]. simpl in Rg, Sg, Og |- *.
  split; [|split].
  - rewrite Rt, Rg. apply mergeResults_map. exact HF.
  - intros c Hc. pose proof HF as HF'. rewrite List.Forall_forall in HF'. specialize (HF' c Hc).
    unfold tenant_scoped in HF'.
    destruct (JS.startsWith (c_key c) "{tenant:") eqn:Ht; simpl in HF'.
    + assert (Hct : In c tc) by (apply filter_In; split; [exact Hc | exact Ht]).
      rewrite Og; [apply St; exact Hct|].
      intros Hin. apply in_map_iff in Hin. destruct Hin as (c' & E & Hc').
      apply (Hsep c' Hc'). rewrite E. apply in_map. exact Hct.
    + apply Sg. apply filter_In. split; [exact Hc | exact HF'].
  - intros k Hk. rewrite Og, Ot; [reflexivity| |].
    + intros Hin. apply Hk. apply in_map_iff in Hin. destruct Hin as (c' & E & Hc').
      apply filter_In in Hc'. rewrite <- E. apply in_map. tauto.
    + intros Hin. apply Hk. apply in_map_iff in Hin. destruct Hin as (c' & E & Hc').
      apply filter_In in Hc'. rewrite <- E. apply in_map. tauto.
Qed.

(** The reduction keeps the first result of the highest priority: the
    accumulator splits what has been seen into a part that ranks lower
    before it and a part that ranks no higher after it. *)
Lemma fold_worst_split (rest : list CheckResult) : forall l1 w l2,
  (forall r, In r l1 -> (statePriority (r_state r) < statePriority (r_state w))%Z) ->
  (forall r, In r l2 -> (statePriority (r_state r) <= statePriority (r_state w))%Z) ->
  exists l1' l2', l1 ++ w :: l2 ++ rest = l1' ++ fold_left pick_worse rest w :: l2' /\
    (forall r, In r l1' ->
       (statePriority (r_state r) < statePriority (r_state (fold_left pick_worse rest w)))%Z) /\
    (forall r, In r l2' ->
       (statePriority (r_state r) <= statePriority (r_state (fold_left pick_worse rest w)))%Z).
Proof.
  induction rest as [|x rest IH]; intros l1 w l2 H1 H2.
  - exists l1, l2. rewrite app_nil_r. simpl. auto.
  - cbn [fold_left]. unfold pick_worse at 2 4 6.
    destruct (statePriority (r_state x) >? statePriority (r_state w))%Z eqn:E.
    + apply Z.gtb_lt in E.
      destruct (IH (l1 ++ w :: l2) x []) as (l1' & l2' & Heq & A & B).
      * intros r Hr. apply in_app_iff in Hr as [Hr|[<-|Hr]].
        -- specialize (H1 r Hr). lia.
        -- lia.
        -- specialize (H2 r Hr). lia.
      * intros r [].
      * exists l1', l2'. split; [|auto].
        rewrite <- Heq. simpl. rewrite <- app_assoc. reflexivity.
    + assert (E' : (statePriority (r_state x) <= statePriority (r_state w))%Z).
      { destruct (Z.gtb_spec (statePriority (r_state x)) (statePriority (r_state w)));
          [discriminate | lia]. }
      destruct (IH l1 w (l2 ++ [x])) as (l1' & l2' & Heq & A & B).
      * exact H1.
      * intros r Hr. apply in_app_iff in Hr as [Hr|[<-|[]]]; [apply H2; exact Hr | exact E'].
      * exists l1', l2'. split; [|auto].
        rewrite <- Heq. rewrite <- app_assoc. reflexivity.
Qed.

(** The result of the reduction is in the list and nothing outranks it. *)
Lemma aggregate_max results :
  match aggregateResults results with
  | None => results = []
  | Some w =>
      In w results /\
      forall r, In r results -> (statePriority (r_state r) <= statePriority (r_state w))%Z
  end.
Proof.
  unfold aggregateResults. destruct results as [|first rest]; [reflexivity|].
  fold pick_worse.
  destruct (fold_worst_split rest [] first []) as (l1 & l2 & Heq & A & B);
    [intros r [] | intros r [] |].
  simpl in Heq. rewrite Heq. split.
  - apply in_app_iff. right. left. reflexivity.
  - intros r Hr. apply in_app_iff in Hr as [Hr|[<-|Hr]];
      [specialize (A r Hr); lia | lia | apply B; exact Hr].
Qed.

Lemma single_allowed_state store now c :
  let r := snd (executeSingleCheck store now c) in
  (r_allowed r = true /\ r_state r <> hard) \/ (r_allowed r = false /\ r_state r = hard).
Proof.
  unfold executeSingleCheck.
  pose proof (LuaMoreFacts.script_allowed_state store (c_key c) (burst_capacity (c_policy c))
    (TokenBucketEngine.refillRatePerSec (c_policy c)) now (softPct c) (hardPct c)
    (Some 3600%Z)) as H.
  destruct (Lua.TOKEN_BUCKET_LUA_SCRIPT store _ _ _ _ _ _ _) as [s1 r1].
  unfold Lua.redis_reply. simpl in *.
  destruct H as [[-> [->| ->]]|[-> ->]]; simpl; [left|left|right]; split; congruence.
Qed.

Lemma mapM_id_Some {A B} (f : A -> B) l :
  mapM id (map (fun c => Some (f c)) l) = Some (map f l).
Proof.
  induction l as [|a l IH]; [reflexivity|].
  simpl. rewrite IH. reflexivity.
Qed.

(** X7: [aggregateResults] is undefined only on an empty list;
    otherwise it returns an element of the list that no element
    outranks, and the first such: everything before it ranks strictly
    lower, everything after it ranks at most as high. *)
Theorem aggregate_first_worst results :
  match aggregateResults results with
  | None => results = []
  | Some w =>
      exists l1 l2, results = l1 ++ w :: l2 /\
        (forall r, In r l1 -> (statePriority (r_state r) < statePriority (r_state w))%Z) /\
        (forall r, In r l2 -> (statePriority (r_state r) <= statePriority (r_state w))%Z)
  end.
Proof.
  unfold aggregateResults. destruct results as [|first rest]; [reflexivity|].
  fold pick_worse.
  destruct (fold_worst_split rest [] first []) as (l1 & l2 & Heq & A & B).
  - intros r [].
  - intros r [].
  - exists l1, l2. simpl in Heq. split; [exact Heq|]. split; [exact A | exact B].
Qed.

(** X8: on the check list of a request, the batched evaluation gives
    one result per check, in the order of the checks and none missing,
    and each is the result the check has alone on the initial store; the
    bucket of each check ends as that check alone leaves it, and no other
    key is touched.  So a check that denies does not stop the others
    from consuming their token. *)
Theorem batch_checks_independent store now tp gp identity :
  let checks := buildChecks tp gp identity in
  let batch := executeBatchChecks store now checks in
  snd batch = map (fun c => Some (snd (executeSingleCheck store now c))) checks /\
  (forall c, In c checks ->
     fst batch !! c_key c = fst (executeSingleCheck store now c) !! c_key c) /\
  (forall k, ~ In k (map c_key checks) -> fst batch !! k = store !! k).
Proof.
  apply executeBatchChecks_independent;
    [apply buildChecks_NoDup | apply buildChecks_prefixes].
Qed.

(** X9: without an override, the hierarchical check always yields a
    decision, and the request is allowed exactly when every check of its
    list allows it on the initial store; it is denied exactly in state
    hard, a retry hint is given exactly on denial, and the debug list has
    one entry per check, in order. *)
Theorem request_allowed_iff_every_bucket_allows store now tp gp identity :
  exists d,
    snd (performHierarchicalCheck store now tp gp None identity) = Some d /\
    (allowed d = true <->
       forall c, In c (buildChecks tp gp identity) ->
                 r_allowed (snd (executeSingleCheck store now c)) = true) /\
    (allowed d = false <-> state d = hard) /\
    (allowed d = false <-> exists s, retry_after d = Some s) /\
    debug d = map (fun c => let r := snd (executeSingleCheck store now c) in
                            (c_scope c, r_tokens r, r_usage_pct r))
                  (buildChecks tp gp identity).
Proof.
  unfold performHierarchicalCheck.
  destruct (executeBatchChecks_independent store now (buildChecks tp gp identity)
              (buildChecks_NoDup tp gp identity) (buildChecks_prefixes tp gp identity))
    as (R & _ & _).
  destruct (executeBatchChecks store now (buildChecks tp gp identity)) as [s' results].
  simpl in R. subst results. rewrite mapM_id_Some.
  set (f := fun c => snd (executeSingleCheck store now c)).
  unfold decide_from. pose proof (aggregate_max (map f (buildChecks tp gp identity))) as A.
  destruct (aggregateResults (map f (buildChecks tp gp identity))) as [w|].
  2:{ apply map_eq_nil in A. destruct (buildChecks_nonempty _ _ _ A). }
  destruct A as [Hin Hmax].
  eexists. split; [reflexivity|]. cbn [allowed state retry_after debug snd].
  split; [|split; [|split]].
  - split.
    + intros Hw c Hc.
      destruct (single_allowed_state store now c) as [[Ha _]|[_ Hh]]; [exact Ha|].
      fold (f c) in Hh.
      assert (Hp : (statePriority (r_state (f c)) <= statePriority (r_state w))%Z)
        by (apply Hmax; apply in_map; exact Hc).
      rewrite Hh in Hp. simpl in Hp.
      destruct (r_state w); simpl in Hp; try lia; discriminate.
    + intros Hall.
      apply in_map_iff in Hin. destruct Hin as (c & <- & Hc).
      specialize (Hall c Hc).
      destruct (single_allowed_state store now c) as [[_ Hn]|[Ha _]].
      * fold (f c) in Hn. destruct (r_state (f c)); congruence.
      * unfold f. congruence.
  - destruct (r_state w); split; congruence.
  - destruct (r_state w); split; intros H; try discriminate; try (destruct H; discriminate);
      eauto.
  - rewrite map_map. apply map_ext. intros c. unfold f, executeSingleCheck.
    destruct (Lua.TOKEN_BUCKET_LUA_SCRIPT store _ _ _ _ _ _ _) as [s1 r1].
    reflexivity.
Qed.

(** X10: under an unexpired temporary ban the request is denied at once:
    hard, at tenant scope, nothing remaining, no check performed and the
    store untouched, with a retry hint of at least one second that is the
    time to the ban's expiry rounded up to whole seconds. *)
Theorem banned_tenant_short_circuit store now tp gp o identity :
  override_type o = OT_temporary_ban ->
  (now < expires_at o)%Z ->
  exists d,
    performHierarchicalCheck store now tp gp (Some o) identity = (store, Some d) /\
    allowed d = false /\ state d = hard /\ scope d = tenant_global /\
    remaining d = 0%Z /\ debug d = [] /\
    exists s, retry_after d = Some s /\ (1 <= s)%Z /\
      (expires_at o - now <= 1000 * s < expires_at o - now + 1000)%Z.
Proof.
  intros Ht Hlt. unfold performHierarchicalCheck, OverrideManager.applyOverride.
  rewrite Ht. cbn [OverrideManager.banned].
  eexists. split; [reflexivity|]. cbn.
  repeat (split; [reflexivity|]).
  eexists. split; [reflexivity|].
  unfold JS.Math_ceil.
  set (q := inject_Z (expires_at o - now) / 1000).
  pose proof (Qle_ceiling q) as Hc. pose proof (Qceiling_lt q) as Hc'.
  assert (Hq : q * 1000 == inject_Z (expires_at o - now)) by (unfold q; field).
  assert (A : inject_Z (expires_at o - now) <= inject_Z (1000 * Qceiling q)).
  { rewrite inject_Z_mult. change (inject_Z 1000) with 1000. lra. }
  assert (B : inject_Z (1000 * Qceiling q) < inject_Z (expires_at o - now + 1000)).
  { rewrite inject_Z_mult, inject_Z_plus. change (inject_Z 1000) with 1000.
    unfold Z.sub in Hc'. rewrite inject_Z_plus in Hc'.
    change (inject_Z (- (1))) with (-1 # 1) in Hc'. lra. }
  rewrite <- Zle_Qle in A. rewrite <- Zlt_Qlt in B. lia.
Qed.

Lemma banned_tenant_short_circuit_witness :
  let o := mkOverride "acme" None None OT_temporary_ban None None None
             "manual" manual_operator 0 61500 in
  let tp := mkTenantPolicy "acme"
              (mkPolicies None (mkPolicy 60 1 10 None) None None (mkThrottle None 100)) in
  let gp := mkGlobalPolicy (mkPolicy 600 10 100 None) None in
  let identity := mkIdentity "acme" "alice" "/api" None in
  exists d,
    performHierarchicalCheck ∅ 1000 tp gp (Some o) identity = (∅, Some d) /\
    allowed d = false /\ state d = hard /\ scope d = tenant_global /\
    remaining d = 0%Z /\ debug d = [] /\
    exists s, retry_after d = Some s /\ (1 <= s)%Z /\
      (61500 - 1000 <= 1000 * s < 61500 - 1000 + 1000)%Z.
Proof.
  intros o tp gp identity.
  apply (banned_tenant_short_circuit ∅ 1000%Z tp gp o identity); reflexivity.
Defined.

(** X11: the endpoint part of a bucket key holds only letters, digits,
    [-], [_] and [/]; in particular no query string survives. *)
Theorem normalized_endpoint_is_key_safe (e : string) :
  forallb is_key_char (list_ascii_of_string (normalizeEndpoint e)) = true /\
  JS.includes (normalizeEndpoint e) "?" = false.
Proof.
  unfold normalizeEndpoint.
  set (s := dropTrailingSlash (withoutQuery e)). clearbody s.
  assert (K : forall a, is_key_char (if is_key_char a then a else "_"%char) = true).
  { intros a. destruct (is_key_char a) eqn:E; [exact E | reflexivity]. }
  induction s as [|a s [IH1 IH2]]; [split; reflexivity|].
  cbn [JS.map_chars list_ascii_of_string forallb JS.includes].
  rewrite K, IH1, IH2. split; [reflexivity|].
  rewrite orb_false_r.
  set (b := if is_key_char a then a else "_"%char).
  assert (Hb : is_key_char b = true) by apply K.
  clearbody b.
  destruct (String.prefix "?" (String b _)) eqn:P; [|reflexivity].
  apply String.prefix_correct in P. cbn in P.
  assert (Eb : b = "?"%char) by congruence.
  subst b. discriminate Hb.
Qed.

(** X26: a custom_limit override with a rate and a burst that are not
    zero replaces the tenant's own limits in the check: the decision is
    the one the request gets, without override, from the policy in which
    both the tenant and the user policy are the custom one (rate per
    minute, rate/60 per second and as refill rate, the burst as
    capacity), endpoint policies and thresholds kept.  So the user check
    comes first in the list even for a tenant that configured no user
    policy, and the tenant check uses the custom policy. *)
Theorem custom_limit_replaces_tenant_and_user store now tp gp o identity rate burst :
  override_type o = OT_custom_limit ->
  custom_rate o = Some rate -> custom_burst o = Some burst ->
  JS.truthy_num (Some rate) = true -> JS.truthy_num (Some burst) = true ->
  let custom := mkPolicy rate (rate / 60) burst (Some (rate / 60)) in
  let tp' := mkTenantPolicy (policy_tenant_id tp)
               (mkPolicies (Some custom) custom
                  (user_endpoints (policies tp)) (tenant_endpoints (policies tp))
                  (throttle_config (policies tp))) in
  performHierarchicalCheck store now tp gp (Some o) identity
  = performHierarchicalCheck store now tp' gp None identity /\
  exists rest,
    buildChecks tp' gp identity
    = mkCheck user_global
        ("{tenant:" ++ tenant_id identity ++ "}:user:" ++ user_id identity ++ ":bucket")%string
        custom
        (default (hard_threshold_pct (throttle_config (policies tp)))
                 (soft_threshold_pct (throttle_config (policies tp))))
        (hard_threshold_pct (throttle_config (policies tp))) :: rest /\
    In (mkCheck tenant_global ("{tenant:" ++ tenant_id identity ++ "}:bucket")%string
          custom
          (default (hard_threshold_pct (throttle_config (policies tp)))
                   (soft_threshold_pct (throttle_config (policies tp))))
          (hard_threshold_pct (throttle_config (policies tp)))) rest.
Proof.
  intros Ht Hr Hb Tr Tb custom tp'. split.
  - unfold performHierarchicalCheck, OverrideManager.applyOverride.
    rewrite Ht, Hr, Hb, Tr, Tb. reflexivity.
  - unfold buildChecks.
    cbn [policies user tenant throttle_config user_endpoints tenant_endpoints tp'].
    eexists. split; [reflexivity|].
    apply in_app_iff. right. left. reflexivity.
Qed.

Lemma custom_limit_replaces_tenant_and_user_witness :
  let o := mkOverride "acme" None None OT_custom_limit None (Some 30) (Some 5)
             "manual" manual_operator 0 100000 in
  let tp := mkTenantPolicy "acme"
              (mkPolicies None (mkPolicy 600 10 100 None) None None (mkThrottle None 100)) in
  let gp := mkGlobalPolicy (mkPolicy 6000 100 1000 None) None in
  let identity := mkIdentity "acme" "alice" "/api" None in
  let custom := mkPolicy 30 (30 / 60) 5 (Some (30 / 60)) in
  let tp' := mkTenantPolicy "acme" (mkPolicies (Some custom) custom None None (mkThrottle None 100)) in
  performHierarchicalCheck ∅ 1000 tp gp (Some o) identity
  = performHierarchicalCheck ∅ 1000 tp' gp None identity.
Proof.
  intros o tp gp identity custom tp'.
  apply (custom_limit_replaces_tenant_and_user ∅ 1000%Z tp gp o identity 30 5
           eq_refl eq_refl eq_refl eq_refl eq_refl).
Defined.

End BatchFacts.

(** ** More on overrides: creation and the cache *)

Module OverrideMoreFacts.
Import OverrideManager OverrideFacts.

(** What the store path of a lookup returns. *)
Lemma store_lookup_top docs now t u e :
  top_match docs now t u e
    (getPriorityOverride (find_overrides docs (buildOverrideQuery now t u e)) u e).
Proof.
  set (L := find_overrides docs (buildOverrideQuery now t u e)).
  assert (HL : forall o, In o L <->
            In o docs /\ o_tenant_id o = t /\ (now < expires_at o)%Z /\
            is_Some (shape_rank u e o)).
  { intros o. unfold L, find_overrides. rewrite In_sort_desc, filter_In, query_matches_rank.
    reflexivity. }
  assert (HR : forall o, In o L -> is_Some (shape_rank u e o)).
  { intros o Ho. apply HL in Ho. tauto. }
  rewrite (getPriorityOverride_first_shape L u e HR).
  pose proof (first_shape_top L u e HR) as Htop.
  unfold top_match.
  destruct (first_shape L u e) as [o|].
  - destruct Htop as [Hin (k & Hk & Hmin)]. apply HL in Hin.
    destruct Hin as (Hd & Ht & Hexp & _). repeat split; auto.
    exists k. split; [exact Hk|]. intros o' Hd' Ht' Hexp' k' Hk'.
    apply (Hmin o' k'); [|exact Hk']. apply HL. repeat split; eauto.
  - intros o' Hd' Ht' Hexp'. destruct (shape_rank u e o') as [k|] eqn:Hk; [|reflexivity].
    exfalso. assert (Hin : In o' L) by (apply HL; rewrite Hk; repeat split; eauto).
    rewrite Htop in Hin. exact Hin.
Qed.

Lemma invalidated_key_misses cache now t u e :
  cache_get (invalidateCache cache t u e) now (getCacheKey t u e) = None.
Proof.
  unfold cache_get, invalidateCache.
  assert (H : delete (getCacheKey t None None)
                (delete (getCacheKey t None e)
                  (delete (getCacheKey t u None)
                    (delete (getCacheKey t u e) cache))) !! getCacheKey t u e = None).
  { apply lookup_delete_None. right. apply lookup_delete_None. right.
    apply lookup_delete_None. right. apply lookup_delete_None. left. reflexivity. }
  rewrite H. reflexivity.
Qed.

(** A document that ranks at least as high, for the fields of [n], as
    [n] itself has the fields of [n]. *)
Lemma own_shape_fields u e o' n k k' :
  u <> Some ""%string -> e <> Some ""%string ->
  o_user_id n = u -> o_endpoint n = e ->
  shape_rank u e n = Some k' -> shape_rank u e o' = Some k -> (k <= k')%nat ->
  o_user_id o' = u /\ o_endpoint o' = e.
Proof.
  intros Hu He Hnu Hne.
  unfold shape_rank, shape.
  destruct n as [nt nu ne ty pm cr cb rs src ca ea].
  destruct o' as [ot ou oe ty' pm' cr' cb' rs' src' ca' ea']. simpl in *. subst nu ne.
  destruct u as [u|], e as [e|], ou as [ou|], oe as [oe|]; simpl;
    repeat match goal with
    | |- context [String.eqb ?a ?b] => destruct (String.eqb_spec a b); subst; simpl
    end;
    intros H1 H2 Hle; try discriminate; try congruence;
    try (injection H1 as <-; injection H2 as <-; lia);
    split; congruence.
Qed.

(** X12: after [createOverride], a lookup for the tenant, user and
    endpoint of the new override, made before it expires, finds an
    override: an unexpired one of that tenant with the same user and
    endpoint fields.  The cache cannot hide it, whatever it held. *)
Theorem created_override_is_found cache docs now now' o :
  o_user_id o <> Some ""%string -> o_endpoint o <> Some ""%string ->
  (now' < expires_at o)%Z ->
  exists o',
    fst (getActiveOverride (snd (createOverride cache docs now o))
           (Some (fst (createOverride cache docs now o))) now'
           (o_tenant_id o) (o_user_id o) (o_endpoint o)) = Some o' /\
    In o' (fst (createOverride cache docs now o)) /\
    o_tenant_id o' = o_tenant_id o /\ o_user_id o' = o_user_id o /\
    o_endpoint o' = o_endpoint o /\ (now' < expires_at o')%Z.
Proof.
  intros Hu He Hexp. unfold createOverride. cbn [fst snd].
  set (n := mkOverride _ _ _ _ _ _ _ _ _ _ _).
  unfold getActiveOverride. rewrite invalidated_key_misses. cbn [fst].
  pose proof (store_lookup_top (docs ++ [n]) now' (o_tenant_id o) (o_user_id o) (o_endpoint o))
    as T.
  assert (Hn : In n (docs ++ [n])) by (apply in_app_iff; right; left; reflexivity).
  assert (Hr : exists k', shape_rank (o_user_id o) (o_endpoint o) n = Some k').
  { unfold shape_rank, shape, n. simpl.
    destruct (o_user_id o) as [u|], (o_endpoint o) as [e|]; simpl;
      repeat match goal with
      | |- context [String.eqb ?a ?b] => destruct (String.eqb_spec a b); subst; simpl
      end; try congruence; eexists; reflexivity. }
  destruct Hr as [k' Hk'].
  destruct (getPriorityOverride _ _ _) as [o'|]; simpl in T.
  - destruct T as (Hin & Ht & Hex & k & Hk & Hmin).
    exists o'. split; [reflexivity|]. split; [exact Hin|]. split; [exact Ht|].
    specialize (Hmin n Hn eq_refl Hexp k' Hk').
    destruct (own_shape_fields (o_user_id o) (o_endpoint o) o' n k k' Hu He
                eq_refl eq_refl Hk' Hk Hmin) as [A B].
    auto.
  - specialize (T n Hn eq_refl Hexp). congruence.
Qed.

Lemma created_override_is_found_witness :
  let o := mkOverride "acme" (Some "alice") None OT_temporary_ban None None None
             "manual" manual_operator 0 100000 in
  exists o',
    fst (getActiveOverride (snd (createOverride ∅ [] 1000 o))
           (Some (fst (createOverride ∅ [] 1000 o))) 2000
           (o_tenant_id o) (o_user_id o) (o_endpoint o)) = Some o' /\
    In o' (fst (createOverride ∅ [] 1000 o)) /\
    o_tenant_id o' = o_tenant_id o /\ o_user_id o' = o_user_id o /\
    o_endpoint o' = o_endpoint o /\ (2000 < expires_at o')%Z.
Proof.
  intros o.
  apply (created_override_is_found ∅ [] 1000%Z 2000%Z o);
    [discriminate | discriminate | reflexivity].
Defined.

(** X13: a lookup answered by the store is repeated from the cache for
    30 seconds, the last millisecond included: the same key gets the same
    answer and the cache is left as it is, whatever the collection holds
    by then and even when the store is down. *)
Theorem lookup_cached_for_ttl cache docs later_docs now now' t u e :
  cache_get cache now (getCacheKey t u e) = None ->
  (now <= now' <= now + 30000)%Z ->
  let first := getActiveOverride cache (Some docs) now t u e in
  getActiveOverride (snd first) later_docs now' t u e = (fst first, snd first).
Proof.
  intros Hmiss Hle first.
  set (r := getPriorityOverride (find_overrides docs (buildOverrideQuery now t u e)) u e).
  assert (F : first = (r, <[getCacheKey t u e := mkEntry now r]> cache)).
  { unfold first, getActiveOverride. rewrite Hmiss. reflexivity. }
  rewrite F. cbn [fst snd]. clear F first.
  unfold getActiveOverride, cache_get. rewrite lookup_insert_eq. cbn [set_at].
  assert (E : (now' - now <=? CACHE_TTL_MS)%Z = true)
    by (apply Z.leb_le; unfold CACHE_TTL_MS; lia).
  rewrite E. reflexivity.
Qed.

Lemma lookup_cached_for_ttl_witness :
  let o := mkOverride "acme" None None OT_temporary_ban None None None
             "manual" manual_operator 0 100000 in
  let first := getActiveOverride ∅ (Some []) 1000 "acme" None None in
  getActiveOverride (snd first) (Some [o]) 31000 "acme" None None = (fst first, snd first).
Proof.
  intros o first.
  apply (lookup_cached_for_ttl ∅ [] (Some [o]) 1000%Z 31000%Z "acme"%string None None);
    [reflexivity | lia].
Defined.

End OverrideMoreFacts.

(** ** The detection run *)

Module AbuseRunFacts.
Import OverrideManager AbuseDetectionJob AbuseDetectionRun.

Lemma hasActiveOverride_grows docs more now t :
  hasActiveOverride (Some docs) now t = true ->
  hasActiveOverride (Some (docs ++ more)) now t = true.
Proof.
  unfold hasActiveOverride. rewrite List.filter_app, length_app.
  rewrite !Nat.ltb_lt. lia.
Qed.

Lemma hasActiveOverride_last docs o now t :
  o_tenant_id o = t -> (now < expires_at o)%Z ->
  hasActiveOverride (Some (docs ++ [o])) now t = true.
Proof.
  intros Ht He. unfold hasActiveOverride. rewrite List.filter_app, length_app.
  apply Nat.ltb_lt. simpl List.filter. rewrite Ht, String.eqb_refl.
  apply Z.ltb_lt in He. rewrite He. simpl. lia.
Qed.

Lemma penalizeTenant_step config now cache docs t rate txt :
  (0 < penaltyDurationMs config)%Z ->
  exists added cache' flag,
    penalizeTenant config now cache (Some docs) t rate txt
    = (Some (docs ++ added), cache', flag) /\
    hasActiveOverride (Some (docs ++ added)) now t = true /\
    Forall (automatic_penalty config) added /\
    ((added = [] /\ flag = None /\ cache' = cache /\
      hasActiveOverride (Some docs) now t = true) \/
     (exists o s, added = [o] /\ flag = Some s /\ o_tenant_id o = t /\ created_at o = now /\
                  hasActiveOverride (Some docs) now t = false)).
Proof.
  intros Hd. unfold penalizeTenant.
  destruct (hasActiveOverride (Some docs) now t) eqn:Hh.
  - exists [], cache, None. rewrite app_nil_r. repeat split; auto.
  - unfold createOverride, penalty_override. cbn.
    eexists [_], _, _. split; [reflexivity|]. split; [|split].
    + apply hasActiveOverride_last; cbn; [reflexivity | lia].
    + apply List.Forall_cons; [|apply List.Forall_nil].
      unfold automatic_penalty. cbn. auto.
    + right. eexists _, _. repeat split; reflexivity.
Qed.

Lemma penalizeEach_run config reason_of abusive : forall cache docs,
  (0 < penaltyDurationMs config)%Z ->
  exists added cache' flags,
    penalizeEach config reason_of cache (Some docs) abusive
    = (Some (docs ++ added), cache', flags) /\
    Forall (automatic_penalty config) added /\
    map o_tenant_id added = map fst flags /\
    (forall o, In o added -> exists r, In (o_tenant_id o, r, created_at o) abusive) /\
    (forall t r now, In (t, r, now) abusive ->
       hasActiveOverride (Some (docs ++ added)) now t = true).
Proof.
  induction abusive as [|[[t r] now] rest IH]; intros cache docs Hd.
  - exists [], cache, []. rewrite app_nil_r. simpl.
    split; [reflexivity|]. split; [apply List.Forall_nil|]. split; [reflexivity|].
    split; [intros o [] | intros ? ? ? []].
  - simpl.
    destruct (penalizeTenant_step config now cache docs t r (reason_of r) Hd)
      as (a1 & c1 & f1 & E1 & H1 & A1 & C1).
    rewrite E1.
    destruct (IH c1 (docs ++ a1) Hd) as (a2 & c2 & f2 & E2 & A2 & M2 & S2 & H2).
    rewrite E2. rewrite <- app_assoc.
    eexists (a1 ++ a2), c2, _. split; [reflexivity|].
    split; [apply Forall_app; split; assumption|].
    split; [|split].
    + destruct C1 as [(-> & -> & _)|(o1 & s & -> & -> & Ho & _)]; simpl; [exact M2|].
      rewrite Ho, M2. reflexivity.
    + intros o Ho. apply in_app_iff in Ho as [Ho|Ho].
      * destruct C1 as [(-> & _)|(o1 & s & -> & _ & Ht & Hc & _)]; [destruct Ho|].
        destruct Ho as [<-|[]]. exists r. left. rewrite Ht, Hc. reflexivity.
      * destruct (S2 o Ho) as [r' Hr']. exists r'. right. exact Hr'.
    + intros t' r' now' [E|Hin].
      * injection E as <- <- <-. rewrite app_assoc. apply hasActiveOverride_grows. exact H1.
      * rewrite app_assoc. apply (H2 t' r' now' Hin).
Qed.

(** X14: a detection run with the store up and a positive penalty
    duration ends in success; it only appends to the collection, and
    only tenant-wide overrides of the detector that last the penalty
    duration, one per flag recorded and each for a reported tenant at the
    time of its turn; and every reported tenant has an active override at
    the time of its turn, its own new one or one it had. *)
Theorem detection_run_penalizes_each_once config reason_of cache docs abusive :
  (0 < penaltyDurationMs config)%Z ->
  exists added cache' flags,
    runDetection config reason_of false cache (Some docs) abusive
    = (Some (docs ++ added), cache', flags, Some success) /\
    Forall (automatic_penalty config) added /\
    map o_tenant_id added = map fst flags /\
    (forall o, In o added -> exists r, In (o_tenant_id o, r, created_at o) abusive) /\
    (forall t r now, In (t, r, now) abusive ->
       hasActiveOverride (Some (docs ++ added)) now t = true).
Proof.
  intros Hd. unfold runDetection.
  destruct (penalizeEach_run config reason_of abusive cache docs Hd)
    as (added & cache' & flags & E & H).
  exists added, cache', flags. rewrite E. split; [reflexivity | exact H].
Qed.

Lemma detection_run_penalizes_each_once_witness :
  let config := mkAbuseConfig true 60000 (1 # 2) 5 300000 adaptive (1 # 10) in
  let abusive := [("acme"%string, 9 # 10, 1000%Z); ("acme"%string, 9 # 10, 1001%Z);
                  ("globex"%string, 6 # 10, 1002%Z)] in
  exists added cache' flags,
    runDetection config (fun _ => "abuse"%string) false ∅ (Some []) abusive
    = (Some ([] ++ added), cache', flags, Some success) /\
    Forall (automatic_penalty config) added /\
    map o_tenant_id added = map fst flags /\
    (forall o, In o added -> exists r, In (o_tenant_id o, r, created_at o) abusive) /\
    (forall t r now, In (t, r, now) abusive ->
       hasActiveOverride (Some ([] ++ added)) now t = true).
Proof.
  intros config abusive.
  apply (detection_run_penalizes_each_once config (fun _ => "abuse"%string) ∅ [] abusive).
  reflexivity.
Defined.

(** X15: a tenant without an active override is penalised once: the
    call appends one override and flags the tenant, and any further call
    for that tenant before the penalty expires changes nothing and flags
    nothing. *)
Theorem penalty_not_duplicated config now now' cache docs t rate rate' txt txt' :
  (0 < penaltyDurationMs config)%Z ->
  hasActiveOverride (Some docs) now t = false ->
  (now <= now' < now + penaltyDurationMs config)%Z ->
  let first := penalizeTenant config now cache (Some docs) t rate txt in
  (exists o s, first = (Some (docs ++ [o]), invalidateCache cache t None None, Some s)) /\
  penalizeTenant config now' (snd (fst first)) (fst (fst first)) t rate' txt'
  = (fst (fst first), snd (fst first), None).
Proof.
  intros Hd Hno Hw first.
  assert (F : first = (Some (docs ++ [penalty_override config now t txt]),
                       invalidateCache cache t None None,
                       Some (if Qgt_bool rate (8 # 10) then high else medium))).
  { unfold first, penalizeTenant. rewrite Hno. reflexivity. }
  rewrite F. cbn [fst snd]. split; [eauto|].
  unfold penalizeTenant.
  assert (E : hasActiveOverride (Some (docs ++ [penalty_override config now t txt])) now' t
              = true).
  { apply hasActiveOverride_last; cbn; [reflexivity | lia]. }
  rewrite E. reflexivity.
Qed.

Lemma penalty_not_duplicated_witness :
  let config := mkAbuseConfig true 60000 (1 # 2) 5 300000 adaptive (1 # 10) in
  let first := penalizeTenant config 1000 ∅ (Some []) "acme" (9 # 10) "abuse" in
  (exists o s, first = (Some ([] ++ [o]), invalidateCache ∅ "acme" None None, Some s)) /\
  penalizeTenant config 300999 (snd (fst first)) (fst (fst first)) "acme" (95 # 100) "again"
  = (fst (fst first), snd (fst first), None).
Proof.
  intros config.
  apply (penalty_not_duplicated config 1000%Z 300999%Z ∅ [] "acme"%string
           (9 # 10) (95 # 100) "abuse"%string "again"%string);
    [reflexivity | reflexivity | simpl; lia].
Defined.

Lemma penalizeEach_store_down config reason_of abusive : forall cache,
  penalizeEach config reason_of cache None abusive = (None, cache, []).
Proof.
  induction abusive as [|[[t r] now] rest IH]; intros cache; [reflexivity|].
  cbn [penalizeEach]. unfold penalizeTenant. cbn [hasActiveOverride].
  rewrite IH. reflexivity.
Qed.

(** X25: the ways a detection run does nothing.  While a run is in
    progress a second one returns at once and records no status.  A
    metrics query that throws is answered with the empty list of
    tenants, so the run changes nothing and records success.  With the
    override store down every tenant's failure is swallowed: nothing is
    created, nothing is flagged, the cache is left alone, and the run
    still records success. *)
Theorem detection_run_fails_quietly config reason_of cache collection abusive clock :
  runDetection config reason_of true cache collection abusive = (collection, cache, [], None) /\
  runDetection config reason_of false cache collection
    (at_times (getTenantsWithHighThrottleRate None) clock)
  = (collection, cache, [], Some success) /\
  runDetection config reason_of false cache None abusive
  = (None, cache, [], Some success).
Proof.
  split; [reflexivity|]. split; [reflexivity|].
  unfold runDetection. rewrite penalizeEach_store_down. reflexivity.
Qed.

End AbuseRunFacts.

(** ** The closed circuit *)

Module BreakerClosedFacts.
Import CircuitBreaker Terms.

Section Closed.
Context {T E W : Type}.
Variable clock : W -> Z.
Variable config : CircuitBreakerConfig.

Lemma closed_failure b (op : W -> (T + E) * W) w e w' :
  state b = CLOSED -> op w = (inr e, w') ->
  execute clock config b op w
  = (inr (OperationError e),
     if (failures b + 1 >=? failure_threshold config)%Z
     then mkBreaker OPEN (failures b + 1) (successes b) (Some (clock w'))
            (clock w' + timeout_ms config)
     else mkBreaker CLOSED (failures b + 1) (successes b) (Some (clock w'))
            (next_attempt_time b),
     w').
Proof.
  intros Hs Hop. unfold execute. rewrite Hs. cbn [state_eqb]. rewrite Hop.
  unfold onFailure. cbn [state failures successes last_failure_time next_attempt_time].
  rewrite Hs. cbn [state_eqb].
  destruct (failures b + 1 >=? failure_threshold config)%Z; [|reflexivity].
  unfold transitionTo. cbn. reflexivity.
Qed.

Lemma closed_success b (op : W -> (T + E) * W) w r w' :
  state b = CLOSED -> op w = (inl r, w') ->
  execute clock config b op w
  = (inl r, mkBreaker CLOSED 0 (successes b) (last_failure_time b) (next_attempt_time b), w').
Proof.
  intros Hs Hop. unfold execute. rewrite Hs. cbn [state_eqb]. rewrite Hop.
  unfold onSuccess. cbn [state failures successes last_failure_time next_attempt_time].
  rewrite Hs. reflexivity.
Qed.

Lemma closed_failures_counted (ops : list (W -> (T + E) * W)) : forall b w,
  state b = CLOSED -> Forall fails ops ->
  (failures b + Z.of_nat (length ops) < failure_threshold config)%Z ->
  state (fst (execute_all clock config b ops w)) = CLOSED /\
  failures (fst (execute_all clock config b ops w)) = (failures b + Z.of_nat (length ops))%Z.
Proof.
  induction ops as [|op ops IH]; intros b w Hs Hall Hlt.
  - simpl. split; [exact Hs | lia].
  - apply List.Forall_cons_iff in Hall. destruct Hall as [Hop Hall].
    destruct (Hop w) as (e & w' & Hw).
    cbn [execute_all]. rewrite (closed_failure b op w e w' Hs Hw).
    cbn [length] in Hlt.
    assert (Eg : (failures b + 1 >=? failure_threshold config)%Z = false).
    { rewrite Z.geb_leb. apply Z.leb_gt. lia. }
    rewrite Eg.
    destruct (IH (mkBreaker CLOSED (failures b + 1) (successes b) (Some (clock w'))
                    (next_attempt_time b)) w' eq_refl Hall) as [A B].
    { cbn [failures]. lia. }
    split; [exact A|]. rewrite B. cbn [failures length]. lia.
Qed.

Lemma closed_trips (ops : list (W -> (T + E) * W)) b w :
  state b = CLOSED -> Forall fails ops -> ops <> [] ->
  (failures b + Z.of_nat (length ops) = failure_threshold config)%Z ->
  let b' := fst (execute_all clock config b ops w) in
  state b' = OPEN /\
  exists t, last_failure_time b' = Some t /\ next_attempt_time b' = (t + timeout_ms config)%Z.
Proof.
  intros Hs Hall Hne Hlen.
  destruct (exists_last Hne) as (front & op & ->).
  apply Forall_app in Hall as [Hfront Hop].
  apply List.Forall_cons_iff in Hop. destruct Hop as [Hop _].
  rewrite length_app in Hlen. cbn [length] in Hlen.
  assert (G : forall (l : list (W -> (T + E) * W)) b0 w0,
            execute_all clock config b0 (l ++ [op]) w0
            = let '(b1, w1) := execute_all clock config b0 l w0 in
              let '(_, b2, w2) := execute clock config b1 op w1 in (b2, w2)).
  { induction l as [|x l IHl]; intros b0 w0.
    - cbn. destruct (execute clock config b0 op w0) as [[? ?] ?]. reflexivity.
    - cbn [app execute_all]. destruct (execute clock config b0 x w0) as [[? b1] w1].
      apply IHl. }
  intros b'. unfold b'. rewrite G.
  destruct (closed_failures_counted front b w Hs Hfront) as [A B]; [lia|].
  destruct (execute_all clock config b front w) as [b1 w1]. cbn [fst] in A, B.
  destruct (Hop w1) as (e & w2 & Hw).
  rewrite (closed_failure b1 op w1 e w2 A Hw).
  assert (Eg : (failures b1 + 1 >=? failure_threshold config)%Z = true).
  { rewrite Z.geb_leb. apply Z.leb_le. lia. }
  rewrite Eg. cbn. split; [reflexivity|]. eexists. split; reflexivity.
Qed.

(** X16: in CLOSED the operation always runs.  A success keeps the
    breaker CLOSED and clears the failure count; failures in a row are
    counted, the breaker staying CLOSED while the count is below
    [failure_threshold]; the failure that brings the count to the
    threshold opens the circuit, with the next attempt one timeout after
    that failure. *)
Theorem closed_opens_at_failure_threshold (b : Breaker) (w : W) :
  state b = CLOSED ->
  (forall (op : W -> (T + E) * W) r w', op w = (inl r, w') ->
     let b' := snd (fst (execute clock config b op w)) in
     fst (fst (execute clock config b op w)) = inl r /\
     state b' = CLOSED /\ failures b' = 0%Z) /\
  (forall ops : list (W -> (T + E) * W), Forall fails ops ->
     (failures b + Z.of_nat (length ops) < failure_threshold config)%Z ->
     state (fst (execute_all clock config b ops w)) = CLOSED /\
     failures (fst (execute_all clock config b ops w))
     = (failures b + Z.of_nat (length ops))%Z) /\
  (forall ops : list (W -> (T + E) * W), Forall fails ops -> ops <> [] ->
     (failures b + Z.of_nat (length ops) = failure_threshold config)%Z ->
     let b' := fst (execute_all clock config b ops w) in
     state b' = OPEN /\
     exists t, last_failure_time b' = Some t /\
               next_attempt_time b' = (t + timeout_ms config)%Z).
Proof.
  intros Hs. split; [|split].
  - intros op r w' Hop. rewrite (closed_success b op w r w' Hs Hop).
    cbn. repeat split; reflexivity.
  - intros ops Hall Hlt. apply closed_failures_counted; assumption.
  - intros ops Hall Hne Hlen. apply closed_trips; assumption.
Qed.

End Closed.

Lemma closed_opens_at_failure_threshold_witness :
  let config := mkConfig 2 60000 2 in
  let failing : Z -> (unit + unit) * Z := fun w => (inr tt, (w + 5)%Z) in
  let b' := fst (execute_all (fun w : Z => w) config new_breaker [failing; failing] 100%Z) in
  state b' = OPEN /\
  exists t, last_failure_time b' = Some t /\ next_attempt_time b' = (t + 60000)%Z.
Proof.
  intros config failing.
  destruct (closed_opens_at_failure_threshold (T:=unit) (E:=unit) (fun w : Z => w) config
              new_breaker 100%Z eq_refl) as (_ & _ & H).
  apply (H [failing; failing]).
  - repeat constructor; intros w; eexists _, _; reflexivity.
  - discriminate.
  - reflexivity.
Defined.

End BreakerClosedFacts.

(** ** The fallback handler *)

Module FallbackFacts.
Import FallbackHandler.

Lemma filter_count_le {A} (p q : A -> bool) l :
  (forall x, In x l -> p x = true -> q x = true) ->
  (length (List.filter p l) <= length (List.filter q l))%nat.
Proof.
  induction l as [|x l IH]; intros H; [simpl; lia|].
  simpl. assert (IH' := IH (fun y Hy => H y (or_intror Hy))).
  destruct (p x) eqn:P.
  - rewrite (H x (or_introl eq_refl) P). simpl. lia.
  - destruct (q x); simpl; lia.
Qed.

Lemma filter_filter_window (now last : Z) (l : list Z) :
  (last <= now)%Z ->
  List.filter (fun t => (now - windowMs <? t)%Z)
    (List.filter (fun t => (last - windowMs <? t)%Z) l)
  = List.filter (fun t => (now - windowMs <? t)%Z) l.
Proof.
  intros Hle. induction l as [|x l IH]; [reflexivity|].
  simpl. destruct (last - windowMs <? x)%Z eqn:E1; simpl; rewrite IH.
  - reflexivity.
  - assert (E2 : (now - windowMs <? x)%Z = false)
      by (apply Z.ltb_ge; apply Z.ltb_ge in E1; lia).
    rewrite E2. reflexivity.
Qed.

Lemma in_window_app a l1 l2 : in_window a (l1 ++ l2) = (in_window a l1 + in_window a l2)%Z.
Proof. unfold in_window. rewrite List.filter_app, length_app. lia. Qed.

(** One call in enforcement mode: it is admitted exactly when fewer
    than the limit of the admitted calls lie in the last window, and the
    history of admitted calls stays bounded in every window. *)
Lemma check_step rpm buckets now identity last hist :
  (0 <= rpm)%Z -> (last <= now)%Z ->
  tracks buckets identity last hist ->
  Forall (fun t => (t <= last)%Z) hist ->
  bounded rpm hist ->
  let r := checkRateLimit rpm buckets now identity enforcement in
  let hist' := if allowed (snd r) then hist ++ [now] else hist in
  tracks (fst r) identity now hist' /\
  Forall (fun t => (t <= now)%Z) hist' /\
  bounded rpm hist' /\
  allowed (snd r)
  = (Z.of_nat (length (List.filter (fun t => (now - windowMs <? t)%Z) hist)) <? rpm)%Z.
Proof.
  intros Hrpm Hle Htr Hall Hb r hist'.
  assert (Hreq : List.filter (fun t => (now - windowMs <? t)%Z)
                   (requests (match buckets !! getBucketKey identity with
                              | Some b => b | None => mkFallbackBucket [] now end))
                 = List.filter (fun t => (now - windowMs <? t)%Z) hist).
  { unfold tracks in Htr. destruct (buckets !! getBucketKey identity) as [b|].
    - rewrite Htr. apply filter_filter_window. exact Hle.
    - subst hist. reflexivity. }
  unfold hist', r, checkRateLimit. cbn [fst snd allowed]. rewrite Hreq.
  set (R := List.filter (fun t => (now - windowMs <? t)%Z) hist).
  assert (Hnow : (now - windowMs <? now)%Z = true) by (apply Z.ltb_lt; unfold windowMs; lia).
  destruct (Z.of_nat (length R) <? rpm)%Z eqn:Ha; cbv iota.
  - split; [|split; [|split]].
    + unfold tracks. rewrite lookup_insert_eq. cbn [requests].
      rewrite List.filter_app. simpl. rewrite Hnow. reflexivity.
    + apply Forall_app. split.
      * eapply List.Forall_impl; [|exact Hall]. simpl. intros; lia.
      * apply List.Forall_cons; [lia | apply List.Forall_nil].
    + intros a. rewrite in_window_app.
      unfold in_window at 2. simpl.
      destruct ((a <? now)%Z && (now <=? a + windowMs)%Z) eqn:W; simpl.
      * apply andb_true_iff in W as [W1 W2]. apply Z.ltb_lt in W1. apply Z.leb_le in W2.
        apply Z.ltb_lt in Ha.
        assert (in_window a hist <= Z.of_nat (length R))%Z.
        { unfold in_window, R. apply inj_le. apply filter_count_le.
          intros x _ Hx. apply andb_true_iff in Hx as [Hx _].
          apply Z.ltb_lt in Hx. apply Z.ltb_lt. lia. }
        lia.
      * specialize (Hb a). lia.
    + reflexivity.
  - split; [|split; [|split]].
    + unfold tracks. rewrite lookup_insert_eq. reflexivity.
    + eapply List.Forall_impl; [|exact Hall]. simpl. intros; lia.
    + exact Hb.
    + reflexivity.
Qed.

Lemma checkAll_bounded rpm identity times : forall buckets last hist,
  (0 <= rpm)%Z ->
  Lua.nondecreasing last times ->
  tracks buckets identity last hist ->
  Forall (fun t => (t <= last)%Z) hist ->
  bounded rpm hist ->
  bounded rpm (hist ++ admitted times (snd (checkAll rpm buckets identity enforcement times))).
Proof.
  induction times as [|now rest IH]; intros buckets last hist Hrpm Hnd Htr Hall Hb.
  - simpl. rewrite app_nil_r. exact Hb.
  - destruct Hnd as [Hle Hnd].
    destruct (check_step rpm buckets now identity last hist Hrpm Hle Htr Hall Hb)
      as (Htr' & Hall' & Hb' & _).
    cbn [checkAll].
    destruct (checkRateLimit rpm buckets now identity enforcement) as [b1 d].
    cbn [fst snd] in Htr', Hall', Hb'.
    specialize (IH b1 now (if allowed d then hist ++ [now] else hist) Hrpm Hnd Htr' Hall' Hb').
    destruct (checkAll rpm b1 identity enforcement rest) as [b2 ds].
    cbn [snd admitted] in IH |- *.
    destruct (allowed d); [rewrite <- app_assoc in IH|]; exact IH.
Qed.

(** X17: the fallback is a sliding-window limiter.  For a tenant whose
    bucket does not exist yet, in enforcement mode and with call times
    that never go back, no window of 60 seconds [(a, a + 60000]] holds
    more than [fallbackRPM] admitted calls, wherever the window starts. *)
Theorem fallback_window_bound rpm buckets identity first times a :
  (0 <= rpm)%Z ->
  buckets !! getBucketKey identity = None ->
  Lua.nondecreasing first times ->
  (in_window a (admitted times (snd (checkAll rpm buckets identity enforcement times)))
   <= rpm)%Z.
Proof.
  intros Hrpm Hnone Hnd.
  apply (checkAll_bounded rpm identity times buckets first [] Hrpm Hnd).
  - unfold tracks. rewrite Hnone. reflexivity.
  - apply List.Forall_nil.
  - intros a'. unfold in_window. simpl. lia.
Qed.

Lemma fallback_window_bound_witness :
  let identity := mkIdentity "acme" "alice" "/api" None in
  (in_window 500
     (admitted [1000; 1000; 2000; 61000; 61001]%Z
        (snd (checkAll 2 ∅ identity enforcement [1000; 1000; 2000; 61000; 61001]%Z)))
   <= 2)%Z.
Proof.
  intros identity.
  apply (fallback_window_bound 2 ∅ identity 0%Z [1000; 1000; 2000; 61000; 61001]%Z 500%Z).
  - lia.
  - reflexivity.
  - simpl. lia.
Defined.

Lemma usage_below_100 (c rpm : Z) :
  (0 <= c < rpm)%Z -> inject_Z c / inject_Z rpm * 100 < 100.
Proof.
  intros [H0 H1].
  assert (Hy : 0 < inject_Z rpm) by (change 0 with (inject_Z 0); rewrite <- Zlt_Qlt; lia).
  assert (Hx : inject_Z c < inject_Z rpm) by (rewrite <- Zlt_Qlt; lia).
  assert (H : inject_Z c / inject_Z rpm < 1) by (apply Qlt_shift_div_r; [exact Hy | lra]).
  lra.
Qed.

Lemma usage_at_100 (rpm : Z) : (0 < rpm)%Z -> inject_Z rpm / inject_Z rpm * 100 == 100.
Proof.
  intros H.
  assert (Hy : 0 < inject_Z rpm) by (change 0 with (inject_Z 0); rewrite <- Zlt_Qlt; lia).
  field. lra.
Qed.

Lemma ceil_seconds (d : Z) :
  (0 < d <= 60000)%Z -> (1 <= JS.Math_ceil (inject_Z d / 1000) <= 60)%Z.
Proof.
  intros [H0 H1]. unfold JS.Math_ceil.
  set (q := inject_Z d / 1000).
  assert (Hq : q * 1000 == inject_Z d) by (unfold q; field).
  assert (Hd0 : 0 < inject_Z d) by (change 0 with (inject_Z 0); rewrite <- Zlt_Qlt; lia).
  assert (Hd1 : inject_Z d <= 60000)
    by (change 60000 with (inject_Z 60000); rewrite <- Zle_Qle; lia).
  pose proof (Qle_ceiling q) as Hc. pose proof (Qceiling_lt q) as Hc'.
  assert (A : inject_Z 0 < inject_Z (Qceiling q)) by (change (inject_Z 0) with 0; lra).
  assert (B : inject_Z (Qceiling q - 1) < inject_Z 60) by (change (inject_Z 60) with 60; lra).
  rewrite <- Zlt_Qlt in A, B. lia.
Qed.

Lemma fold_min_bounds (lo hi : Z) (rest : list Z) : forall x,
  (lo < x <= hi)%Z -> Forall (fun t => (lo < t <= hi)%Z) rest ->
  (lo < fold_left Z.min rest x <= hi)%Z.
Proof.
  induction rest as [|y rest IH]; intros x Hx Hall; [exact Hx|].
  apply List.Forall_cons_iff in Hall. destruct Hall as [Hy Hall].
  simpl. apply IH; [lia | exact Hall].
Qed.

Lemma fallback_step rpm buckets now identity mode last :
  (0 < rpm)%Z -> (last <= now)%Z ->
  within_limit rpm last buckets identity ->
  let r := checkRateLimit rpm buckets now identity mode in
  sound_decision rpm mode (snd r) /\ within_limit rpm now (fst r) identity.
Proof.
  intros Hrpm Hle Hwf r. unfold r, checkRateLimit.
  set (b := match buckets !! getBucketKey identity with
            | Some bucket => bucket | None => mkFallbackBucket [] now end).
  assert (Hb : (Z.of_nat (length (requests b)) <= rpm)%Z /\
               Forall (fun t => (t <= last)%Z) (requests b)).
  { unfold within_limit in Hwf. unfold b.
    destruct (buckets !! getBucketKey identity); [exact Hwf|].
    simpl. split; [lia | apply List.Forall_nil]. }
  destruct Hb as [Hlen Hall].
  set (R := List.filter (fun timestamp => (now - windowMs <? timestamp)%Z) (requests b)).
  assert (HR : Forall (fun t => (now - windowMs < t <= now)%Z) R).
  { apply List.Forall_forall. intros t Ht. unfold R in Ht. apply filter_In in Ht.
    destruct Ht as [Ht Hw]. apply Z.ltb_lt in Hw.
    rewrite List.Forall_forall in Hall. specialize (Hall t Ht). lia. }
  assert (HRlen : (Z.of_nat (length R) <= rpm)%Z).
  { assert (length R <= length (requests b))%nat by apply List.filter_length_le. lia. }
  cbn [fst snd]. unfold within_limit, sound_decision.
  rewrite lookup_insert_eq.
  cbn [limit scope state allowed retry_after remaining requests].
  destruct (Z.of_nat (length R) <? rpm)%Z eqn:Ha; cbv iota; cbn [negb].
  - apply Z.ltb_lt in Ha.
    assert (U : inject_Z (Z.of_nat (length R)) / inject_Z rpm * 100 < 100)
      by (apply usage_below_100; lia).
    assert (E1 : Qge_bool (inject_Z (Z.of_nat (length R)) / inject_Z rpm * 100) 110 = false)
      by (apply Qge_bool_false; lra).
    assert (E2 : Qge_bool (inject_Z (Z.of_nat (length R)) / inject_Z rpm * 100) 100 = false)
      by (apply Qge_bool_false; lra).
    rewrite E1, E2.
    split.
    + split; [reflexivity|]. split; [reflexivity|]. split; [discriminate|].
      split; [destruct mode; intros H; congruence|].
      left. split; [reflexivity|]. split; [reflexivity|].
      split; [lia | destruct mode; reflexivity].
    + split.
      * rewrite length_app. simpl. lia.
      * apply Forall_app. split.
        -- eapply List.Forall_impl; [|exact HR]. simpl. intros; lia.
        -- apply List.Forall_cons; [lia | apply List.Forall_nil].
  - apply Z.ltb_ge in Ha.
    assert (Hc : Z.of_nat (length R) = rpm) by lia.
    rewrite Hc.
    assert (U : inject_Z rpm / inject_Z rpm * 100 == 100) by (apply usage_at_100; exact Hrpm).
    assert (E1 : Qge_bool (inject_Z rpm / inject_Z rpm * 100) 110 = false)
      by (apply Qge_bool_false; lra).
    assert (E2 : Qge_bool (inject_Z rpm / inject_Z rpm * 100) 100 = true)
      by (apply Qge_bool_true; lra).
    rewrite E1, E2.
    split.
    + split; [reflexivity|]. split; [reflexivity|]. split; [discriminate|].
      split; [destruct mode; intros H; congruence|].
      right. destruct R as [|x rest] eqn:ER; [simpl in Hc; lia|].
      apply List.Forall_cons_iff in HR. destruct HR as [Hx Hrest].
      pose proof (fold_min_bounds (now - windowMs) now rest x Hx Hrest) as Hm.
      cbn [Math_min].
      eexists. split; [reflexivity|].
      split; [apply ceil_seconds; unfold windowMs in *; lia|].
      split; [reflexivity|]. split; [lia|]. intros ->. reflexivity.
    + split; [lia|].
      eapply List.Forall_impl; [|exact HR]. simpl. intros; lia.
Qed.

(** X18: with a positive limit, starting from a bucket that holds no
    more than the limit and nothing later than the first call (a new
    tenant, or any bucket the handler itself has written under that
    limit) and with call times that never go back, every fallback
    decision is sound: never hard; either admitted, in state normal, with
    no retry hint and between 1 and the limit remaining, or refused, in
    state soft, with nothing remaining and a retry hint of 1 to 60
    seconds; and in shadow and logging mode [allowed] is always true. *)
Theorem fallback_decisions_sound rpm identity mode times : forall buckets first,
  (0 < rpm)%Z ->
  within_limit rpm first buckets identity ->
  Lua.nondecreasing first times ->
  Forall (sound_decision rpm mode) (snd (checkAll rpm buckets identity mode times)).
Proof.
  induction times as [|now rest IH]; intros buckets first Hrpm Hwf Hnd.
  - apply List.Forall_nil.
  - destruct Hnd as [Hle Hnd].
    destruct (fallback_step rpm buckets now identity mode first Hrpm Hle Hwf) as [Hd Hwf'].
    cbn [checkAll].
    destruct (checkRateLimit rpm buckets now identity mode) as [b1 d]. cbn [fst snd] in Hd, Hwf'.
    specialize (IH b1 now Hrpm Hwf' Hnd).
    destruct (checkAll rpm b1 identity mode rest) as [b2 ds]. cbn [snd] in IH |- *.
    apply List.Forall_cons; assumption.
Qed.

Lemma fallback_decisions_sound_witness :
  let identity := mkIdentity "acme" "alice" "/api" None in
  Forall (sound_decision 2 shadow)
    (snd (checkAll 2 ∅ identity shadow [1000; 1000; 2000; 61000; 61001]%Z)).
Proof.
  intros identity.
  apply (fallback_decisions_sound 2 identity shadow [1000; 1000; 2000; 61000; 61001]%Z ∅ 0%Z).
  - lia.
  - exact I.
  - simpl. lia.
Defined.

(** X19: dropping idle buckets changes no decision.  When the bucket of
    a tenant holds no request later than its last use, a call after a
    cleanup gets the decision it would get without the cleanup, and
    leaves the same bucket behind. *)
Theorem cleanup_changes_no_decision rpm buckets cleaned_at now identity mode :
  (cleaned_at <= now)%Z ->
  (forall b, buckets !! getBucketKey identity = Some b ->
             Forall (fun t => (t <= lastCleanup b)%Z) (requests b)) ->
  let r := checkRateLimit rpm buckets now identity mode in
  let r' := checkRateLimit rpm (cleanupOldBuckets buckets cleaned_at) now identity mode in
  snd r' = snd r /\
  fst r' !! getBucketKey identity = fst r !! getBucketKey identity.
Proof.
  intros Hle Hinv r r'. unfold r, r', checkRateLimit. cbn [fst snd].
  rewrite !lookup_insert_eq.
  assert (H : List.filter (fun timestamp => (now - windowMs <? timestamp)%Z)
                (requests match cleanupOldBuckets buckets cleaned_at !! getBucketKey identity with
                          | Some bucket => bucket | None => mkFallbackBucket [] now end)
            = List.filter (fun timestamp => (now - windowMs <? timestamp)%Z)
                (requests match buckets !! getBucketKey identity with
                          | Some bucket => bucket | None => mkFallbackBucket [] now end)).
  { unfold cleanupOldBuckets.
    destruct (buckets !! getBucketKey identity) as [b|] eqn:Eb.
    - destruct (decide ((windowMs * 2 < cleaned_at - lastCleanup b)%Z)) as [Hold|Hyoung].
      + assert (E : filter (fun kb : string * FallbackBucket =>
                       ~ (windowMs * 2 < cleaned_at - lastCleanup kb.2)%Z) buckets
                    !! getBucketKey identity = None).
        { apply map_lookup_filter_None. right. intros b' Hb'. simpl.
          rewrite Eb in Hb'. injection Hb' as <-. tauto. }
        rewrite E. cbn [requests List.filter]. symmetry.
        specialize (Hinv b eq_refl).
        induction (requests b) as [|t l IHl]; [reflexivity|].
        apply List.Forall_cons_iff in Hinv. destruct Hinv as [Ht Hl].
        simpl. assert (Et : (now - windowMs <? t)%Z = false)
          by (apply Z.ltb_ge; unfold windowMs in *; lia).
        rewrite Et. apply IHl. exact Hl.
      + assert (E : filter (fun kb : string * FallbackBucket =>
                       ~ (windowMs * 2 < cleaned_at - lastCleanup kb.2)%Z) buckets
                    !! getBucketKey identity = Some b).
        { apply map_lookup_filter_Some. split; [exact Eb | exact Hyoung]. }
        rewrite E. reflexivity.
    - assert (E : filter (fun kb : string * FallbackBucket =>
                     ~ (windowMs * 2 < cleaned_at - lastCleanup kb.2)%Z) buckets
                  !! getBucketKey identity = None).
      { apply map_lookup_filter_None. left. exact Eb. }
      rewrite E. reflexivity. }
  rewrite H. split; reflexivity.
Qed.

Lemma cleanup_changes_no_decision_witness :
  let identity := mkIdentity "acme" "alice" "/api" None in
  let buckets : gmap string FallbackBucket :=
    {[ "fallback:acme"%string := mkFallbackBucket [900; 1000]%Z 1000 ]} in
  let r := checkRateLimit 2 buckets 200001 identity enforcement in
  let r' := checkRateLimit 2 (cleanupOldBuckets buckets 200000) 200001 identity enforcement in
  snd r' = snd r /\
  fst r' !! getBucketKey identity = fst r !! getBucketKey identity.
Proof.
  intros identity buckets.
  apply (cleanup_changes_no_decision 2 buckets 200000%Z 200001%Z identity enforcement).
  - lia.
  - intros b Hb. change (buckets !! getBucketKey identity)
      with (Some (mkFallbackBucket [900; 1000]%Z 1000)) in Hb.
    injection Hb as <-. simpl. repeat constructor; lia.
Defined.

End FallbackFacts.

(** ** The check behind breaker and fallback *)

Module RateLimitCheckFacts.
Import CircuitBreaker RateLimitCheck.

Section Check.
Context {D E W : Type}.
Variable clock : W -> Z.
Variable config : CircuitBreakerConfig.
Variable fallbackCheck : W -> D * W.

(** X20: how [checkRateLimit] composes breaker, store check and
    fallback.  With the circuit open and the timeout not over, the answer
    is the fallback's on the world as it is and the breaker is unchanged,
    whatever the store check would do: it is not run.  With the circuit
    closed, a store check that resolves gives the answer and the fallback
    is not run; one that rejects is counted by the breaker and answered
    by the fallback on the world the rejected check left, and the circuit
    opens, for one timeout from then, exactly when the count reaches the
    failure threshold. *)
Theorem check_through_breaker_and_fallback (b : Breaker) (w : W) :
  (state b = OPEN -> (clock w < next_attempt_time b)%Z ->
   forall primary : W -> (D + E) * W,
     checkRateLimit clock config primary fallbackCheck (b, w)
     = (fst (fallbackCheck w), (b, snd (fallbackCheck w)))) /\
  (state b = CLOSED ->
   forall (primary : W -> (D + E) * W) d w', primary w = (inl d, w') ->
     checkRateLimit clock config primary fallbackCheck (b, w)
     = (d, (mkBreaker CLOSED 0 (successes b) (last_failure_time b) (next_attempt_time b),
            w'))) /\
  (state b = CLOSED ->
   forall (primary : W -> (D + E) * W) e w', primary w = (inr e, w') ->
     exists b',
       checkRateLimit clock config primary fallbackCheck (b, w)
       = (fst (fallbackCheck w'), (b', snd (fallbackCheck w'))) /\
       failures b' = (failures b + 1)%Z /\
       (state b' = if (failures b + 1 >=? failure_threshold config)%Z then OPEN else CLOSED) /\
       (state b' = OPEN -> next_attempt_time b' = (clock w' + timeout_ms config)%Z)).
Proof.
  split; [|split].
  - intros Hs Ht primary. unfold checkRateLimit, executeWithFallback. cbn [fst snd].
    rewrite (BreakerFacts.open_fails_fast clock config b primary w Hs Ht). cbn [fst snd].
    destruct (fallbackCheck w) as [d w']. reflexivity.
  - intros Hs primary d w' Hp. unfold checkRateLimit, executeWithFallback. cbn [fst snd].
    rewrite (BreakerClosedFacts.closed_success clock config b primary w d w' Hs Hp).
    reflexivity.
  - intros Hs primary e w' Hp. unfold checkRateLimit, executeWithFallback. cbn [fst snd].
    rewrite (BreakerClosedFacts.closed_failure clock config b primary w e w' Hs Hp).
    cbn [fst snd].
    destruct (fallbackCheck w') as [d w''].
    eexists. split; [reflexivity|].
    destruct (failures b + 1 >=? failure_threshold config)%Z; cbn;
      (split; [reflexivity|]); (split; [reflexivity|]); intros H; try discriminate; reflexivity.
Qed.

End Check.

End RateLimitCheckFacts.

(** ** The middleware *)

Module MiddlewareFacts.
Import Middleware.

(** X21: the middleware answers 429 exactly when the mode is
    enforcement, the identity is valid and the check returned a denial;
    in every other case the request goes on: an invalid identity sets no
    header, a check that throws sets only the error header.  On a 429 the
    Retry-After header is set exactly when the retry hint is defined and
    not zero, and the warning header is never set. *)
Theorem middleware_rejects_only_enforced_denials mode configMode check identity :
  let out := rateLimitMiddleware mode configMode check identity in
  let m := default configMode mode in
  ((exists body, snd out = Status429 body) <->
     m = enforcement /\ validateIdentity identity = true /\
     exists d, check identity m = Some d /\ d_allowed d = false) /\
  (forall body, snd out = Status429 body ->
     (In "Retry-After"%string (header_names (fst out)) <->
      truthy (body_retry_after body) = true) /\
     ~ In "X-RateLimit-Warning"%string (header_names (fst out))) /\
  (validateIdentity identity = false -> out = ([], Next)) /\
  (validateIdentity identity = true -> check identity m = None ->
   out = ([("X-RateLimit-Error"%string, OfText "true")], Next)).
Proof.
  intros out m. unfold out, rateLimitMiddleware. fold m.
  destruct (validateIdentity identity) eqn:V; cbn [negb].
  2:{ split; [split|split; [|split]].
      - intros [body H]. discriminate.
      - intros (_ & H & _). discriminate.
      - intros body H. discriminate.
      - reflexivity.
      - discriminate. }
  destruct (check identity m) as [d|] eqn:C.
  2:{ split; [split|split; [|split]].
      - intros [body H]. discriminate.
      - intros (_ & _ & d & H & _). discriminate.
      - intros body H. discriminate.
      - discriminate.
      - reflexivity. }
  split; [|split; [|split; [discriminate | discriminate]]].
  - destruct (d_allowed d) eqn:A; cbn [negb].
    + split.
      * intros [body H]. discriminate.
      * intros (_ & _ & d' & H & H'). injection H as <-. congruence.
    + destruct m; cbn [snd]; split.
      * intros [body H]. discriminate.
      * intros (H & _). discriminate.
      * intros [body H]. discriminate.
      * intros (H & _). discriminate.
      * intros _. split; [reflexivity|]. split; [reflexivity|]. exists d. auto.
      * intros _. eexists. reflexivity.
  - intros body. destruct (d_allowed d) eqn:A; cbn [negb]; [discriminate|].
    destruct m; cbn [snd]; try discriminate.
    intros H. injection H as <-. cbn [body_retry_after fst].
    unfold header_names.
    destruct (d_state d); destruct (d_retry_after d) as [[z|]|]; cbn [truthy];
      try destruct (z =? 0)%Z; cbn;
      (split; [split; intros H; try discriminate; try tauto;
               repeat (destruct H as [H|H]; try discriminate; try tauto)
              | intros H; repeat (destruct H as [H|H]; try discriminate; try tauto)]).
Qed.

End MiddlewareFacts.

(** ** More on identities *)

Module IdentityMoreFacts.
Import Identity.
Local Open Scope string_scope.

Lemma includes_cons a s c :
  JS.includes (String a s) (String c "") = false ->
  Ascii.eqb a c = false /\ JS.includes s (String c "") = false.
Proof.
  cbn [JS.includes]. intros H. apply orb_false_iff in H as [H1 H2].
  split; [|exact H2].
  simpl in H1. destruct (Ascii.eqb_spec a c) as [->|Hne]; [|reflexivity].
  destruct (ascii_dec c c); [|congruence]. destruct s; discriminate.
Qed.

Lemma split_no_separator c s :
  JS.includes s (String c "") = false -> JS.split c s = [s].
Proof.
  induction s as [|a s IH]; intros H; [reflexivity|].
  apply includes_cons in H as [Ha Hs]. cbn [JS.split]. rewrite Ha, (IH Hs). reflexivity.
Qed.

Lemma split_at_separator c t r :
  JS.includes t (String c "") = false ->
  JS.split c (t ++ String c r) = t :: JS.split c r.
Proof.
  induction t as [|a t IH]; intros H.
  - change ("" ++ String c r) with (String c r). cbn [JS.split].
    rewrite Ascii.eqb_refl. reflexivity.
  - apply includes_cons in H as [Ha Ht].
    change (String a t ++ String c r) with (String a (t ++ String c r)). cbn [JS.split].
    rewrite Ha, (IH Ht). reflexivity.
Qed.

Lemma truthy_nonempty s : s <> "" -> JS.truthy_str (Some s) = true.
Proof. intros H. simpl. destruct (String.eqb_spec s ""); [contradiction | reflexivity]. Qed.

Lemma append_empty_r (s : string) : s ++ "" = s.
Proof.
  induction s as [|a s IH]; [reflexivity|].
  change (String a s ++ "") with (String a (s ++ "")). rewrite IH. reflexivity.
Qed.

(** X22: when no identity comes from a token, an API key of the form
    tenant.user or tenant.user.more, with no dot inside tenant and user,
    names exactly that tenant and user, whatever the tenant and user
    headers hold. *)
Theorem api_key_names_tenant_and_user jwt jwtConfig req t u rest :
  extractFromJWT jwt jwtConfig req = None ->
  headers req !! "x-api-key" = Some (t ++ "." ++ u ++ rest) ->
  JS.includes t "." = false -> JS.includes u "." = false ->
  rest = "" \/ JS.startsWith rest "." = true ->
  extractIdentity jwt jwtConfig req = mkIdentity t u (path req) (Some (getClientIP req)).
Proof.
  intros HJ Hk Ht Hu Hrest. unfold extractIdentity. rewrite HJ.
  unfold extractFromAPIKey. rewrite Hk.
  rewrite truthy_nonempty by (destruct t; discriminate). cbn [negb default].
  change (t ++ "." ++ u ++ rest) with (t ++ String "." (u ++ rest)).
  unfold id. rewrite (split_at_separator "." t (u ++ rest) Ht).
  destruct Hrest as [->|Hr].
  - rewrite append_empty_r, (split_no_separator "." u Hu). reflexivity.
  - destruct rest as [|a rest']; [vm_compute in Hr; discriminate|].
    assert (Ha : a = "."%char).
    { unfold JS.startsWith in Hr. apply String.prefix_correct in Hr.
      cbn in Hr. congruence. }
    subst a.
    rewrite (split_at_separator "." u rest' Hu). reflexivity.
Qed.

Lemma api_key_names_tenant_and_user_witness :
  let jwt := mkJwt (fun _ _ => None) (fun _ => None) in
  let jwtConfig := mkJwtConfig None "Authorization" in
  let req := mkRequest "/api/search"
               (<["x-api-key" := "acme.alice.s3cret"]>
                 (<["x-tenant-id" := "globex"]> ∅))
               (Some "10.0.0.7") None in
  extractIdentity jwt jwtConfig req
  = mkIdentity "acme" "alice" "/api/search" (Some "10.0.0.7").
Proof.
  intros jwt jwtConfig req.
  exact (api_key_names_tenant_and_user jwt jwtConfig req "acme" "alice" ".s3cret"
           eq_refl eq_refl eq_refl eq_refl (or_intror eq_refl)).
Defined.

Lemma map_chars_all (f : ascii -> ascii) (P : ascii -> bool) s :
  (forall a, P (f a) = true) ->
  forallb P (list_ascii_of_string (JS.map_chars f s)) = true /\
  String.length (JS.map_chars f s) = String.length s.
Proof.
  intros H. induction s as [|a s [IH1 IH2]]; [split; reflexivity|].
  cbn. rewrite H, IH1, IH2. split; reflexivity.
Qed.

Lemma trim_start_nonempty s :
  existsb (fun a => negb (JS.is_space a)) (list_ascii_of_string s) = true ->
  exists a r, JS.trim_start s = String a r /\ JS.is_space a = false.
Proof.
  induction s as [|a s IH]; [discriminate|].
  cbn [list_ascii_of_string existsb JS.trim_start].
  destruct (JS.is_space a) eqn:Sp; cbn [negb orb]; [exact IH|].
  intros _. exists a, s. split; [reflexivity | exact Sp].
Qed.

Lemma trim_nonblank s :
  existsb (fun a => negb (JS.is_space a)) (list_ascii_of_string s) = true ->
  JS.trim s <> "".
Proof.
  intros H. unfold JS.trim.
  destruct (trim_start_nonempty s H) as (a & r & -> & Ha).
  assert (H2 : existsb (fun a => negb (JS.is_space a))
                 (list_ascii_of_string (JS.str_rev (String a r))) = true).
  { unfold JS.str_rev. rewrite list_ascii_of_string_of_list_ascii.
    apply existsb_exists. exists a. split; [|rewrite Ha; reflexivity].
    apply in_rev. rewrite rev_involutive. left. reflexivity. }
  destruct (trim_start_nonempty _ H2) as (b & r' & -> & _).
  unfold JS.str_rev. cbn [list_ascii_of_string rev].
  intros E. apply (f_equal list_ascii_of_string) in E.
  rewrite list_ascii_of_string_of_list_ascii in E. cbn in E.
  destruct (rev (list_ascii_of_string r')); discriminate.
Qed.

(** X23: a request with no token identity, no API key and no tenant
    header is the tenant anonymous, with a user made of the prefix ip_
    and the client address in which every character that is not a letter
    or a digit is replaced by an underscore, length kept; that identity
    passes validation exactly when the path is not blank. *)
Theorem anonymous_identity_is_key_safe jwt jwtConfig req :
  extractFromJWT jwt jwtConfig req = None ->
  JS.truthy_str (headers req !! "x-api-key") = false ->
  JS.truthy_str (headers req !! "x-tenant-id") = false ->
  exists s,
    extractIdentity jwt jwtConfig req
    = mkIdentity "anonymous" ("ip_" ++ s) (path req) (Some (getClientIP req)) /\
    forallb (fun a => JS.is_alnum a || Ascii.eqb a "_") (list_ascii_of_string s) = true /\
    String.length s = String.length (getClientIP req) /\
    Middleware.validateIdentity (extractIdentity jwt jwtConfig req)
    = negb (String.eqb (JS.trim (path req)) "").
Proof.
  intros HJ Hk Ht. unfold extractIdentity. rewrite HJ.
  unfold extractFromAPIKey, extractFromHeaders. rewrite Hk, Ht. cbn [negb andb].
  eexists. split; [reflexivity|].
  destruct (map_chars_all (fun a => if JS.is_alnum a then a else "_"%char)
              (fun a => JS.is_alnum a || Ascii.eqb a "_") (getClientIP req)) as [A B].
  { intros a. destruct (JS.is_alnum a) eqn:E; [rewrite E; reflexivity|].
    apply orb_true_iff. right. reflexivity. }
  split; [exact A|]. split; [exact B|].
  unfold Middleware.validateIdentity.
  cbn [tenant_id user_id endpoint].
  change (JS.trim "anonymous") with "anonymous".
  cbn [JS.truthy_str String.eqb negb orb Ascii.eqb].
  set (u := "ip_" ++ _).
  assert (Hu : JS.trim u <> "").
  { apply trim_nonblank. unfold u. reflexivity. }
  assert (Hu0 : String.eqb u "" = false) by reflexivity.
  rewrite Hu0. apply String.eqb_neq in Hu. rewrite Hu. cbn [negb orb].
  destruct (String.eqb_spec (path req) "") as [->|Hp].
  - reflexivity.
  - cbn [negb orb]. destruct (String.eqb (JS.trim (path req)) ""); reflexivity.
Qed.

Lemma anonymous_identity_is_key_safe_witness :
  let jwt := mkJwt (fun _ _ => None) (fun _ => None) in
  let jwtConfig := mkJwtConfig None "Authorization" in
  let req := mkRequest "/api/search" (<["x-forwarded-for" := "10.0.0.7, 172.16.0.1"]> ∅)
               None None in
  exists s,
    extractIdentity jwt jwtConfig req
    = mkIdentity "anonymous" ("ip_" ++ s) "/api/search" (Some (getClientIP req)) /\
    forallb (fun a => JS.is_alnum a || Ascii.eqb a "_") (list_ascii_of_string s) = true /\
    String.length s = String.length (getClientIP req) /\
    Middleware.validateIdentity (extractIdentity jwt jwtConfig req)
    = negb (String.eqb (JS.trim "/api/search") "").
Proof.
  intros jwt jwtConfig req.
  exact (anonymous_identity_is_key_safe jwt jwtConfig req eq_refl eq_refl eq_refl).
Defined.

End IdentityMoreFacts.

(** ** More on the store client *)

Module RedisMoreFacts.
Import RedisClient.

(** X24: a check by a client that holds the digest of the token-bucket
    script, on a reachable server that holds the script, settles with the
    reply of one run of the script on the server's store, with a TTL of
    3600 seconds: one EVALSHA is sent and no SCRIPT LOAD, the store
    becomes the one the script leaves, and the client is unchanged. *)
Theorem script_runs_once_per_check steps c srv now key capacity rate softp hardp :
  reachable srv = true ->
  scriptSHAs c !! SCRIPT_NAME TokenBucketScript = Some (sha1 TokenBucketScript) ->
  sha1 TokenBucketScript ∈ script_cache srv ->
  checkTokenBucket (S steps) c srv now key capacity rate softp hardp
  = let script := Lua.TOKEN_BUCKET_LUA_SCRIPT (store srv) key capacity rate now softp hardp
                    (Some 3600%Z) in
    (Returned (mkReply (Lua.allowed (snd script) =? 1)%Z (Lua.state (snd script))
                 (Lua.Qtrunc (Lua.current_tokens (snd script)))
                 (Lua.Qtrunc (Lua.usage_pct (snd script)))),
     c,
     mkServer true (script_cache srv) (fst script) (script_loads srv) (S (evalsha_calls srv))).
Proof.
  intros Hr Hc Hin. cbn [checkTokenBucket]. rewrite Hc.
  change (negb (JS.truthy_str (Some (sha1 TokenBucketScript)))) with false. cbv iota.
  unfold evalsha. rewrite Hr. cbn [default].
  rewrite bool_decide_eq_true_2 by exact Hin.
  change (String.eqb (id (sha1 TokenBucketScript)) (sha1 TokenBucketScript)) with true. cbv iota.
  destruct (Lua.TOKEN_BUCKET_LUA_SCRIPT (store srv) key capacity rate now softp hardp
              (Some 3600%Z)) as [st' ret].
  unfold Lua.redis_reply. reflexivity.
Qed.

Lemma script_runs_once_per_check_witness :
  let srv := mkServer true {[ sha1 TokenBucketScript; sha1 BatchTokenBucketScript ]} ∅ 2 0 in
  let script := Lua.TOKEN_BUCKET_LUA_SCRIPT ∅ "a" 10 1 1000 80 100 (Some 3600%Z) in
  checkTokenBucket 1 loaded_client srv 1000 "a" 10 1 80 100
  = (Returned (mkReply (Lua.allowed (snd script) =? 1)%Z (Lua.state (snd script))
                 (Lua.Qtrunc (Lua.current_tokens (snd script)))
                 (Lua.Qtrunc (Lua.usage_pct (snd script)))),
     loaded_client,
     mkServer true {[ sha1 TokenBucketScript; sha1 BatchTokenBucketScript ]}
       (fst script) 2 1).
Proof.
  intros srv script.
  apply (script_runs_once_per_check 0 loaded_client srv 1000%Z "a"%string 10 1 80 100
           eq_refl eq_refl).
  unfold srv. simpl. set_solver.
Defined.

End RedisMoreFacts.

(** Powers of two in bounds are evaluated before linear arithmetic. *)
Ltac pow_consts :=
  repeat match goal with
  | |- context [Pos.pow ?a ?b] =>
      let v := eval vm_compute in (Pos.pow a b) in change (Pos.pow a b) with v
  | H : context [Pos.pow ?a ?b] |- _ =>
      let v := eval vm_compute in (Pos.pow a b) in change (Pos.pow a b) with v in H
  end.

(** ** Rounding to binary64 and to fourteen digits *)

Module DoubleFacts.
Import Double.

(** Rounding to the nearest integer, ties to even. *)
Lemma nearest_even_cases q :
  let f := Qfloor q in
  (nearest_even q = f /\ q - inject_Z f <= 1 # 2) \/
  (nearest_even q = (f + 1)%Z /\ 1 # 2 <= q - inject_Z f).
Proof.
  intros f. unfold nearest_even. fold f.
  destruct (Qcompare_spec (q - inject_Z f) (1 # 2)) as [E|E|E].
  - destruct (Z.even f); [left | right]; split; auto; rewrite E; lra.
  - left. split; [reflexivity | lra].
  - right. split; [reflexivity | lra].
Qed.

Lemma nearest_even_err q : Qabs (inject_Z (nearest_even q) - q) <= 1 # 2.
Proof.
  assert (F1 := Qfloor_le q). assert (F2 := Qlt_floor q).
  rewrite inject_Z_plus in F2. change (inject_Z 1) with 1 in F2.
  apply Qabs_Qle_condition.
  destruct (nearest_even_cases q) as [[-> H]|[-> H]].
  - split; lra.
  - rewrite inject_Z_plus. change (inject_Z 1) with 1. split; lra.
Qed.

Lemma nearest_even_proper q q' : q == q' -> nearest_even q = nearest_even q'.
Proof.
  intros E. unfold nearest_even. rewrite (Qfloor_comp _ _ E).
  assert (E2 : q - inject_Z (Qfloor q') == q' - inject_Z (Qfloor q')) by (rewrite E; reflexivity).
  rewrite (Qcompare_comp _ _ E2 (1 # 2) (1 # 2) (Qeq_refl _)). reflexivity.
Qed.

Lemma nearest_even_int z : nearest_even (inject_Z z) = z.
Proof.
  unfold nearest_even. rewrite Qfloor_Z.
  assert (E : inject_Z z - inject_Z z == 0) by ring.
  rewrite (Qcompare_comp _ _ E (1 # 2) (1 # 2) (Qeq_refl _)). reflexivity.
Qed.

Lemma nearest_even_mono q q' : q <= q' -> (nearest_even q <= nearest_even q')%Z.
Proof.
  intros H.
  assert (Hf : (Qfloor q <= Qfloor q')%Z) by (apply Qfloor_resp_le; exact H).
  destruct (Z.eq_dec (Qfloor q) (Qfloor q')) as [E|N].
  - unfold nearest_even. rewrite <- E.
    destruct (Qcompare_spec (q - inject_Z (Qfloor q)) (1 # 2)) as [A|A|A];
    destruct (Qcompare_spec (q' - inject_Z (Qfloor q)) (1 # 2)) as [B|B|B];
    try lia; try (destruct (Z.even (Qfloor q)); lia); exfalso; lra.
  - destruct (nearest_even_cases q) as [[-> _]|[-> _]];
    destruct (nearest_even_cases q') as [[-> _]|[-> _]]; lia.
Qed.

Lemma Qfloor_opp_nonint q : ~ q == inject_Z (Qfloor q) -> Qfloor (- q) = (- Qfloor q - 1)%Z.
Proof.
  intros N. assert (F1 := Qfloor_le q). assert (F2 := Qlt_floor q).
  rewrite inject_Z_plus in F2. change (inject_Z 1) with 1 in F2.
  assert (L : inject_Z (Qfloor q) < q).
  { apply Qle_lteq in F1. destruct F1 as [F1|F1]; [exact F1|]. exfalso. apply N. rewrite F1. reflexivity. }
  assert (A : (- Qfloor q - 1 <= Qfloor (- q))%Z).
  { assert (B : inject_Z (- Qfloor q - 1) <= - q).
    { unfold Z.sub. rewrite inject_Z_plus, inject_Z_opp. change (inject_Z (- (1))) with (- (1)). lra. }
    apply Qfloor_resp_le in B. rewrite Qfloor_Z in B. exact B. }
  assert (B : (Qfloor (- q) < - Qfloor q)%Z).
  { apply Z.lt_nge. intros C. rewrite Zle_Qle in C. rewrite inject_Z_opp in C.
    assert (D := Qfloor_le (- q)). lra. }
  lia.
Qed.

Lemma nearest_even_opp q : nearest_even (- q) = (- nearest_even q)%Z.
Proof.
  destruct (Qeq_dec q (inject_Z (Qfloor q))) as [E|N].
  - rewrite (nearest_even_proper q _ E).
    assert (E' : - q == inject_Z (- Qfloor q)) by (rewrite inject_Z_opp, <- E; reflexivity).
    rewrite (nearest_even_proper (- q) _ E'). rewrite !nearest_even_int. reflexivity.
  - unfold nearest_even. rewrite (Qfloor_opp_nonint q N).
    set (f := Qfloor q) in *.
    assert (Einj : inject_Z (- f - 1) == - inject_Z f - 1).
    { unfold Z.sub. rewrite inject_Z_plus, inject_Z_opp. change (inject_Z (- (1))) with (- (1)). ring. }
    assert (Ev : Z.even (- f - 1) = negb (Z.even f)).
    { replace (- f - 1)%Z with (- (f + 1))%Z by lia. rewrite Z.even_opp.
      replace (f + 1)%Z with (Z.succ f) by lia. rewrite Z.even_succ. rewrite <- Z.negb_even. reflexivity. }
    destruct (Qcompare_spec (q - inject_Z f) (1 # 2)) as [A|A|A];
    destruct (Qcompare_spec (- q - inject_Z (- f - 1)) (1 # 2)) as [B|B|B];
    rewrite ?Einj in B; try (exfalso; lra).
    + rewrite Ev. destruct (Z.even f); simpl; lia.
    + lia.
    + lia.
Qed.


Lemma Qabs_pos_iff x : ~ x == 0 -> 0 < Qabs x.
Proof.
  intros N. assert (H := Qabs_nonneg x). apply Qle_lteq in H. destruct H as [H|H]; [exact H|].
  exfalso. apply N. destruct (Qlt_le_dec x 0) as [L|L].
  - rewrite Qabs_neg in H by lra. lra.
  - rewrite Qabs_pos in H by lra. lra.
Qed.

Section Radix.
Variables (beta : Z) (ilog : Q -> Z) (prec emin : Z).
Hypothesis Hbeta : (2 <= beta)%Z.
Hypothesis Hprec : (1 <= prec)%Z.
Hypothesis Hemin : (emin <= 0)%Z.
Hypothesis Hilog : forall x, 0 < x ->
  inject_Z beta ^ ilog x <= x /\ x < inject_Z beta ^ (ilog x + 1).
Local Abbreviation b := (inject_Z beta).
Local Abbreviation rnd := (round_to beta ilog prec emin).
Local Abbreviation exponent x := (Z.max (ilog (Qabs x)) emin - (prec - 1))%Z.

Lemma radix_gt_1 : 1 < b.
Proof. change 1 with (inject_Z 1). rewrite <- Zlt_Qlt. lia. Qed.

Lemma pow_pos k : 0 < b ^ k.
Proof. apply Qpower_0_lt. pose proof radix_gt_1. lra. Qed.

Lemma pow_add m n : b ^ (m + n) == b ^ m * b ^ n.
Proof. apply Qpower_plus. pose proof radix_gt_1. lra. Qed.

Lemma pow_le m n : (m <= n)%Z -> b ^ m <= b ^ n.
Proof. intros H. apply Qpower_le_compat_l; [exact H | pose proof radix_gt_1; lra]. Qed.

Lemma pow_lt_inv m n : b ^ m < b ^ n -> (m < n)%Z.
Proof. intros H. apply (Qpower_lt_compat_l_inv b); [exact H | exact radix_gt_1]. Qed.

Lemma pow_Z n : (0 <= n)%Z -> inject_Z (beta ^ n) == b ^ n.
Proof. intros H. rewrite Zpower_Qpower by exact H. reflexivity. Qed.

Lemma ilog_unique x k : b ^ k <= x -> x < b ^ (k + 1) -> ilog x = k.
Proof.
  intros H1 H2.
  assert (Hx : 0 < x) by (assert (P := pow_pos k); lra).
  destruct (Hilog x Hx) as [A B].
  assert (ilog x < k + 1)%Z by (apply pow_lt_inv; lra).
  assert (k < ilog x + 1)%Z by (apply pow_lt_inv; lra).
  lia.
Qed.

Lemma ilog_proper x y : 0 < x -> x == y -> ilog x = ilog y.
Proof.
  intros Hx E. symmetry. destruct (Hilog x Hx) as [A B].
  apply ilog_unique; lra.
Qed.

Lemma ilog_mono x y : 0 < x -> x <= y -> (ilog x <= ilog y)%Z.
Proof.
  intros Hx Hxy. destruct (Hilog x Hx) as [A _].
  destruct (Hilog y ltac:(lra)) as [_ B].
  assert (ilog x < ilog y + 1)%Z by (apply pow_lt_inv; lra). lia.
Qed.

(** [round_to] on a number that is not zero. *)
Lemma round_eq x : ~ x == 0 ->
  rnd x == inject_Z (nearest_even (x / b ^ exponent x)) * b ^ exponent x.
Proof.
  intros N. unfold round_to. destruct (Qeq_bool x 0) eqn:E.
  - apply Qeq_bool_eq in E. contradiction.
  - apply Qred_correct.
Qed.

Lemma round_zero x : x == 0 -> rnd x == 0.
Proof.
  intros E. unfold round_to. destruct (Qeq_bool x 0) eqn:B; [reflexivity|].
  apply Qeq_eq_bool in E. congruence.
Qed.

Lemma exponent_proper x y : ~ x == 0 -> x == y -> exponent x = exponent y.
Proof.
  intros N E.
  rewrite (ilog_proper (Qabs x) (Qabs y)); [reflexivity | apply Qabs_pos_iff; exact N |].
  apply Qabs_wd. exact E.
Qed.

Lemma round_proper x y : x == y -> rnd x == rnd y.
Proof.
  intros E. destruct (Qeq_dec x 0) as [Z|N].
  - rewrite (round_zero x Z), (round_zero y); [reflexivity | lra].
  - assert (N' : ~ y == 0) by (intros H; apply N; lra).
    rewrite (round_eq x N), (round_eq y N').
    rewrite <- (exponent_proper x y N E).
    rewrite (nearest_even_proper (x / b ^ exponent x) (y / b ^ exponent x)); [reflexivity|].
    unfold Qdiv. apply Qmult_comp; [exact E | reflexivity].
Qed.

Lemma round_opp x : rnd (- x) == - rnd x.
Proof.
  destruct (Qeq_dec x 0) as [Z|N].
  - rewrite (round_zero x Z), (round_zero (- x)); [reflexivity | lra].
  - assert (N' : ~ - x == 0) by (intros H; apply N; lra).
    rewrite (round_eq x N), (round_eq _ N').
    assert (Ee : exponent (- x) = exponent x).
    { rewrite (ilog_proper (Qabs (- x)) (Qabs x)); [reflexivity | |].
      - apply Qabs_pos_iff; exact N'.
      - apply Qabs_opp. }
    rewrite Ee.
    assert (Eq : - x / b ^ exponent x == - (x / b ^ exponent x)).
    { unfold Qdiv. ring. }
    rewrite (nearest_even_proper _ _ Eq), nearest_even_opp, inject_Z_opp. ring.
Qed.

(** The exponent of a positive number: the unit in the last place is
    [b ^ exponent x]. *)
Lemma exponent_pos x : 0 < x ->
  exponent x = (Z.max (ilog x) emin - (prec - 1))%Z /\
  b ^ ilog x <= x /\ x < b ^ (ilog x + 1).
Proof.
  intros Hx. destruct (Hilog x Hx) as [A B]. split; [|split; assumption].
  rewrite (ilog_proper (Qabs x) x); [reflexivity | |].
  - rewrite Qabs_pos by lra. exact Hx.
  - apply Qabs_pos. lra.
Qed.

Lemma div_pow_le x y e : x <= y -> x / b ^ e <= y / b ^ e.
Proof.
  intros H. unfold Qdiv. apply Qmult_le_compat_r; [exact H|].
  apply Qlt_le_weak, Qinv_lt_0_compat, pow_pos.
Qed.

Lemma round_pos_bounds x : 0 < x ->
  0 <= rnd x /\ rnd x <= b ^ (exponent x + prec) /\
  ((emin <= ilog x)%Z -> b ^ (exponent x + (prec - 1)) <= rnd x).
Proof.
  intros Hx. destruct (exponent_pos x Hx) as (Ee & A & B).
  rewrite (round_eq x) by lra.
  set (e := exponent x) in *. set (k := ilog x) in *.
  assert (Pu := pow_pos e).
  assert (Q0 : 0 <= x / b ^ e).
  { apply Qle_shift_div_l; [exact Pu | lra]. }
  assert (Q1 : x / b ^ e <= inject_Z (beta ^ prec)).
  { apply Qle_shift_div_r; [exact Pu|]. rewrite pow_Z by lia.
    rewrite <- pow_add.
    assert (b ^ (k + 1) <= b ^ (prec + e)) by (apply pow_le; lia). lra. }
  assert (R0 : (0 <= nearest_even (x / b ^ e))%Z).
  { rewrite <- (nearest_even_int 0). apply nearest_even_mono. exact Q0. }
  assert (R1 : (nearest_even (x / b ^ e) <= beta ^ prec)%Z).
  { rewrite <- (nearest_even_int (beta ^ prec)). apply nearest_even_mono. exact Q1. }
  rewrite Zle_Qle in R0, R1. change (inject_Z 0) with 0 in R0.
  split; [|split].
  - apply Qmult_le_0_compat; lra.
  - rewrite (Z.add_comm e prec), pow_add. rewrite <- (pow_Z prec) by lia.
    apply Qmult_le_compat_r; lra.
  - intros Hn.
    assert (Q2 : inject_Z (beta ^ (prec - 1)) <= x / b ^ e).
    { apply Qle_shift_div_l; [exact Pu|]. rewrite pow_Z by lia. rewrite <- pow_add.
      replace (prec - 1 + e)%Z with k by lia. exact A. }
    assert (R2 : (beta ^ (prec - 1) <= nearest_even (x / b ^ e))%Z).
    { rewrite <- (nearest_even_int (beta ^ (prec - 1))) at 1.
      apply nearest_even_mono. exact Q2. }
    rewrite Zle_Qle in R2.
    rewrite (Z.add_comm e (prec - 1)), pow_add. rewrite <- (pow_Z (prec - 1)) by lia.
    apply Qmult_le_compat_r; lra.
Qed.

Lemma round_mono_pos x y : 0 < x -> x <= y -> rnd x <= rnd y.
Proof.
  intros Hx Hxy. assert (Hy : 0 < y) by lra.
  destruct (exponent_pos x Hx) as (Ex & _ & _).
  destruct (exponent_pos y Hy) as (Ey & _ & _).
  assert (Hk := ilog_mono x y Hx Hxy).
  destruct (Z.eq_dec (exponent x) (exponent y)) as [E|N].
  - rewrite (round_eq x), (round_eq y) by lra. rewrite <- E.
    apply Qmult_le_compat_r; [|apply Qlt_le_weak, pow_pos].
    rewrite <- Zle_Qle. apply nearest_even_mono, div_pow_le. exact Hxy.
  - destruct (round_pos_bounds x Hx) as (_ & Ux & _).
    destruct (round_pos_bounds y Hy) as (_ & _ & Ly).
    assert (L := Ly ltac:(lia)).
    assert (b ^ (exponent x + prec) <= b ^ (exponent y + (prec - 1)))
      by (apply pow_le; lia).
    lra.
Qed.

Lemma round_nonneg x : 0 <= x -> 0 <= rnd x.
Proof.
  intros H. destruct (Qeq_dec x 0) as [Z|N].
  - rewrite (round_zero x Z). lra.
  - apply round_pos_bounds. lra.
Qed.

Lemma round_mono x y : x <= y -> rnd x <= rnd y.
Proof.
  intros H.
  destruct (Qlt_le_dec 0 x) as [Px|Nx].
  - apply round_mono_pos; assumption.
  - destruct (Qlt_le_dec y 0) as [Ny|Py].
    + assert (A : rnd (- y) <= rnd (- x)) by (apply round_mono_pos; lra).
      rewrite !round_opp in A. lra.
    + assert (A := round_nonneg y Py).
      assert (B : 0 <= rnd (- x)) by (apply round_nonneg; lra).
      rewrite round_opp in B. lra.
Qed.

Lemma round_half_ulp x : ~ x == 0 -> Qabs (rnd x - x) <= (1 # 2) * b ^ exponent x.
Proof.
  intros N. rewrite (round_eq x N). set (e := exponent x). assert (Pu := pow_pos e).
  assert (E : inject_Z (nearest_even (x / b ^ e)) * b ^ e - x
              == (inject_Z (nearest_even (x / b ^ e)) - x / b ^ e) * b ^ e).
  { field. lra. }
  rewrite E, Qabs_Qmult, (Qabs_pos (b ^ e)) by lra.
  apply Qmult_le_compat_r; [apply nearest_even_err | lra].
Qed.

(** The error of rounding: half a unit in the last place, which is at
    most the relative error [b ^ (1 - prec) / 2] or, below the normal
    range, the absolute error [b ^ (emin - (prec - 1)) / 2]. *)
Lemma round_err_pos x : 0 < x ->
  Qabs (rnd x - x)
    <= (1 # 2) * b ^ (1 - prec) * x + (1 # 2) * b ^ (emin - (prec - 1)).
Proof.
  intros Hx. assert (H := round_half_ulp x ltac:(lra)).
  destruct (exponent_pos x Hx) as (Ee & A & _). rewrite Ee in H.
  set (k := ilog x) in *.
  assert (P1 := pow_pos (1 - prec)). assert (P2 := pow_pos (emin - (prec - 1))).
  destruct (Z_le_gt_dec emin k) as [Hn|Hs].
  - replace (Z.max k emin - (prec - 1))%Z with (k + (1 - prec))%Z in H by lia.
    rewrite pow_add in H.
    assert (b ^ k * b ^ (1 - prec) <= x * b ^ (1 - prec)).
    { apply Qmult_le_compat_r; lra. }
    lra.
  - replace (Z.max k emin - (prec - 1))%Z with (emin - (prec - 1))%Z in H by lia.
    assert (0 <= b ^ (1 - prec) * x) by (apply Qmult_le_0_compat; lra).
    lra.
Qed.

Lemma round_err x :
  Qabs (rnd x - x)
    <= (1 # 2) * b ^ (1 - prec) * Qabs x + (1 # 2) * b ^ (emin - (prec - 1)).
Proof.
  assert (P1 := pow_pos (1 - prec)). assert (P2 := pow_pos (emin - (prec - 1))).
  destruct (Qlt_le_dec 0 x) as [Px|Nx].
  - rewrite (Qabs_pos x) by lra. apply round_err_pos. exact Px.
  - destruct (Qeq_dec x 0) as [Z|N].
    + assert (E : rnd x - x == 0) by (rewrite (round_zero x Z); lra).
      rewrite E. assert (0 <= Qabs x) by apply Qabs_nonneg.
      change (Qabs 0) with 0.
      assert (0 <= b ^ (1 - prec) * Qabs x) by (apply Qmult_le_0_compat; lra).
      lra.
    + assert (Px : 0 < - x) by lra.
      assert (H := round_err_pos (- x) Px).
      rewrite round_opp in H.
      assert (E : - rnd x - - x == - (rnd x - x)) by ring.
      rewrite E, Qabs_opp in H. rewrite (Qabs_neg x) by lra. exact H.
Qed.

(** A number that is a whole multiple of its unit in the last place is
    not changed. *)
Lemma round_exact x n : ~ x == 0 -> x / b ^ exponent x == inject_Z n -> rnd x == x.
Proof.
  intros N E. rewrite (round_eq x N), (nearest_even_proper _ _ E), nearest_even_int, <- E.
  field. assert (P := pow_pos (exponent x)). lra.
Qed.

Lemma round_int_pos z : (0 < z <= beta ^ prec)%Z -> rnd (inject_Z z) == inject_Z z.
Proof.
  intros [H0 H1].
  assert (Hx : 0 < inject_Z z) by (change 0 with (inject_Z 0); rewrite <- Zlt_Qlt; exact H0).
  destruct (exponent_pos _ Hx) as (Ee & A & B).
  set (k := ilog (inject_Z z)) in *.
  assert (K0 : (0 <= k)%Z).
  { assert (k < 0 -> False)%Z; [|lia]. intros C.
    assert (b ^ (k + 1) <= b ^ 0) by (apply pow_le; lia).
    assert (inject_Z 1 <= inject_Z z) by (rewrite <- Zle_Qle; lia).
    change (b ^ 0) with 1 in *. change (inject_Z 1) with 1 in *. lra. }
  assert (K1 : (k <= prec)%Z).
  { assert (k < prec + 1)%Z; [|lia]. apply pow_lt_inv.
    assert (inject_Z z <= inject_Z (beta ^ prec)) by (rewrite <- Zle_Qle; lia).
    rewrite pow_Z in H by lia.
    assert (b ^ prec < b ^ (prec + 1)).
    { apply Qpower_lt_compat_l; [lia | exact radix_gt_1]. }
    lra. }
  destruct (Z.eq_dec k prec) as [Ep|Np].
  - assert (Ez : inject_Z z == b ^ prec).
    { rewrite Ep in A. assert (inject_Z z <= inject_Z (beta ^ prec)) by (rewrite <- Zle_Qle; lia).
      rewrite pow_Z in H by lia. lra. }
    apply (round_exact _ (beta ^ (prec - 1))).
    + lra.
    + rewrite Ee, Ep. replace (Z.max prec emin - (prec - 1))%Z with 1%Z by lia.
      rewrite Ez, pow_Z by lia.
      replace prec with (prec - 1 + 1)%Z at 1 by lia. rewrite pow_add.
      field. change (b ^ 1) with b. pose proof radix_gt_1. lra.
  - apply (round_exact _ (z * beta ^ (prec - 1 - k))).
    + lra.
    + rewrite Ee. replace (Z.max k emin - (prec - 1))%Z with (- (prec - 1 - k))%Z by lia.
      rewrite Qpower_opp, inject_Z_mult, pow_Z by lia.
      field. assert (P := pow_pos (prec - 1 - k)). lra.
Qed.

Lemma round_int z : (Z.abs z <= beta ^ prec)%Z -> rnd (inject_Z z) == inject_Z z.
Proof.
  intros H. destruct (Z.lt_trichotomy z 0) as [L|[E|G]].
  - assert (A : rnd (inject_Z (- z)) == inject_Z (- z)) by (apply round_int_pos; lia).
    rewrite inject_Z_opp, round_opp in A. lra.
  - subst z. reflexivity.
  - apply round_int_pos. lia.
Qed.

End Radix.

Lemma pow2_pos k : 0 < 2 ^ k.
Proof. apply Qpower_0_lt. reflexivity. Qed.

Lemma pow2_succ k : 2 ^ (k + 1) == 2 * 2 ^ k.
Proof. rewrite Qpower_plus by discriminate. change (2 ^ 1) with 2. ring. Qed.

Lemma pow2_le m n : (m <= n)%Z -> 2 ^ m <= 2 ^ n.
Proof. intros H. apply Qpower_le_compat_l; [exact H | discriminate]. Qed.

Lemma pow2_lt_inv m n : 2 ^ m < 2 ^ n -> (m < n)%Z.
Proof. intros H. apply (Qpower_lt_compat_l_inv 2); [exact H | reflexivity]. Qed.

Lemma pow2_Z n : (0 <= n)%Z -> inject_Z (2 ^ n) == 2 ^ n.
Proof. intros H. rewrite Zpower_Qpower by exact H. reflexivity. Qed.

(** [ilog2 x] is the binary exponent of a positive [x]. *)
Lemma ilog2_spec x : 0 < x -> 2 ^ ilog2 x <= x /\ x < 2 ^ (ilog2 x + 1).
Proof.
  intros Hx. destruct x as [n d]. 
  assert (Hn : (0 < n)%Z). { unfold Qlt in Hx. simpl in Hx. lia. }
  unfold ilog2. cbn [Qnum Qden].
  set (a := Z.log2 n). set (b := Z.log2 (Z.pos d)).
  assert (Ha0 : (0 <= a)%Z) by apply Z.log2_nonneg.
  assert (Hb0 : (0 <= b)%Z) by apply Z.log2_nonneg.
  destruct (Z.log2_spec n Hn) as [Ha1 Ha2]. fold a in Ha1, Ha2.
  destruct (Z.log2_spec (Z.pos d) ltac:(lia)) as [Hb1 Hb2]. fold b in Hb1, Hb2.
  assert (Hd : 0 < inject_Z (Z.pos d)) by (unfold Qlt; simpl; lia).
  assert (Ex : n # d == inject_Z n / inject_Z (Z.pos d)).
  { rewrite Qmake_Qdiv. reflexivity. }
  assert (Qa1 : 2 ^ a <= inject_Z n).
  { rewrite <- pow2_Z by exact Ha0. rewrite <- Zle_Qle. exact Ha1. }
  assert (Qa2 : inject_Z n < 2 ^ (a + 1)).
  { rewrite <- pow2_Z by lia. rewrite <- Zlt_Qlt. replace (a + 1)%Z with (Z.succ a) by lia. exact Ha2. }
  assert (Qb1 : 2 ^ b <= inject_Z (Z.pos d)).
  { rewrite <- pow2_Z by exact Hb0. rewrite <- Zle_Qle. exact Hb1. }
  assert (Qb2 : inject_Z (Z.pos d) < 2 ^ (b + 1)).
  { rewrite <- pow2_Z by lia. rewrite <- Zlt_Qlt. replace (b + 1)%Z with (Z.succ b) by lia. exact Hb2. }
  assert (Pa := pow2_pos a). assert (Pb := pow2_pos b).
  assert (Pk := pow2_pos (a - b)).
  assert (Ek : 2 ^ (a - b) * 2 ^ b == 2 ^ a).
  { rewrite <- Qpower_plus by discriminate. replace (a - b + b)%Z with a by lia. reflexivity. }
  assert (Hup : n # d < 2 ^ (a - b + 1)).
  { rewrite Ex. apply Qlt_shift_div_r; [exact Hd|].
    rewrite pow2_succ. rewrite pow2_succ in Qa2. nra. }
  assert (Hlo : 2 ^ (a - b - 1 ) <= n # d).
  { rewrite Ex. apply Qle_shift_div_l; [exact Hd|].
    assert (E1 : 2 ^ (a - b) == 2 * 2 ^ (a - b - 1)).
    { rewrite <- pow2_succ. replace (a - b - 1 + 1)%Z with (a - b)%Z by lia. reflexivity. }
    rewrite pow2_succ in Qb2. assert (P1 := pow2_pos (a - b - 1)). nra. }
  destruct (Qle_bool (2 ^ (a - b)) (n # d)) eqn:E.
  - apply Qle_bool_iff in E. split; assumption.
  - split; [exact Hlo|].
    replace (a - b - 1 + 1)%Z with (a - b)%Z by lia.
    apply Qnot_le_lt. intros H. apply Qle_bool_iff in H. congruence.
Qed.


(** [ilog10 x] is the decimal exponent of a positive [x]. *)
Lemma pow10_pos k : 0 < 10 ^ k.
Proof. apply Qpower_0_lt. reflexivity. Qed.

Lemma pow10_succ k : 10 ^ (k + 1) == 10 * 10 ^ k.
Proof. rewrite Qpower_plus by discriminate. change (10 ^ 1) with 10. ring. Qed.

Lemma pow10_pred k : 10 ^ k == 10 * 10 ^ (k - 1).
Proof. rewrite <- pow10_succ. replace (k - 1 + 1)%Z with k by lia. reflexivity. Qed.

Lemma pow2_le_pow10 n : (0 <= n)%Z -> 2 ^ n <= 10 ^ n.
Proof.
  intros H. pattern n. apply natlike_ind; [discriminate | | exact H].
  intros k Hk IH. unfold Z.succ. rewrite pow2_succ, pow10_succ.
  assert (P := pow2_pos k). lra.
Qed.

Lemma ilog10_up_spec fuel : forall k x,
  10 ^ k <= x -> x < 10 ^ (k + Z.of_nat fuel) ->
  10 ^ ilog10_up fuel k x <= x /\ x < 10 ^ (ilog10_up fuel k x + 1).
Proof.
  induction fuel as [|f IH]; intros k x H1 H2.
  - exfalso. replace (k + Z.of_nat 0)%Z with k in H2 by lia. lra.
  - cbn [ilog10_up]. destruct (Qle_bool (10 ^ (k + 1)) x) eqn:E.
    + apply Qle_bool_iff in E. apply IH; [exact E|].
      replace (k + 1 + Z.of_nat f)%Z with (k + Z.of_nat (S f))%Z by lia. exact H2.
    + split; [exact H1|]. apply Qnot_le_lt. intros C. apply Qle_bool_iff in C. congruence.
Qed.

Lemma ilog10_down_spec fuel : forall k x,
  x < 10 ^ (k + 1) -> 10 ^ (k - Z.of_nat fuel) <= x ->
  10 ^ ilog10_down fuel k x <= x /\ x < 10 ^ (ilog10_down fuel k x + 1).
Proof.
  induction fuel as [|f IH]; intros k x H1 H2.
  - cbn [ilog10_down]. replace (k - Z.of_nat 0)%Z with k in H2 by lia. split; assumption.
  - cbn [ilog10_down]. destruct (Qle_bool (10 ^ k) x) eqn:E.
    + apply Qle_bool_iff in E. split; assumption.
    + apply IH.
      * replace (k - 1 + 1)%Z with k by lia.
        apply Qnot_le_lt. intros C. apply Qle_bool_iff in C. congruence.
      * replace (k - 1 - Z.of_nat f)%Z with (k - Z.of_nat (S f))%Z by lia. exact H2.
Qed.

Lemma ilog10_spec x : 0 < x -> 10 ^ ilog10 x <= x /\ x < 10 ^ (ilog10 x + 1).
Proof.
  intros Hx. destruct x as [n d].
  assert (Hn : (0 < n)%Z). { unfold Qlt in Hx. simpl in Hx. lia. }
  unfold ilog10. cbn [Qnum Qden].
  set (a := Z.log2 n). set (c := Z.log2 (Z.pos d)).
  assert (Ha0 : (0 <= a)%Z) by apply Z.log2_nonneg.
  assert (Hc0 : (0 <= c)%Z) by apply Z.log2_nonneg.
  destruct (Z.log2_spec n Hn) as [_ Ha2]. fold a in Ha2.
  destruct (Z.log2_spec (Z.pos d) ltac:(lia)) as [_ Hc2]. fold c in Hc2.
  assert (Hd : 0 < inject_Z (Z.pos d)) by (unfold Qlt; simpl; lia).
  assert (Hd1 : 1 <= inject_Z (Z.pos d)).
  { change 1 with (inject_Z 1). rewrite <- Zle_Qle. lia. }
  assert (Hn1 : 1 <= inject_Z n).
  { change 1 with (inject_Z 1). rewrite <- Zle_Qle. lia. }
  assert (Ex : n # d == inject_Z n / inject_Z (Z.pos d)).
  { rewrite Qmake_Qdiv. reflexivity. }
  assert (Qa2 : inject_Z n < 10 ^ (a + 1)).
  { assert (inject_Z n < 2 ^ (a + 1)).
    { rewrite <- pow2_Z by lia. rewrite <- Zlt_Qlt.
      replace (a + 1)%Z with (Z.succ a) by lia. exact Ha2. }
    pose proof (pow2_le_pow10 (a + 1) ltac:(lia)). lra. }
  assert (Qc2 : inject_Z (Z.pos d) < 10 ^ (c + 1)).
  { assert (inject_Z (Z.pos d) < 2 ^ (c + 1)).
    { rewrite <- pow2_Z by lia. rewrite <- Zlt_Qlt.
      replace (c + 1)%Z with (Z.succ c) by lia. exact Hc2. }
    pose proof (pow2_le_pow10 (c + 1) ltac:(lia)). lra. }
  assert (Hup : n # d < 10 ^ (a + 1)).
  { rewrite Ex. apply Qlt_shift_div_r; [exact Hd|].
    assert (P := pow10_pos (a + 1)). nra. }
  assert (Hlo : 10 ^ (- (c + 1)) <= n # d).
  { rewrite Ex, Qpower_opp. apply Qle_shift_div_l; [exact Hd|].
    assert (P := pow10_pos (c + 1)).
    assert (E : / 10 ^ (c + 1) * inject_Z (Z.pos d) == inject_Z (Z.pos d) / 10 ^ (c + 1))
      by (field; lra).
    rewrite E. apply Qle_shift_div_r; [exact P|]. nra. }
  set (fuel := Z.to_nat (a + c + 1)).
  assert (Hf : Z.of_nat fuel = (a + c + 1)%Z) by (unfold fuel; lia).
  destruct (Qle_bool 1 (n # d)) eqn:E1.
  - apply Qle_bool_iff in E1. apply ilog10_up_spec; [exact E1|].
    assert (10 ^ (a + 1) <= 10 ^ (0 + Z.of_nat fuel)).
    { apply Qpower_le_compat_l; [lia | discriminate]. }
    lra.
  - apply ilog10_down_spec.
    + replace (-1 + 1)%Z with 0%Z by lia. change (10 ^ 0) with 1.
      apply Qnot_le_lt. intros C. apply Qle_bool_iff in C. congruence.
    + assert (10 ^ (-1 - Z.of_nat fuel) <= 10 ^ (- (c + 1))).
      { apply Qpower_le_compat_l; [lia | discriminate]. }
      lra.
Qed.

(** Rounding to the nearest double has the four properties the
    statements on doubles rely on. *)
Theorem round_binary64_like : binary64_like round.
Proof.
  assert (B : (2 <= 2)%Z) by lia.
  assert (P : (1 <= 53)%Z) by lia.
  assert (M : (-1022 <= 0)%Z) by lia.
  split.
  - exact (round_proper 2 ilog2 53 (-1022) B ilog2_spec).
  - exact (round_mono 2 ilog2 53 (-1022) B P ilog2_spec).
  - exact (round_int 2 ilog2 53 (-1022) B P M ilog2_spec).
  - intros x. pose proof (round_err 2 ilog2 53 (-1022) B ilog2_spec x) as H.
    assert (E1 : (1 # 2) * inject_Z 2 ^ (1 - 53) == 1 # 2 ^ 53) by reflexivity.
    assert (E2 : (1 # 2) * inject_Z 2 ^ (-1022 - (53 - 1)) == 1 # 2 ^ 1075) by reflexivity.
    rewrite E1, E2 in H. exact H.
Qed.

(** Writing a number with 14 significant digits and reading it back
    is monotone and changes it by at most [2 ^ -44] of its magnitude. *)
Theorem reread_reread_like : reread_like reread.
Proof.
  assert (B : (2 <= 10)%Z) by lia.
  assert (P : (1 <= 14)%Z) by lia.
  destruct round_binary64_like as [_ Rm _ Re].
  split.
  - intros x y H. unfold reread. apply Rm.
    apply (round_mono 10 ilog10 14 (-400) B P ilog10_spec). exact H.
  - intros x. unfold reread.
    pose proof (round_err 10 ilog10 14 (-400) B ilog10_spec x) as H.
    fold decimal14 in H.
    assert (E1 : (1 # 2) * inject_Z 10 ^ (1 - 14) == 1 # 20000000000000) by reflexivity.
    rewrite E1 in H.
    assert (E2 : (1 # 2) * inject_Z 10 ^ (-400 - (14 - 1)) <= 1 # 2 ^ 1200)
      by (vm_compute; discriminate).
    pose proof (Re (decimal14 x)) as H2.
    set (d := decimal14 x) in *.
    assert (T : Qabs (round d - x) <= Qabs (round d - d) + Qabs (d - x)).
    { assert (E : round d - x == (round d - d) + (d - x)) by ring.
      rewrite E. apply Qabs_triangle. }
    assert (D : Qabs d <= Qabs x + Qabs (d - x)).
    { assert (E : d == x + (d - x)) by ring.
      rewrite E at 1. apply Qabs_triangle. }
    assert (A0 := Qabs_nonneg x).
    generalize dependent (Qabs (round d - x)). intros r0 T.
    generalize dependent (Qabs (round d - d)). intros r1 H2 T.
    generalize dependent (Qabs (d - x)). intros r2 H D T.
    generalize dependent (Qabs d). intros r3 H2 D.
    generalize dependent (Qabs x). intros r4; intros.
    generalize dependent ((1 # 2) * inject_Z 10 ^ (-400 - (14 - 1))). intros t; intros.
    pow_consts. lra.
Qed.

End DoubleFacts.

(** ** Consequences of the properties of rounding *)

Module RoundingFacts.
Import Double.

Section Rounding.
Variable rnd : Q -> Q.
Hypothesis Hrnd : binary64_like rnd.

Lemma rnd_zero : rnd 0 == 0.
Proof. apply (rnd_int rnd Hrnd 0). vm_compute. discriminate. Qed.

Lemma rnd_nonneg x : 0 <= x -> 0 <= rnd x.
Proof. intros H. rewrite <- rnd_zero. apply (rnd_mono rnd Hrnd). exact H. Qed.

Lemma rnd_nonpos x : x <= 0 -> rnd x <= 0.
Proof. intros H. rewrite <- rnd_zero. apply (rnd_mono rnd Hrnd). exact H. Qed.

Lemma rnd_fix_le x c : rnd c == c -> x <= c -> rnd x <= c.
Proof. intros E H. rewrite <- E. apply (rnd_mono rnd Hrnd). exact H. Qed.

Lemma rnd_fix_ge x c : rnd c == c -> c <= x -> c <= rnd x.
Proof. intros E H. rewrite <- E. apply (rnd_mono rnd Hrnd). exact H. Qed.

Lemma rnd_le_int x z : (Z.abs z <= 2 ^ 53)%Z -> x <= inject_Z z -> rnd x <= inject_Z z.
Proof. intros Hz. apply rnd_fix_le. apply (rnd_int rnd Hrnd). exact Hz. Qed.

Lemma rnd_ge_int x z : (Z.abs z <= 2 ^ 53)%Z -> inject_Z z <= x -> inject_Z z <= rnd x.
Proof. intros Hz. apply rnd_fix_ge. apply (rnd_int rnd Hrnd). exact Hz. Qed.

Lemma rnd_near x M : - M <= x -> x <= M ->
  x - (1 # 2 ^ 53) * M - (1 # 2 ^ 1075) <= rnd x /\
  rnd x <= x + (1 # 2 ^ 53) * M + (1 # 2 ^ 1075).
Proof.
  intros H1 H2. pose proof (rnd_err rnd Hrnd x) as E.
  apply Qabs_Qle_condition in E. destruct E as [E1 E2].
  assert (A : Qabs x <= M) by (apply Qabs_Qle_condition; split; assumption).
  assert (B : (1 # 2 ^ 53) * Qabs x <= (1 # 2 ^ 53) * M).
  { apply Qmult_le_l; [reflexivity | exact A]. }
  split; lra.
Qed.

Lemma rnd_near_pos x : 0 <= x ->
  x - (1 # 2 ^ 53) * x - (1 # 2 ^ 1075) <= rnd x /\
  rnd x <= x + (1 # 2 ^ 53) * x + (1 # 2 ^ 1075).
Proof. intros H. apply rnd_near; lra. Qed.

End Rounding.

Section Stored.
Variable str : Q -> Q.
Hypothesis Hstr : reread_like str.

Lemma str_fix_le x c : str c == c -> x <= c -> str x <= c.
Proof. intros E H. rewrite <- E. apply (str_mono str Hstr). exact H. Qed.

Lemma str_near x M : - M <= x -> x <= M ->
  x - (1 # 2 ^ 44) * M - (1 # 2 ^ 1074) <= str x /\
  str x <= x + (1 # 2 ^ 44) * M + (1 # 2 ^ 1074).
Proof.
  intros H1 H2. pose proof (str_err str Hstr x) as E.
  apply Qabs_Qle_condition in E. destruct E as [E1 E2].
  assert (A : Qabs x <= M) by (apply Qabs_Qle_condition; split; assumption).
  assert (B : (1 # 2 ^ 44) * Qabs x <= (1 # 2 ^ 44) * M).
  { apply Qmult_le_l; [reflexivity | exact A]. }
  split; lra.
Qed.

End Stored.

End RoundingFacts.

(** ** The token-bucket script on doubles *)

Module LuaDoubleFacts.
Import Lua LuaFacts Double RoundingFacts.

(** With exact arithmetic and an exact round trip the script on doubles
    is the script of [Lua]. *)
Lemma exact_script :
  LuaDouble.TOKEN_BUCKET_LUA_SCRIPT (fun x => x) (fun x => x) = TOKEN_BUCKET_LUA_SCRIPT.
Proof. reflexivity. Qed.

Section Shape.
Variables rnd str : Q -> Q.

(** The three ways a run ends. *)
Lemma script_cases store key capacity rate now softp hardp ttl :
  let t := LuaDouble.refilled_tokens rnd store key capacity rate now in
  let l := snd (LuaDouble.refill rnd capacity rate now (HMGET store key)) in
  let t1 := rnd (t - 1) in
  let U := LuaDouble.usage_of rnd capacity in
  let run :=
    LuaDouble.TOKEN_BUCKET_LUA_SCRIPT rnd str store key capacity rate now softp hardp ttl in
  (hardp <= U t /\ run = (store, mkReturn 0 2 t (U t))) \/
  (U t < hardp /\ hardp <= U t1 /\ run = (store, mkReturn 0 2 (rnd (t1 + 1)) (U t1))) \/
  (U t < hardp /\ U t1 < hardp /\
   exists st, (st = 0 \/ st = 1)%Z /\
     run = (<[key := mkBucket (str t1) l (default 3600%Z ttl)]> store,
            mkReturn 1 st t1 (U t1))).
Proof.
  intros t l t1 U run. unfold run, LuaDouble.TOKEN_BUCKET_LUA_SCRIPT.
  unfold t1, t, l, LuaDouble.refilled_tokens.
  destruct (LuaDouble.refill rnd capacity rate now (HMGET store key)) as [tk lk].
  cbn [fst snd]. unfold classify. fold U.
  destruct (Qge_bool (U tk) hardp) eqn:H1.
  - apply Qge_bool_true in H1. left. split; [exact H1 | reflexivity].
  - apply Qge_bool_false in H1. right.
    assert (Hc : forall st0, (st0 = 0 \/ st0 = 1)%Z ->
      let locals := LuaDouble.consume rnd capacity softp hardp (mkReturn 1 st0 tk (U tk)) in
      (U tk < hardp /\ hardp <= U (rnd (tk - 1)) /\
       (if (allowed locals =? 1)%Z
        then (<[key:=mkBucket (str (current_tokens locals)) lk (default 3600%Z ttl)]> store,
              locals)
        else (store, locals))
       = (store, mkReturn 0 2 (rnd (rnd (tk - 1) + 1)) (U (rnd (tk - 1))))) \/
      (U tk < hardp /\ U (rnd (tk - 1)) < hardp /\
       exists st, (st = 0 \/ st = 1)%Z /\
       (if (allowed locals =? 1)%Z
        then (<[key:=mkBucket (str (current_tokens locals)) lk (default 3600%Z ttl)]> store,
              locals)
        else (store, locals))
       = (<[key := mkBucket (str (rnd (tk - 1))) lk (default 3600%Z ttl)]> store,
          mkReturn 1 st (rnd (tk - 1)) (U (rnd (tk - 1)))))).
    { intros st0 Hst0. unfold LuaDouble.consume. cbn [allowed current_tokens state Z.eqb Pos.eqb].
      fold U.
      destruct (Qge_bool (U (rnd (tk - 1))) hardp) eqn:H2.
      - apply Qge_bool_true in H2. left. cbn. auto.
      - apply Qge_bool_false in H2. right. split; [exact H1|]. split; [exact H2|].
        destruct (Qge_bool (U (rnd (tk - 1))) softp); cbn; eauto. }
    destruct (Qge_bool (U tk) softp); apply Hc; auto.
Qed.

(** X2: whatever the rounding of the arithmetic and of [tostring], for
    a positive capacity the flag and the state of a return agree
    (allowed is 1 exactly in states 0 and 1, and 0 exactly in state 2),
    and an allowed call returns the refilled amount less one, rounded,
    reports the usage the script computes for that amount, which
    compared below the hard threshold, and writes that amount, as
    [tostring] renders it, with the new refill time and the TTL under
    the key. *)
Theorem allowed_consumes_one store key capacity rate now softp hardp ttl store' ret :
  0 < capacity ->
  LuaDouble.TOKEN_BUCKET_LUA_SCRIPT rnd str store key capacity rate now softp hardp ttl
    = (store', ret) ->
  (allowed ret = 1%Z \/ allowed ret = 0%Z) /\
  (allowed ret = 1%Z <-> (state ret = 0%Z \/ state ret = 1%Z)) /\
  (allowed ret = 0%Z <-> state ret = 2%Z) /\
  (allowed ret = 1%Z ->
     current_tokens ret
       = rnd (LuaDouble.refilled_tokens rnd store key capacity rate now - 1) /\
     usage_pct ret = LuaDouble.usage_of rnd capacity (current_tokens ret) /\
     usage_pct ret < hardp /\
     store' = <[key := mkBucket (str (current_tokens ret))
                          (snd (LuaDouble.refill rnd capacity rate now (HMGET store key)))
                          (default 3600%Z ttl)]> store).
Proof.
  intros _ Hs.
  destruct (script_cases store key capacity rate now softp hardp ttl)
    as [(Hu & E)|[(Hu & Hu' & E)|(Hu & Hu' & st & Hst & E)]];
    rewrite Hs in E; inversion E; subst; clear E; cbn [allowed state current_tokens usage_pct].
  - split; [auto|]. split; [split; [discriminate | intros [H|H]; discriminate]|].
    split; [tauto|]. discriminate.
  - split; [auto|]. split; [split; [discriminate | intros [H|H]; discriminate]|].
    split; [tauto|]. discriminate.
  - split; [auto|]. split; [tauto|].
    split; [split; [discriminate | destruct Hst; subst; discriminate]|].
    intros _. auto.
Qed.

End Shape.

Section Refill.
Variable rnd : Q -> Q.
Hypothesis Hrnd : binary64_like rnd.

(** A count whose computed usage is below the hard threshold is not
    far below the capacity. *)
Lemma usage_bound C hardp T :
  0 < C -> C <= 1048576 -> T <= C -> LuaDouble.usage_of rnd C T < hardp ->
  (C - T) * (1 - (1 # 2 ^ 51)) < C * hardp / 100 + (1 # 2 ^ 1000).
Proof.
  intros HC HCB HT Hu. unfold LuaDouble.usage_of in Hu.
  set (c := C - T) in *. assert (Hc : 0 <= c) by (unfold c; lra).
  set (c1 := rnd c) in *.
  destruct (rnd_near_pos rnd Hrnd c Hc) as [L1 _]. fold c1 in L1.
  assert (Hc1 : 0 <= c1) by (apply (rnd_nonneg rnd Hrnd); exact Hc).
  set (w := c1 / C) in *.
  assert (Hw : 0 <= w) by (apply Qle_shift_div_l; [exact HC | lra]).
  assert (EwC : w * C == c1) by (unfold w; field; lra).
  set (q := rnd w) in *.
  destruct (rnd_near_pos rnd Hrnd w Hw) as [L2 _]. fold q in L2.
  assert (Hq : 0 <= q) by (apply (rnd_nonneg rnd Hrnd); exact Hw).
  assert (Hq100 : 0 <= q * 100) by lra.
  destruct (rnd_near_pos rnd Hrnd (q * 100) Hq100) as [L3 _].
  set (u := rnd (q * 100)) in *.
  assert (A : (1 - (1 # 2 ^ 52)) * 100 * w < hardp + (1 # 2 ^ 1060)) by (pow_consts; lra).
  assert (A' : (1 - (1 # 2 ^ 52)) * 100 * w * C < (hardp + (1 # 2 ^ 1060)) * C).
  { apply Qmult_lt_compat_r; [exact HC | exact A]. }
  assert (E1 : (1 - (1 # 2 ^ 52)) * 100 * w * C == (1 - (1 # 2 ^ 52)) * 100 * c1).
  { rewrite <- EwC. ring. }
  assert (E2 : (hardp + (1 # 2 ^ 1060)) * C == 100 * (C * hardp / 100) + (1 # 2 ^ 1060) * C).
  { field. }
  rewrite E1, E2 in A'. clear E1 E2 A L2 L3 EwC.
  generalize dependent (C * hardp / 100). intros P HA. pow_consts. lra.
Qed.

Lemma elapsed_pos t L : (L < t)%Z -> 0 < rnd (rnd (inject_Z (t - L)) / 1000).
Proof.
  intros H.
  assert (A : inject_Z 1 <= rnd (inject_Z (t - L))).
  { apply (rnd_ge_int rnd Hrnd); [vm_compute; discriminate|]. rewrite <- Zle_Qle. lia. }
  change (inject_Z 1) with 1 in A.
  assert (B : 1 # 1000 <= rnd (inject_Z (t - L)) / 1000).
  { apply Qle_shift_div_l; [reflexivity | lra]. }
  destruct (rnd_near_pos rnd Hrnd (rnd (inject_Z (t - L)) / 1000) ltac:(lra)) as [L1 _].
  pow_consts. lra.
Qed.

Lemma elapsed_nonpos t L : (t <= L)%Z -> rnd (rnd (inject_Z (t - L)) / 1000) <= 0.
Proof.
  intros H. apply (rnd_nonpos rnd Hrnd).
  assert (A : rnd (inject_Z (t - L)) <= 0).
  { apply (rnd_nonpos rnd Hrnd). change 0 with (inject_Z 0). rewrite <- Zle_Qle. lia. }
  apply Qle_shift_div_r; [reflexivity | lra].
Qed.

Lemma refill_stored key C r store b t :
  store !! key = Some b ->
  LuaDouble.refill rnd C r t (HMGET store key)
  = if (last_refill_ms b <? t)%Z
    then (Qmin C (rnd (tokens b
            + rnd (rnd (rnd (inject_Z (t - last_refill_ms b)) / 1000) * r))), t)
    else (tokens b, last_refill_ms b).
Proof.
  intros E. unfold LuaDouble.refill, HMGET. rewrite E. cbn [fst snd default from_option id].
  destruct (Z.ltb_spec (last_refill_ms b) t) as [L|L].
  - pose proof (elapsed_pos t _ L) as P. apply Qgt_bool_true in P. rewrite P. reflexivity.
  - pose proof (elapsed_nonpos t _ L) as P. apply Qgt_bool_false in P. rewrite P. reflexivity.
Qed.

Lemma refill_absent key C r store t :
  store !! key = None -> LuaDouble.refill rnd C r t (HMGET store key) = (C, t).
Proof.
  intros E. unfold LuaDouble.refill, HMGET. rewrite E. cbn [fst snd default from_option id].
  pose proof (elapsed_nonpos t t ltac:(lia)) as P. apply Qgt_bool_false in P.
  rewrite P. reflexivity.
Qed.

(** The tokens added are not negative when the rate is not. *)
Lemma tokens_to_add_nonneg r t L :
  0 <= r -> (L < t)%Z -> 0 <= rnd (rnd (rnd (inject_Z (t - L)) / 1000) * r).
Proof.
  intros Hr H. apply (rnd_nonneg rnd Hrnd). apply Qmult_le_0_compat; [|exact Hr].
  apply Qlt_le_weak, elapsed_pos. exact H.
Qed.

(** The refilled count is between the stored count, or the capacity if
    that is less, and the capacity. *)
Lemma refilled_range key C r store t lo :
  0 <= r -> rnd C == C -> lo <= C -> rnd lo == lo ->
  match store !! key with Some b => lo <= tokens b /\ tokens b <= C | None => True end ->
  lo <= LuaDouble.refilled_tokens rnd store key C r t /\
  LuaDouble.refilled_tokens rnd store key C r t <= C.
Proof.
  intros Hr HCr Hlo Hlor H. unfold LuaDouble.refilled_tokens.
  destruct (store !! key) as [b|] eqn:E.
  - rewrite (refill_stored key C r store b t E).
    destruct (Z.ltb_spec (last_refill_ms b) t) as [L|L]; cbn [fst]; [|exact H].
    pose proof (tokens_to_add_nonneg r t _ Hr L) as Ha.
    split; [|apply Q.le_min_l].
    apply Q.min_glb; [exact Hlo|].
    apply (rnd_fix_ge rnd Hrnd); [exact Hlor | lra].
  - rewrite (refill_absent key C r store t E). cbn [fst]. split; lra.
Qed.

End Refill.

Section Stored.
Variables rnd str : Q -> Q.
Hypothesis Hrnd : binary64_like rnd.
Hypothesis Hstr : reread_like str.
Variables (key : string) (C r softp hardp : Q) (ttl : option Z).
Hypothesis HC : 0 < C.
Hypothesis HCB : C <= 1048576.
Hypothesis HCr : rnd C == C.
Hypothesis HCs : str C == C.
Hypothesis Hr : 0 <= r.
Hypothesis Hh : 0 < hardp.
Hypothesis HHB : C * hardp / 100 <= 1048576.
#[local] Set Default Proof Using "All".

(** What an allowed call writes, for a refilled count [T1] that is not
    far below the capacity. *)
Lemma allowed_write T1 :
  - (1048577) <= T1 -> T1 <= C ->
  LuaDouble.usage_of rnd C (rnd (T1 - 1)) < hardp ->
  str (rnd (T1 - 1)) <= C /\
  C - str (rnd (T1 - 1)) < C * hardp / 100 + (1 # 2 ^ 20) /\
  str (rnd (T1 - 1)) <= T1 - 1 + (1 # 2 ^ 23) + (1 # 2 ^ 31).
Proof.
  intros H1 H2 HU.
  set (t1 := rnd (T1 - 1)) in *.
  assert (Ht1C : t1 <= C) by (apply (rnd_fix_le rnd Hrnd); [exact HCr | lra]).
  assert (Ht1lo : - (1048578) <= t1).
  { change (- (1048578)) with (inject_Z (- 1048578)).
    apply (rnd_ge_int rnd Hrnd); [vm_compute; discriminate|].
    change (inject_Z (- 1048578)) with (- (1048578)). lra. }
  destruct (rnd_near rnd Hrnd (T1 - 1) 2097152 ltac:(lra) ltac:(lra)) as [_ U1].
  fold t1 in U1.
  pose proof (usage_bound rnd Hrnd C hardp t1 HC HCB Ht1C HU) as UB.
  destruct (str_near str Hstr t1 2097152 ltac:(lra) ltac:(lra)) as [S1 S2].
  split; [apply (str_fix_le str Hstr); assumption|].
  generalize dependent (C * hardp / 100). intros P HP UB.
  split; pow_consts; lra.
Qed.

Lemma stored_lower store :
  LuaDouble.below_hard key C hardp store ->
  match store !! key with
  | Some b => - (1048577) <= tokens b /\ tokens b <= C
  | None => True
  end.
Proof.
  unfold LuaDouble.below_hard. destruct (store !! key) as [b|]; [|auto].
  intros [A B]. split; [|exact A].
  generalize dependent (C * hardp / 100). intros P HP B. pow_consts. lra.
Qed.

Lemma below_hard_step store t :
  LuaDouble.below_hard key C hardp store ->
  LuaDouble.below_hard key C hardp
    (fst (LuaDouble.TOKEN_BUCKET_LUA_SCRIPT rnd str store key C r t softp hardp ttl)).
Proof.
  intros Hb.
  destruct (script_cases rnd str store key C r t softp hardp ttl)
    as [(Hu & E)|[(Hu & Hu' & E)|(Hu & Hu' & st & Hst & E)]]; rewrite E; cbn [fst];
    try exact Hb.
  unfold LuaDouble.below_hard. rewrite lookup_insert_eq. cbn [tokens].
  destruct (refilled_range rnd Hrnd key C r store t (- (1048577)) Hr HCr ltac:(lra))
    as [R1 R2].
  { apply (rnd_int rnd Hrnd (- 1048577)). vm_compute. discriminate. }
  { apply stored_lower. exact Hb. }
  destruct (allowed_write _ R1 R2 Hu') as (A & B & _). split; assumption.
Qed.

(** X4: on doubles, for a capacity [0 < C <= 2^20] that is a double
    and that [tostring] writes in full, a refill rate that is not
    negative and a hard threshold [hardp > 0] with
    [C * hardp / 100 <= 2^20], starting from a full bucket and whatever
    the call times, the bucket stored under the key never holds more
    than the capacity, and what is consumed of it, [C] less the stored
    count, stays below [C * hardp / 100] up to [2^-20] tokens: a denied
    call writes nothing and an allowed call writes only an amount that
    passed the comparison with the hard threshold. *)
Theorem stored_usage_below_hard store times :
  full_bucket store key C ->
  match fst (LuaDouble.run_calls rnd str store key C r softp hardp ttl times) !! key with
  | Some b => tokens b <= C /\ C - tokens b < C * hardp / 100 + (1 # 2 ^ 20)
  | None => True
  end.
Proof.
  intros Hf.
  assert (H0 : LuaDouble.below_hard key C hardp store).
  { unfold LuaDouble.below_hard, full_bucket in *. destruct (store !! key) as [b|]; [|exact I].
    assert (HP : 0 < C * hardp / 100).
    { apply Qlt_shift_div_l; [reflexivity|]. rewrite Qmult_0_l.
      apply Qmult_lt_0_compat; assumption. }
    split; [lra|]. pow_consts. lra. }
  clear Hf. revert store H0.
  induction times as [|t rest IH]; intros store H0; [exact H0|].
  cbn [LuaDouble.run_calls].
  pose proof (below_hard_step store t H0) as H1.
  destruct (LuaDouble.TOKEN_BUCKET_LUA_SCRIPT rnd str store key C r t softp hardp ttl)
    as [store1 ret].
  specialize (IH store1 H1).
  destruct (LuaDouble.run_calls rnd str store1 key C r softp hardp ttl rest) as [store2 rs].
  exact IH.
Qed.

End Stored.

Section Bound.
Variables rnd str : Q -> Q.
Hypothesis Hrnd : binary64_like rnd.
Hypothesis Hstr : reread_like str.
Variables (key : string) (C r softp hardp : Q) (ttl : option Z) (t0 tmax : Z).
Hypothesis HC : 0 < C.
Hypothesis HCB : C <= 1048576.
Hypothesis HCr : rnd C == C.
Hypothesis HCs : str C == C.
Hypothesis Hr : 0 <= r.
Hypothesis HrB : r <= 1048576.
Hypothesis Hh : 0 < hardp.
Hypothesis HHB : C * hardp / 100 <= 1048576.
Hypothesis Ht0 : (0 <= t0)%Z.
Hypothesis Htmax : (tmax <= 10 ^ 14)%Z.
Hypothesis HW : r * seconds t0 tmax <= 1048576.
#[local] Set Default Proof Using "All".

(** The tokens added for the time from [L] to [t]. *)
Lemma tokens_to_add_bound L t :
  (t0 <= L)%Z -> (L < t)%Z -> (t <= tmax)%Z ->
  let a := rnd (rnd (rnd (inject_Z (t - L)) / 1000) * r) in
  0 <= a /\ a <= r * seconds L t + (3 # 2 ^ 33) /\ r * seconds L t <= 1048576.
Proof.
  intros H1 H2 H3 a.
  assert (Ez : rnd (inject_Z (t - L)) == inject_Z (t - L)).
  { apply (rnd_int rnd Hrnd). lia. }
  assert (Eel : rnd (rnd (inject_Z (t - L)) / 1000) == rnd (seconds L t)).
  { apply (rnd_proper rnd Hrnd). unfold seconds, Qdiv. rewrite Ez. reflexivity. }
  pose proof (seconds_nonneg L t ltac:(lia)) as Hs.
  destruct (rnd_near_pos rnd Hrnd (seconds L t) Hs) as [_ U1].
  pose proof (rnd_nonneg rnd Hrnd (seconds L t) Hs) as N1.
  assert (Hy : r * seconds L t <= 1048576).
  { assert (S1 : seconds L t <= seconds t0 tmax).
    { pose proof (seconds_split t0 L tmax). pose proof (seconds_split L t tmax).
      pose proof (seconds_nonneg t0 L H1). pose proof (seconds_nonneg t tmax H3). lra. }
    assert (r * seconds L t <= r * seconds t0 tmax); [|lra].
    apply Qmult_le_compat_nonneg; split; lra. }
  assert (Ea : a == rnd (rnd (seconds L t) * r)).
  { unfold a. apply (rnd_proper rnd Hrnd). rewrite Eel. reflexivity. }
  set (el := rnd (seconds L t)) in *.
  assert (Hp : 0 <= el * r) by (apply Qmult_le_0_compat; assumption).
  destruct (rnd_near_pos rnd Hrnd (el * r) Hp) as [_ U2].
  assert (Hel : el * r <= (seconds L t + (1 # 2 ^ 53) * seconds L t + (1 # 2 ^ 1075)) * r).
  { apply Qmult_le_compat_r; assumption. }
  assert (E3 : (seconds L t + (1 # 2 ^ 53) * seconds L t + (1 # 2 ^ 1075)) * r
               == (1 + (1 # 2 ^ 53)) * (r * seconds L t) + (1 # 2 ^ 1075) * r) by ring.
  rewrite E3 in Hel. clear E3.
  split; [rewrite Ea; apply (rnd_nonneg rnd Hrnd); exact Hp|].
  split; [|exact Hy].
  rewrite Ea. generalize dependent (r * seconds L t). intros y Hy Hel.
  generalize dependent (el * r). intros p Hp U2 Hel. pow_consts. lra.
Qed.

(** The refill of a stored count for the time from [L] to [t]. *)
Lemma refill_bound T L t :
  - (1048577) <= T -> T <= C -> (t0 <= L)%Z -> (L < t)%Z -> (t <= tmax)%Z ->
  let T1 := Qmin C (rnd (T + rnd (rnd (rnd (inject_Z (t - L)) / 1000) * r))) in
  - (1048577) <= T1 /\ T1 <= C /\
  T1 <= T + r * seconds L t + (3 # 2 ^ 33) + (1 # 2 ^ 32) + (1 # 2 ^ 50).
Proof.
  intros H1 H2 H3 H4 H5.
  destruct (tokens_to_add_bound L t H3 H4 H5) as (A0 & A1 & Hy).
  set (a := rnd (rnd (rnd (inject_Z (t - L)) / 1000) * r)) in *.
  intros T1.
  assert (Lo : inject_Z (- 1048577) <= rnd (T + a)).
  { apply (rnd_ge_int rnd Hrnd); [vm_compute; discriminate|].
    change (inject_Z (- 1048577)) with (- (1048577)). lra. }
  change (inject_Z (- 1048577)) with (- (1048577)) in Lo.
  destruct (rnd_near rnd Hrnd (T + a) 2097154) as [_ U].
  { lra. }
  { generalize dependent (r * seconds L t). intros y A1 Hy. pow_consts. lra. }
  pose proof (Q.le_min_l C (rnd (T + a))) as M1.
  pose proof (Q.le_min_r C (rnd (T + a))) as M2. fold T1 in M1, M2.
  split; [|split; [exact M1|]].
  - unfold T1. apply Q.min_glb; lra.
  - generalize dependent (r * seconds L t). intros y A1 Hy. pow_consts. lra.
Qed.

Lemma rsec_mono a b : (a <= b)%Z -> r * seconds t0 a <= r * seconds t0 b.
Proof.
  intros H. pose proof (seconds_split t0 a b) as S. pose proof (seconds_nonneg a b H) as N.
  assert (0 <= r * seconds a b) by (apply Qmult_le_0_compat; assumption).
  assert (E : r * seconds t0 b == r * seconds t0 a + r * seconds a b) by (rewrite S; ring).
  lra.
Qed.

Lemma rsec_nonneg a : (t0 <= a)%Z -> 0 <= r * seconds t0 a.
Proof.
  intros H. apply Qmult_le_0_compat; [exact Hr | apply seconds_nonneg; exact H].
Qed.

Lemma Inv_later store tcur n t :
  LuaDouble.Inv key C r hardp t0 store tcur n -> (tcur <= t)%Z ->
  LuaDouble.Inv key C r hardp t0 store t n.
Proof.
  intros (Ht & Hn & Hb) Htt. split; [lia|]. split; [exact Hn|].
  destruct (store !! key) as [b|]; [|exact Hb].
  destruct Hb as [Hb|(Hn0 & HL & HT & HU & HP)]; [left; exact Hb|].
  right. repeat (split; [assumption|]).
  pose proof (rsec_mono (Z.min (last_refill_ms b) tcur) (Z.min (last_refill_ms b) t)
                ltac:(lia)).
  lra.
Qed.

Lemma Inv_step store tcur n t store' ret :
  LuaDouble.Inv key C r hardp t0 store tcur n -> (tcur <= t)%Z -> (t <= tmax)%Z ->
  LuaDouble.TOKEN_BUCKET_LUA_SCRIPT rnd str store key C r t softp hardp ttl = (store', ret) ->
  LuaDouble.Inv key C r hardp t0 store' t (n + (if (allowed ret =? 1)%Z then 1 else 0))%Z.
Proof.
  intros HI Htt Htm Hs.
  pose proof (Inv_later store tcur n t HI Htt) as Hkeep.
  destruct HI as (Ht & Hn & Hb).
  pose proof (allowed_write rnd str Hrnd Hstr key C r softp hardp ttl
                HC HCB HCr HCs Hr Hh HHB) as AW.
  destruct (script_cases rnd str store key C r t softp hardp ttl)
    as [(Hu & E)|[(Hu & Hu' & E)|(Hu & Hu' & st & Hst & E)]];
    rewrite Hs in E; inversion E; subst; clear E; cbn [allowed Z.eqb Pos.eqb].
  - rewrite Z.add_0_r. exact Hkeep.
  - rewrite Z.add_0_r. exact Hkeep.
  - clear Hkeep. split; [lia|]. split; [lia|].
    rewrite lookup_insert_eq. right. cbn [tokens last_refill_ms].
    unfold LuaDouble.refilled_tokens in *.
    split; [lia|].
    rewrite inject_Z_plus. change (inject_Z 1) with 1.
    destruct (store !! key) as [b|] eqn:Eb.
    + rewrite (refill_stored rnd Hrnd key C r store b t Eb) in *.
      destruct Hb as [(-> & Hfull)|(Hn0 & HL & HT & HU & HP)].
      * (* first allowed call on a stored full bucket *)
        change (inject_Z 0) with 0.
        destruct (Z.ltb_spec (last_refill_ms b) t) as [L|L]; cbn [fst snd] in *.
        -- set (a := rnd (rnd (rnd (inject_Z (t - last_refill_ms b)) / 1000) * r)) in *.
           assert (Ha : 0 <= a) by (apply (tokens_to_add_nonneg rnd Hrnd); assumption).
           assert (Hge : C <= rnd (tokens b + a)).
           { apply (rnd_fix_ge rnd Hrnd); [exact HCr | lra]. }
           pose proof (Q.le_min_l C (rnd (tokens b + a))) as M1.
           assert (M2 : C <= Qmin C (rnd (tokens b + a))) by (apply Q.min_glb; lra).
           destruct (AW (Qmin C (rnd (tokens b + a))) ltac:(lra) M1 Hu') as (B1 & B2 & B3).
           split; [lia|]. split; [exact B1|]. split; [exact B2|].
           rewrite Z.min_id. pose proof (rsec_nonneg t ltac:(lia)). pow_consts. lra.
        -- destruct (AW (tokens b) ltac:(lra) ltac:(lra) Hu') as (B1 & B2 & B3).
           split; [lia|]. split; [exact B1|]. split; [exact B2|].
           pose proof (rsec_nonneg (Z.min (last_refill_ms b) t) ltac:(lia)).
           pow_consts. lra.
      * assert (Hlow : - (1048577) <= tokens b).
        { generalize dependent (C * hardp / 100). intros P; intros. pow_consts. lra. }
        destruct (Z.ltb_spec (last_refill_ms b) t) as [L|L]; cbn [fst snd] in *.
        -- destruct (refill_bound (tokens b) (last_refill_ms b) t Hlow HT HL L Htm)
             as (R1 & R2 & R3).
           set (T1 := Qmin C _) in *.
           destruct (AW T1 R1 R2 Hu') as (B1 & B2 & B3).
           split; [lia|]. split; [exact B1|]. split; [exact B2|].
           rewrite Z.min_id.
           pose proof (rsec_mono (Z.min (last_refill_ms b) tcur) (last_refill_ms b)
                         ltac:(lia)) as Mo.
           pose proof (seconds_split t0 (last_refill_ms b) t) as Sp.
           assert (Es : r * seconds t0 t
                        == r * seconds t0 (last_refill_ms b) + r * seconds (last_refill_ms b) t)
             by (rewrite Sp; ring).
           rewrite Es. pow_consts. lra.
        -- destruct (AW (tokens b) Hlow HT Hu') as (B1 & B2 & B3).
           split; [exact HL|]. split; [exact B1|]. split; [exact B2|].
           pose proof (rsec_mono (Z.min (last_refill_ms b) tcur) (Z.min (last_refill_ms b) t)
                         ltac:(lia)) as Mo.
           pow_consts. lra.
    + rewrite (refill_absent rnd Hrnd key C r store t Eb) in *. cbn [fst snd] in *. subst n.
      change (inject_Z 0) with 0.
      destruct (AW C ltac:(lra) ltac:(lra) Hu') as (B1 & B2 & B3).
      split; [lia|]. split; [exact B1|]. split; [exact B2|].
      rewrite Z.min_id. pose proof (rsec_nonneg t ltac:(lia)). pow_consts. lra.
Qed.

Lemma nondecreasing_le_last times : forall t, nondecreasing t times -> (t <= List.last times t)%Z.
Proof.
  induction times as [|x xs IH]; intros t H; [simpl; lia|].
  destruct H as [H1 H2]. rewrite last_cons_default. specialize (IH x H2). lia.
Qed.

Lemma Inv_run times : forall store tcur n,
  LuaDouble.Inv key C r hardp t0 store tcur n -> nondecreasing tcur times ->
  (List.last times tcur <= tmax)%Z ->
  LuaDouble.Inv key C r hardp t0
    (fst (LuaDouble.run_calls rnd str store key C r softp hardp ttl times))
    (List.last times tcur)
    (n + allowed_count
           (snd (LuaDouble.run_calls rnd str store key C r softp hardp ttl times)))%Z.
Proof.
  induction times as [|t rest IH]; intros store tcur n HI Hnd Hmax.
  - simpl. rewrite Z.add_0_r. exact HI.
  - destruct Hnd as [Ht Hnd]. rewrite last_cons_default in *.
    pose proof (nondecreasing_le_last rest t Hnd) as Hle.
    cbn [LuaDouble.run_calls].
    destruct (LuaDouble.TOKEN_BUCKET_LUA_SCRIPT rnd str store key C r t softp hardp ttl)
      as [store1 ret] eqn:Hs.
    pose proof (Inv_step _ _ _ _ _ _ HI Ht ltac:(lia) Hs) as HI1.
    specialize (IH store1 t _ HI1 Hnd Hmax).
    destruct (LuaDouble.run_calls rnd str store1 key C r softp hardp ttl rest)
      as [store2 rs].
    cbn [fst snd allowed_count] in *. rewrite Z.add_assoc. exact IH.
Qed.

Lemma Inv_init store :
  full_bucket store key C -> LuaDouble.Inv key C r hardp t0 store t0 0.
Proof.
  intros Hf. split; [lia|]. split; [lia|]. unfold full_bucket in Hf.
  destruct (store !! key); [left; split; [reflexivity | exact Hf] | reflexivity].
Qed.

Lemma Inv_bound store tcur n :
  LuaDouble.Inv key C r hardp t0 store tcur n -> (tcur <= tmax)%Z ->
  inject_Z n < C * hardp / 100 + r * seconds t0 tmax + 1.
Proof.
  intros (Ht & Hn & Hb) Hmax.
  pose proof (rsec_nonneg tmax ltac:(lia)) as HW0.
  assert (HP : 0 < C * hardp / 100).
  { apply Qlt_shift_div_l; [reflexivity|]. rewrite Qmult_0_l.
    apply Qmult_lt_0_compat; assumption. }
  assert (Hz : n = 0%Z -> inject_Z n < C * hardp / 100 + r * seconds t0 tmax + 1).
  { intros ->. change (inject_Z 0) with 0. lra. }
  destruct (store !! key) as [b|]; [|auto].
  destruct Hb as [[Hb _]|(Hn0 & HL & HT & HU & HPot)]; [auto|].
  pose proof (rsec_mono (Z.min (last_refill_ms b) tcur) tmax ltac:(lia)) as Mo.
  generalize dependent (C * hardp / 100). intros P; intros.
  generalize dependent (r * seconds t0 tmax). intros W; intros.
  pow_consts. lra.
Qed.

End Bound.

(** C2 (amended): on doubles, for a run of calls on one key with a
    capacity [C] that is a double and that [tostring] writes in full,
    [0 < C <= 2^20], a refill rate [0 <= r <= 2^20], a hard threshold
    [hardp > 0] with [C * hardp / 100 <= 2^20], starting from a full
    bucket, at times between 0 and [10^14] ms that never go back, with
    [r * W <= 2^20] for the [W] seconds from the first call to the last
    and no expiry of the key in between, the number of allowed calls is
    less than [C * hardp / 100 + r * W + 1].  The bound
    [C + floor (r * W)] fails for a hard threshold above 100; the [+ 1]
    covers the rounding: capacity 100 with a hard threshold of 115 and
    no refill allows 115 calls, as [1.15 * 100] is below 115 on
    doubles. *)
Theorem allowed_calls_bounded rnd str store key C r softp hardp ttl t0 times :
  binary64_like rnd -> reread_like str ->
  0 < C -> C <= 1048576 -> rnd C == C -> str C == C ->
  0 <= r -> r <= 1048576 ->
  0 < hardp -> C * hardp / 100 <= 1048576 ->
  (0 <= t0)%Z -> (List.last times t0 <= 10 ^ 14)%Z ->
  r * span t0 times <= 1048576 ->
  full_bucket store key C ->
  nondecreasing t0 times ->
  let n := allowed_count
             (snd (LuaDouble.run_calls rnd str store key C r softp hardp ttl
                     (t0 :: times))) in
  inject_Z n < C * hardp / 100 + r * span t0 times + 1.
Proof.
  intros Hrnd Hstr HC HCB HCr HCs Hr HrB Hh HHB Ht0 Htmax HW Hf Hnd n.
  pose proof (Inv_run rnd str Hrnd Hstr key C r softp hardp ttl t0 (List.last times t0)
                HC HCB HCr HCs Hr HrB Hh HHB Ht0 Htmax HW (t0 :: times) store t0 0%Z
                (Inv_init rnd str Hrnd Hstr key C r softp hardp ttl t0 (List.last times t0)
                   HC HCB HCr HCs Hr HrB Hh HHB Ht0 Htmax HW store Hf)) as HI.
  assert (Hnd' : nondecreasing t0 (t0 :: times)) by (split; [lia | exact Hnd]).
  rewrite last_cons_default in HI.
  specialize (HI Hnd' ltac:(lia)). rewrite Z.add_0_l in HI. fold n in HI.
  apply (Inv_bound rnd str Hrnd Hstr key C r softp hardp ttl t0 (List.last times t0)
           HC HCB HCr HCs Hr HrB Hh HHB Ht0 Htmax HW _ _ _ HI).
  lia.
Qed.

Lemma allowed_calls_bounded_witness :
  let n := allowed_count
             (snd (LuaDouble.run_calls Double.round Double.reread ∅ "k" 100 0 115 115 None
                     (0 :: repeat 0 119)%Z)) in
  n = 115%Z /\ inject_Z n < 100 * 115 / 100 + 0 * span 0 (repeat 0%Z 119) + 1.
Proof.
  intros n. split; [vm_compute; reflexivity|].
  apply (allowed_calls_bounded Double.round Double.reread ∅ "k"%string 100 0 115 115 None
           0%Z (repeat 0%Z 119) DoubleFacts.round_binary64_like
           DoubleFacts.reread_reread_like);
    try (vm_compute; reflexivity); try (vm_compute; discriminate); try exact I.
  simpl. repeat (split; [lia|]). exact I.
Defined.

(** The same run in exact arithmetic allows one call less: the 115th
    call is allowed on doubles because the usage it computes,
    [1.15 * 100], is below 115. *)
Example exact_arithmetic_allows_114 :
  allowed_count (snd (run_calls ∅ "k" 100 0 115 115 None (0 :: repeat 0 119)%Z)) = 114%Z /\
  Double.round (Double.round (115 # 100) * 100) < 115.
Proof. split; vm_compute; reflexivity. Qed.

Lemma allowed_consumes_one_witness :
  let run :=
    LuaDouble.TOKEN_BUCKET_LUA_SCRIPT Double.round Double.reread ∅ "a" 10 1 1000 80 100 None in
  current_tokens (snd run)
    = Double.round (LuaDouble.refilled_tokens Double.round ∅ "a" 10 1 1000 - 1) /\
  usage_pct (snd run) < 100.
Proof.
  intros run.
  destruct (allowed_consumes_one Double.round Double.reread ∅ "a"%string 10 1 1000%Z
              80 100 None (fst run) (snd run) ltac:(reflexivity) (surjective_pairing run))
    as (_ & _ & _ & H).
  destruct (H ltac:(vm_compute; reflexivity)) as (A & _ & B & _).
  split; [exact A | exact B].
Defined.

(** A refill by a fraction: the second call returns
    13.183333333333334 tokens and stores 13.183333333333, the fourteen
    digits [tostring] writes. *)
Example stored_amount_has_fourteen_digits :
  let rate := Double.round (11 # 60) in
  let run := LuaDouble.run_calls Double.round Double.reread ∅ "a" 15 rate 100 110 None
               [0; 1000]%Z in
  map current_tokens (snd run) = [14; Double.round (13183333333333334 # 1000000000000000)] /\
  option_map tokens (fst run !! "a")
    = Some (Double.round (13183333333333 # 1000000000000)).
Proof. vm_compute. split; reflexivity. Qed.

Lemma stored_usage_below_hard_witness :
  match fst (LuaDouble.run_calls Double.round Double.reread ∅ "a" 3 1 80 100 None
               [1000; 1000; 1000; 1000; 2000]%Z) !! "a" with
  | Some b => tokens b <= 3 /\ 3 - tokens b < 3 * 100 / 100 + (1 # 2 ^ 20)
  | None => True
  end.
Proof.
  apply (stored_usage_below_hard Double.round Double.reread
           DoubleFacts.round_binary64_like DoubleFacts.reread_reread_like
           "a"%string 3 1 80 100 None);
    try (vm_compute; reflexivity); try (vm_compute; discriminate); exact I.
Defined.

End LuaDoubleFacts.

(** ** Penalty scaling on doubles *)

Module OverrideDoubleFacts.
Import OverrideManager Double RoundingFacts.

Lemma exact_applyOverride : OverrideDouble.applyOverride (fun x => x) = applyOverride.
Proof. reflexivity. Qed.

Section Penalty.
Variable rnd : Q -> Q.
Hypothesis Hrnd : binary64_like rnd.

(** The floor of the rounded product of a limit [x] and a multiplier
    [m] in (0,1]. *)
Lemma floor_of_rounded_product m x :
  0 < m -> m <= 1 -> 0 <= x -> x <= 4503599627370496 -> rnd x == x ->
  let v := Qfloor (rnd (x * m)) in
  (0 <= v)%Z /\ inject_Z v <= x /\
  (Qfloor (x * m) <= v <= Qfloor (x * m) + 1)%Z /\
  (x * m <= 1 - (1 # 2 ^ 52) -> v = 0%Z).
Proof.
  intros Hm0 Hm1 Hx HxB Hxr v.
  assert (Hp0 : 0 <= x * m) by (apply Qmult_le_0_compat; lra).
  assert (Hp1 : x * m <= x).
  { assert (x * m <= x * 1) by (apply Qmult_le_l_weak || (apply Qmult_le_compat_nonneg; split; lra)). lra. }
  assert (R0 : 0 <= rnd (x * m)) by (apply (rnd_nonneg rnd Hrnd); exact Hp0).
  assert (R1 : rnd (x * m) <= x) by (apply (rnd_fix_le rnd Hrnd); assumption).
  assert (V0 : (0 <= v)%Z).
  { unfold v. rewrite <- (Qfloor_Z 0). apply Qfloor_resp_le. exact R0. }
  assert (V1 : inject_Z v <= x).
  { pose proof (Qfloor_le (rnd (x * m))). fold v in H. lra. }
  set (f := Qfloor (x * m)) in *.
  pose proof (Qfloor_le (x * m)) as F1. pose proof (Qlt_floor (x * m)) as F2. fold f in F1, F2.
  assert (F0 : (0 <= f)%Z).
  { unfold f. rewrite <- (Qfloor_Z 0). apply Qfloor_resp_le. exact Hp0. }
  assert (FB : (f <= 4503599627370496)%Z).
  { rewrite Zle_Qle. change (inject_Z 4503599627370496) with 4503599627370496. lra. }
  split; [exact V0|]. split; [exact V1|]. split; [split|].
  - unfold v. rewrite <- (Qfloor_Z f). apply Qfloor_resp_le.
    apply (rnd_ge_int rnd Hrnd); [lia | exact F1].
  - assert (A : rnd (x * m) <= inject_Z (f + 1)).
    { apply (rnd_le_int rnd Hrnd); [lia | lra]. }
    apply Qfloor_resp_le in A. rewrite Qfloor_Z in A. exact A.
  - intros Hlt. destruct (rnd_near_pos rnd Hrnd (x * m) Hp0) as [_ U].
    assert (rnd (x * m) < 1).
    { generalize dependent (x * m). intros p. intros. pow_consts. lra. }
    assert (v < 1)%Z; [|lia].
    apply Z.lt_nge. intros Hge. rewrite Zle_Qle in Hge.
    pose proof (Qfloor_le (rnd (x * m))) as G. fold v in G.
    change (inject_Z 1) with 1 in Hge. lra.
Qed.

(** C3 (amended): on doubles, a penalty_multiplier override with
    multiplier [m] in (0,1] replaces the tenant policy and, when present,
    the user policy by one whose rpm, rps and burst_capacity are
    [Math.floor] of the rounded product of the original and [m], and
    whose refill_rate_per_sec is the rounded product, not floored (unset
    when the original is unset or zero).  For an original [x] that is a
    double between 0 and [2^52] the floored field is a whole number
    between 0 and [x]; it is [floor (x * m)], or one more when the
    product rounds up to a whole number.  There is no floor at one: when
    [x * m <= 1 - 2^-52] the field is 0. *)
Theorem penalty_scales_by_floor_of_product o m tp up :
  override_type o = OT_penalty_multiplier -> penalty_multiplier o = Some m ->
  0 < m -> m <= 1 ->
  banned (OverrideDouble.applyOverride rnd o tp up) = false /\
  OverrideDouble.scaled rnd m tp (tenantPolicy (OverrideDouble.applyOverride rnd o tp up)) /\
  match up with
  | Some u => exists u', userPolicy (OverrideDouble.applyOverride rnd o tp up) = Some u' /\
                         OverrideDouble.scaled rnd m u u'
  | None => userPolicy (OverrideDouble.applyOverride rnd o tp up) = None
  end /\
  (forall x, 0 <= x -> x <= 4503599627370496 -> rnd x == x ->
     let v := Qfloor (rnd (x * m)) in
     (0 <= v)%Z /\ inject_Z v <= x /\
     (Qfloor (x * m) <= v <= Qfloor (x * m) + 1)%Z /\
     (x * m <= 1 - (1 # 2 ^ 52) -> v = 0%Z)).
Proof.
  intros Hty Hpm Hm0 Hm1.
  assert (Hscaled : forall p, OverrideDouble.scaled rnd m p (OverrideDouble.scale rnd m p)).
  { intros p. unfold OverrideDouble.scaled, OverrideDouble.scale, JS.Math_floor. simpl.
    repeat split. destruct (refill_rate_per_sec p) as [r0|]; simpl; [|reflexivity].
    destruct (Qeq_bool r0 0); reflexivity. }
  assert (Happ : OverrideDouble.applyOverride rnd o tp up =
                 mkApplied (OverrideDouble.scale rnd m tp)
                   (option_map (OverrideDouble.scale rnd m) up) false).
  { unfold OverrideDouble.applyOverride. rewrite Hty, Hpm. simpl.
    destruct (Qeq_bool m 0) eqn:E; [|reflexivity].
    apply Qeq_bool_eq in E. lra. }
  rewrite Happ. simpl.
  split; [reflexivity|]. split; [apply Hscaled|]. split.
  - destruct up as [u|]; simpl; [|reflexivity].
    exists (OverrideDouble.scale rnd m u). split; [reflexivity | apply Hscaled].
  - intros x Hx HxB Hxr. apply floor_of_rounded_product; assumption.
Qed.

End Penalty.

Lemma penalty_scales_by_floor_of_product_witness :
  let m := Double.round (29 # 100) in
  let o := mkOverride "acme" None None OT_penalty_multiplier (Some m)
             None None "abuse" auto_detector 0 1000 in
  let tp := mkPolicy 100 (Double.round (100 # 60)) 100 None in
  0 < m /\ m <= 1 /\
  rpm (tenantPolicy (OverrideDouble.applyOverride Double.round o tp None)) = 28.
Proof.
  intros m o tp.
  assert (H0 : 0 < m) by (vm_compute; reflexivity).
  assert (H1 : m <= 1) by (vm_compute; discriminate).
  split; [exact H0|]. split; [exact H1|].
  destruct (penalty_scales_by_floor_of_product Double.round DoubleFacts.round_binary64_like
              o m tp None eq_refl eq_refl H0 H1) as (_ & (H & _) & _).
  rewrite H. vm_compute. reflexivity.
Defined.

(** On doubles a limit of 5 under the multiplier 0.1 becomes 0, and the
    product of 3 and the double nearest to a third rounds up to 1, one
    more than the floor of the exact product. *)
Example floor_of_rounded_product_examples :
  Qfloor (Double.round (5 * Double.round (1 # 10))) = 0%Z /\
  Qfloor (Double.round (3 * Double.round (1 # 3))) = 1%Z /\
  Qfloor (3 * Double.round (1 # 3)) = 0%Z.
Proof. vm_compute. repeat split. Qed.

End OverrideDoubleFacts.

(** ** Retry delay on doubles *)

Module EngineDoubleFacts.
Import Lua LuaFacts Double RoundingFacts.

Section Engine.
Variable rnd : Q -> Q.
Hypothesis Hrnd : binary64_like rnd.

(** X6: on doubles, for [0 < C <= 2^20], [-2^20 <= tokens <= C],
    [C * hardPct <= 2^27] and a rate in (0, 2^20], [calculateRetryAfter]
    is 0 when the consumed amount compares within the allowed one; in
    every case it is a whole number of seconds [wait >= 0] whose refill
    [wait * rate] covers the excess of the consumed amount over
    [C * hardPct / 100] up to [2^-28] tokens, and when it is positive
    the refill of one second less falls short of the excess plus
    [2^-28] tokens. *)
Theorem retry_after_is_least_wait tokens C rate hardPct :
  0 < C -> C <= 1048576 -> - (1048576) <= tokens -> tokens <= C ->
  0 < hardPct -> C * hardPct <= 134217728 ->
  0 < rate -> rate <= 1048576 ->
  let wait := EngineDouble.calculateRetryAfter rnd tokens C rate hardPct in
  let excess := (C - tokens) - C * hardPct / 100 in
  (0 <= wait)%Z /\
  (rnd (C - tokens) <= rnd (rnd (C * hardPct) / 100) -> wait = 0%Z) /\
  excess - (1 # 2 ^ 28) <= inject_Z wait * rate /\
  ((0 < wait)%Z -> (inject_Z wait - 1) * rate < excess + (1 # 2 ^ 28)).
Proof.
  intros HC HCB HT0 HT1 Hh HhB Hr HrB wait excess.
  unfold EngineDouble.calculateRetryAfter in wait.
  set (used := rnd (C - tokens)) in *.
  set (mx := rnd (rnd (C * hardPct) / 100)) in *.
  destruct (rnd_near rnd Hrnd (C - tokens) 2097152 ltac:(lra) ltac:(lra)) as [U1 U2].
  fold used in U1, U2.
  assert (HP0 : 0 <= C * hardPct) by (apply Qmult_le_0_compat; lra).
  destruct (rnd_near_pos rnd Hrnd (C * hardPct) HP0) as [P1 P2].
  pose proof (rnd_nonneg rnd Hrnd _ HP0) as P0.
  assert (HP100 : 0 <= rnd (C * hardPct) / 100).
  { apply Qle_shift_div_l; [reflexivity | lra]. }
  destruct (rnd_near_pos rnd Hrnd _ HP100) as [M1 M2]. fold mx in M1, M2.
  assert (E100 : rnd (C * hardPct) / 100 == rnd (C * hardPct) * (1 # 100)) by (field).
  rewrite E100 in M1, M2. clear E100.
  assert (Eex : excess == C - tokens - (C * hardPct) * (1 # 100)) by (unfold excess; field).
  destruct (Qle_bool used mx) eqn:Hle.
  - apply Qle_bool_iff in Hle. subst wait.
    split; [lia|]. split; [reflexivity|]. split; [|lia].
    rewrite Eex. generalize dependent (C * hardPct). intros p; intros.
    change (inject_Z 0) with 0. pow_consts. lra.
  - assert (Hgt : mx < used).
    { apply Qnot_le_lt. intros H. apply Qle_bool_iff in H. congruence. }
    set (d := rnd (used - mx)) in *.
    assert (Hd0 : 0 <= used - mx) by lra.
    assert (HdB : used - mx <= 4194304).
    { generalize dependent (C * hardPct). intros p; intros. pow_consts. lra. }
    destruct (rnd_near rnd Hrnd (used - mx) 4194304 ltac:(lra) HdB) as [D1 D2].
    fold d in D1, D2.
    pose proof (rnd_nonneg rnd Hrnd _ Hd0) as D0. fold d in D0.
    assert (Hq0 : 0 <= d / rate) by (apply Qle_shift_div_l; [exact Hr | lra]).
    destruct (rnd_near_pos rnd Hrnd _ Hq0) as [S1 S2].
    pose proof (rnd_nonneg rnd Hrnd _ Hq0) as S0.
    set (secs := rnd (d / rate)) in *.
    assert (Eq : d / rate * rate == d) by (field; lra).
    assert (S1r : (d / rate - (1 # 2 ^ 53) * (d / rate) - (1 # 2 ^ 1075)) * rate <= secs * rate).
    { apply Qmult_le_compat_r; lra. }
    assert (S2r : secs * rate <= (d / rate + (1 # 2 ^ 53) * (d / rate) + (1 # 2 ^ 1075)) * rate).
    { apply Qmult_le_compat_r; lra. }
    assert (E1 : (d / rate - (1 # 2 ^ 53) * (d / rate) - (1 # 2 ^ 1075)) * rate
                 == (1 - (1 # 2 ^ 53)) * d - (1 # 2 ^ 1075) * rate).
    { field. lra. }
    assert (E2 : (d / rate + (1 # 2 ^ 53) * (d / rate) + (1 # 2 ^ 1075)) * rate
                 == (1 + (1 # 2 ^ 53)) * d + (1 # 2 ^ 1075) * rate).
    { field. lra. }
    rewrite E1 in S1r. rewrite E2 in S2r. clear E1 E2 S1 S2 Eq.
    pose proof (Qle_ceiling secs) as C1.
    pose proof (Qceiling_lt secs) as C2.
    unfold JS.Math_ceil in wait. fold wait in C1, C2.
    assert (W0 : (0 <= wait)%Z).
    { rewrite Zle_Qle. change (inject_Z 0) with 0. lra. }
    assert (C1r : secs * rate <= inject_Z wait * rate).
    { apply Qmult_le_compat_r; lra. }
    assert (C2r : (inject_Z wait - 1) * rate < secs * rate).
    { apply Qmult_lt_compat_r; [exact Hr|].
      unfold Z.sub in C2. rewrite inject_Z_plus in C2.
      change (inject_Z (- (1))) with (- (1)) in C2. lra. }
    split; [exact W0|]. split; [intros H; lra|].
    rewrite Eex.
    generalize dependent (secs * rate). intros sr S1r S2r C1r C2r.
    generalize dependent (inject_Z wait * rate). intros wr C1r.
    generalize dependent ((inject_Z wait - 1) * rate). intros wr1 C2r.
    generalize dependent (C * hardPct). intros p; intros.
    split; [|intros _]; pow_consts; lra.
Qed.

End Engine.

Lemma retry_after_is_least_wait_witness :
  let rate := Double.round (1 # 10) in
  let wait := EngineDouble.calculateRetryAfter Double.round (- (1)) 3 rate 110 in
  wait = 8%Z /\
  (3 - - (1)) - 3 * 110 / 100 - (1 # 2 ^ 28) <= inject_Z wait * rate /\
  (inject_Z wait - 1) * rate < (3 - - (1)) - 3 * 110 / 100 + (1 # 2 ^ 28).
Proof.
  intros rate wait.
  split; [vm_compute; reflexivity|].
  destruct (retry_after_is_least_wait Double.round DoubleFacts.round_binary64_like
              (- (1)) 3 rate 110
              ltac:(vm_compute; reflexivity) ltac:(vm_compute; discriminate)
              ltac:(vm_compute; discriminate) ltac:(vm_compute; discriminate)
              ltac:(vm_compute; reflexivity) ltac:(vm_compute; discriminate)
              ltac:(vm_compute; reflexivity) ltac:(vm_compute; discriminate))
    as (_ & _ & A & B).
  split; [exact A|]. apply B. vm_compute. reflexivity.
Defined.

End EngineDoubleFacts.

(** ** Reset time on doubles *)

Module ResetFacts.
Import Lua LuaFacts Double RoundingFacts LuaDoubleFacts.

Section Reset.
Variable rnd : Q -> Q.
Hypothesis Hrnd : binary64_like rnd.
Variables (C rate T : Q) (L : Z).
Hypothesis HC : 0 < C.
Hypothesis HCB : C <= 1048576.
Hypothesis HCr : rnd C == C.
Hypothesis HT0 : - (1048576) <= T.
Hypothesis HT1 : T < C.
Hypothesis Hr : 1 # 1024 <= rate.
Hypothesis HrB : rate <= 1048576.
Hypothesis HL0 : (0 <= L)%Z.
Hypothesis HLB : (L <= 2 ^ 45)%Z.
#[local] Set Default Proof Using "All".

(** The computed reset time, in tokens: the refill of the milliseconds
    from [L] to the reset time is the missing amount, nearly. *)
Lemma reset_time_in_tokens :
  let reset := rnd (inject_Z L + rnd (rnd (rnd (C - T) / rate) * 1000)) in
  (C - T) * 1000 - (1 # 2 ^ 20) - (1 # 64) * rate <= (reset - inject_Z L) * rate /\
  (reset - inject_Z L) * rate <= (C - T) * 1000 + (1 # 2 ^ 20) + (1 # 64) * rate /\
  inject_Z L <= reset /\ reset <= 70368744177664.
Proof.
  intros reset.
  assert (Hneed : 0 <= C - T) by lra.
  destruct (rnd_near_pos rnd Hrnd (C - T) Hneed) as [N1 N2].
  pose proof (rnd_nonneg rnd Hrnd _ Hneed) as N0.
  set (n1 := rnd (C - T)) in *.
  assert (Hq0 : 0 <= n1 / rate) by (apply Qle_shift_div_l; lra).
  assert (HqB : n1 / rate <= 1024 * n1).
  { apply Qle_shift_div_r; [lra|]. nra. }
  destruct (rnd_near_pos rnd Hrnd _ Hq0) as [S1 S2].
  pose proof (rnd_nonneg rnd Hrnd _ Hq0) as S0.
  set (s := rnd (n1 / rate)) in *.
  assert (Eq : n1 / rate * rate == n1) by (field; lra).
  assert (S1r : (n1 / rate - (1 # 2 ^ 53) * (n1 / rate) - (1 # 2 ^ 1075)) * rate <= s * rate).
  { apply Qmult_le_compat_r; lra. }
  assert (S2r : s * rate <= (n1 / rate + (1 # 2 ^ 53) * (n1 / rate) + (1 # 2 ^ 1075)) * rate).
  { apply Qmult_le_compat_r; lra. }
  assert (E1 : (n1 / rate - (1 # 2 ^ 53) * (n1 / rate) - (1 # 2 ^ 1075)) * rate
               == (1 - (1 # 2 ^ 53)) * n1 - (1 # 2 ^ 1075) * rate) by (field; lra).
  assert (E2 : (n1 / rate + (1 # 2 ^ 53) * (n1 / rate) + (1 # 2 ^ 1075)) * rate
               == (1 + (1 # 2 ^ 53)) * n1 + (1 # 2 ^ 1075) * rate) by (field; lra).
  rewrite E1 in S1r. rewrite E2 in S2r. clear E1 E2 Eq.
  assert (Hs1000 : 0 <= s * 1000) by lra.
  destruct (rnd_near_pos rnd Hrnd _ Hs1000) as [M1 M2].
  pose proof (rnd_nonneg rnd Hrnd _ Hs1000) as M0.
  set (ms := rnd (s * 1000)) in *.
  assert (M1r : (s * 1000 - (1 # 2 ^ 53) * (s * 1000) - (1 # 2 ^ 1075)) * rate <= ms * rate).
  { apply Qmult_le_compat_r; lra. }
  assert (M2r : ms * rate <= (s * 1000 + (1 # 2 ^ 53) * (s * 1000) + (1 # 2 ^ 1075)) * rate).
  { apply Qmult_le_compat_r; lra. }
  assert (E1 : (s * 1000 - (1 # 2 ^ 53) * (s * 1000) - (1 # 2 ^ 1075)) * rate
               == (1 - (1 # 2 ^ 53)) * 1000 * (s * rate) - (1 # 2 ^ 1075) * rate) by ring.
  assert (E2 : (s * 1000 + (1 # 2 ^ 53) * (s * 1000) + (1 # 2 ^ 1075)) * rate
               == (1 + (1 # 2 ^ 53)) * 1000 * (s * rate) + (1 # 2 ^ 1075) * rate) by ring.
  rewrite E1 in M1r. rewrite E2 in M2r. clear E1 E2.
  assert (HmsB : ms <= 4398046511104).
  { clear M1r M2r S1r S2r. pow_consts.
    assert (A1 : n1 <= 2097153) by lra.
    assert (A2 : n1 / rate <= 2147484672) by lra.
    assert (A3 : s <= 2147484673) by lra.
    lra. }
  assert (HLq0 : 0 <= inject_Z L).
  { change 0 with (inject_Z 0). rewrite <- Zle_Qle. exact HL0. }
  assert (HLq1 : inject_Z L <= 35184372088832).
  { change 35184372088832 with (inject_Z (2 ^ 45)). rewrite <- Zle_Qle. exact HLB. }
  destruct (rnd_near rnd Hrnd (inject_Z L + ms) 70368744177664 ltac:(lra) ltac:(lra))
    as [R1 R2].
  fold reset in R1, R2.
  assert (R1r : (ms - (1 # 64)) * rate <= (reset - inject_Z L) * rate).
  { apply Qmult_le_compat_r; [|lra]. pow_consts. lra. }
  assert (R2r : (reset - inject_Z L) * rate <= (ms + (1 # 64)) * rate).
  { apply Qmult_le_compat_r; [|lra]. pow_consts. lra. }
  assert (E1 : (ms - (1 # 64)) * rate == ms * rate - (1 # 64) * rate) by ring.
  assert (E2 : (ms + (1 # 64)) * rate == ms * rate + (1 # 64) * rate) by ring.
  rewrite E1 in R1r. rewrite E2 in R2r. clear E1 E2.
  assert (RL : inject_Z L <= reset).
  { apply (rnd_ge_int rnd Hrnd); [lia | lra]. }
  assert (RB : reset <= 70368744177664).
  { change 70368744177664 with (inject_Z 70368744177664).
    apply (rnd_le_int rnd Hrnd); [vm_compute; discriminate|].
    change (inject_Z 70368744177664) with 70368744177664. lra. }
  clear R1 R2 M1 M2 S1 S2 HqB Hq0 HmsB.
  split; [|split; [|split; [exact RL | exact RB]]];
  generalize dependent (ms * rate); intros mr; intros;
  generalize dependent (s * rate); intros sr; intros;
  generalize dependent ((reset - inject_Z L) * rate); intros rr; intros;
  pow_consts; lra.
Qed.

(** A call at least one millisecond after the computed reset time
    finds the bucket full. *)
Lemma full_after_reset t :
  (t <= 2 ^ 53)%Z ->
  rnd (inject_Z L + rnd (rnd (rnd (C - T) / rate) * 1000)) + 1 <= inject_Z t ->
  (L < t)%Z /\
  Qmin C (rnd (T + rnd (rnd (rnd (inject_Z (t - L)) / 1000) * rate))) == C.
Proof.
  intros HtB Ht.
  destruct reset_time_in_tokens as (A1 & _ & RL & _).
  set (reset := rnd (inject_Z L + rnd (rnd (rnd (C - T) / rate) * 1000))) in *.
  assert (ED : inject_Z (t - L) == inject_Z t - inject_Z L).
  { unfold Z.sub. rewrite inject_Z_plus, inject_Z_opp. ring. }
  assert (HD1 : 1 <= inject_Z (t - L)) by lra.
  assert (HLt : (L < t)%Z).
  { change 1 with (inject_Z 1) in HD1. rewrite <- Zle_Qle in HD1. lia. }
  split; [exact HLt|].
  assert (Ez : rnd (inject_Z (t - L)) == inject_Z (t - L)).
  { apply (rnd_int rnd Hrnd). lia. }
  set (D := inject_Z (t - L)) in *.
  assert (HDr : (reset - inject_Z L) * rate + rate <= D * rate).
  { assert (X : (reset - inject_Z L + 1) * rate <= D * rate)
      by (apply Qmult_le_compat_r; lra).
    assert (E : (reset - inject_Z L + 1) * rate == (reset - inject_Z L) * rate + rate) by ring.
    lra. }
  assert (Hel0 : 0 <= D / 1000) by (apply Qle_shift_div_l; [reflexivity | lra]).
  assert (Eel : rnd (rnd D / 1000) == rnd (D / 1000)).
  { apply (rnd_proper rnd Hrnd). unfold Qdiv. rewrite Ez. reflexivity. }
  destruct (rnd_near_pos rnd Hrnd _ Hel0) as [L1 _].
  pose proof (rnd_nonneg rnd Hrnd _ Hel0) as L0.
  set (el := rnd (D / 1000)) in *.
  assert (Ea : rnd (rnd (rnd D / 1000) * rate) == rnd (el * rate)).
  { apply (rnd_proper rnd Hrnd). rewrite Eel. reflexivity. }
  assert (Hp0 : 0 <= el * rate) by (apply Qmult_le_0_compat; lra).
  destruct (rnd_near_pos rnd Hrnd _ Hp0) as [P1 _].
  assert (L1r : (D / 1000 - (1 # 2 ^ 53) * (D / 1000) - (1 # 2 ^ 1075)) * rate <= el * rate).
  { apply Qmult_le_compat_r; lra. }
  assert (E1 : (D / 1000 - (1 # 2 ^ 53) * (D / 1000) - (1 # 2 ^ 1075)) * rate
               == (1 - (1 # 2 ^ 53)) * (1 # 1000) * (D * rate) - (1 # 2 ^ 1075) * rate)
    by field.
  rewrite E1 in L1r. clear E1.
  assert (Hge : C <= T + rnd (rnd (rnd D / 1000) * rate)).
  { rewrite Ea. clear Ea Eel L1 ED Ez.
    generalize dependent (el * rate). intros er; intros.
    generalize dependent (D * rate). intros Dr; intros.
    generalize dependent ((reset - inject_Z L) * rate). intros rr; intros.
    pow_consts. lra. }
  apply Q.min_l. apply (rnd_fix_ge rnd Hrnd); [exact HCr | exact Hge].
Qed.

(** A call at least one millisecond before the computed reset time
    finds the bucket short of its capacity. *)
Lemma short_before_reset t :
  (L < t)%Z ->
  inject_Z t <= rnd (inject_Z L + rnd (rnd (rnd (C - T) / rate) * 1000)) - 1 ->
  Qmin C (rnd (T + rnd (rnd (rnd (inject_Z (t - L)) / 1000) * rate))) < C.
Proof.
  intros HLt Ht.
  destruct reset_time_in_tokens as (_ & A2 & RL & RB).
  set (reset := rnd (inject_Z L + rnd (rnd (rnd (C - T) / rate) * 1000))) in *.
  assert (ED : inject_Z (t - L) == inject_Z t - inject_Z L).
  { unfold Z.sub. rewrite inject_Z_plus, inject_Z_opp. ring. }
  assert (HtB : (t <= 2 ^ 53)%Z).
  { assert (X : inject_Z t <= inject_Z (2 ^ 53)).
    { change (inject_Z (2 ^ 53)) with 9007199254740992. lra. }
    rewrite <- Zle_Qle in X. exact X. }
  assert (HD1 : 1 <= inject_Z (t - L)).
  { change 1 with (inject_Z 1). rewrite <- Zle_Qle. lia. }
  assert (Ez : rnd (inject_Z (t - L)) == inject_Z (t - L)).
  { apply (rnd_int rnd Hrnd). lia. }
  set (D := inject_Z (t - L)) in *.
  assert (HDr : D * rate <= (reset - inject_Z L) * rate - rate).
  { assert (X : D * rate <= (reset - inject_Z L - 1) * rate)
      by (apply Qmult_le_compat_r; lra).
    assert (E : (reset - inject_Z L - 1) * rate == (reset - inject_Z L) * rate - rate) by ring.
    lra. }
  assert (HDr0 : 0 <= D * rate) by (apply Qmult_le_0_compat; lra).
  assert (Hel0 : 0 <= D / 1000) by (apply Qle_shift_div_l; [reflexivity | lra]).
  assert (Eel : rnd (rnd D / 1000) == rnd (D / 1000)).
  { apply (rnd_proper rnd Hrnd). unfold Qdiv. rewrite Ez. reflexivity. }
  destruct (rnd_near_pos rnd Hrnd _ Hel0) as [_ L2].
  pose proof (rnd_nonneg rnd Hrnd _ Hel0) as L0.
  set (el := rnd (D / 1000)) in *.
  assert (Ea : rnd (rnd (rnd D / 1000) * rate) == rnd (el * rate)).
  { apply (rnd_proper rnd Hrnd). rewrite Eel. reflexivity. }
  assert (Hp0 : 0 <= el * rate) by (apply Qmult_le_0_compat; lra).
  destruct (rnd_near_pos rnd Hrnd _ Hp0) as [_ P2].
  pose proof (rnd_nonneg rnd Hrnd _ Hp0) as P0.
  assert (L2r : el * rate <= (D / 1000 + (1 # 2 ^ 53) * (D / 1000) + (1 # 2 ^ 1075)) * rate).
  { apply Qmult_le_compat_r; lra. }
  assert (E1 : (D / 1000 + (1 # 2 ^ 53) * (D / 1000) + (1 # 2 ^ 1075)) * rate
               == (1 + (1 # 2 ^ 53)) * (1 # 1000) * (D * rate) + (1 # 2 ^ 1075) * rate)
    by field.
  rewrite E1 in L2r. clear E1.
  set (a := rnd (rnd (rnd D / 1000) * rate)) in *.
  assert (Ha : 0 <= a /\ T + a <= C - (1 # 2 ^ 21)).
  { rewrite Ea. clear Ea Eel L2 ED Ez. split; [exact P0|].
    generalize dependent (el * rate). intros er; intros.
    generalize dependent (D * rate). intros Dr; intros.
    generalize dependent ((reset - inject_Z L) * rate). intros rr; intros.
    pow_consts. lra. }
  destruct Ha as [Ha0 Ha1].
  assert (HaB : T + a <= 1048576) by (pow_consts; lra).
  destruct (rnd_near rnd Hrnd (T + a) 1048576 ltac:(lra) HaB) as [_ U].
  pose proof (Q.le_min_r C (rnd (T + a))) as M.
  pow_consts. lra.
Qed.

End Reset.

Section Predict.
Variable rnd : Q -> Q.
Hypothesis Hrnd : binary64_like rnd.

(** X5: on doubles, [calculateResetTime] predicts within a
    millisecond when the script finds the bucket full.  For a stored
    bucket with [-2^20 <= tokens <= C <= 2^20], [C] a double, a rate
    between [1/1024] and [2^20], a last refill between 0 and [2^45] ms
    and the reset time computed at the last refill: a call at least one
    millisecond after the reset time (and not after [2^53] ms) finds the
    refilled amount equal to the capacity, and a call between the last
    refill and one millisecond before the reset time finds it below the
    capacity. *)
Theorem reset_time_predicts_full store key b C rate :
  store !! key = Some b ->
  0 < C -> C <= 1048576 -> rnd C == C ->
  - (1048576) <= tokens b -> tokens b <= C ->
  1 # 1024 <= rate -> rate <= 1048576 ->
  (0 <= last_refill_ms b)%Z -> (last_refill_ms b <= 2 ^ 45)%Z ->
  let reset :=
    EngineDouble.calculateResetTime rnd (last_refill_ms b) (tokens b) C rate in
  (forall t, (t <= 2 ^ 53)%Z -> reset + 1 <= inject_Z t ->
     LuaDouble.refilled_tokens rnd store key C rate t == C) /\
  (forall t, (last_refill_ms b <= t)%Z -> inject_Z t <= reset - 1 ->
     LuaDouble.refilled_tokens rnd store key C rate t < C).
Proof.
  intros Eb HC HCB HCr HT0 HT1 Hr HrB HL0 HLB reset.
  unfold LuaDouble.refilled_tokens.
  unfold EngineDouble.calculateResetTime in reset.
  destruct (Qge_bool (tokens b) C) eqn:Hfull.
  - apply Qge_bool_true in Hfull. subst reset. split.
    + intros t HtB Ht. rewrite (refill_stored rnd Hrnd key C rate store b t Eb).
      assert (Lt : (last_refill_ms b < t)%Z).
      { assert (X : inject_Z (last_refill_ms b + 1) <= inject_Z t).
        { rewrite inject_Z_plus. exact Ht. }
        rewrite <- Zle_Qle in X. lia. }
      apply Z.ltb_lt in Lt. rewrite Lt. cbn [fst].
      apply Q.min_l. apply (rnd_fix_ge rnd Hrnd); [exact HCr|].
      assert (0 <= rnd (rnd (rnd (inject_Z (t - last_refill_ms b)) / 1000) * rate)); [|lra].
      apply (rnd_nonneg rnd Hrnd). apply Qmult_le_0_compat; [|lra].
      apply Qlt_le_weak. apply (elapsed_pos rnd Hrnd). apply Z.ltb_lt. exact Lt.
    + intros t Ht1 Ht2. exfalso.
      assert (X : inject_Z (t + 1) <= inject_Z (last_refill_ms b)).
      { rewrite inject_Z_plus. change (inject_Z 1) with 1. lra. }
      rewrite <- Zle_Qle in X. lia.
  - apply Qge_bool_false in Hfull. split.
    + intros t HtB Ht. rewrite (refill_stored rnd Hrnd key C rate store b t Eb).
      destruct (full_after_reset rnd Hrnd C rate (tokens b) (last_refill_ms b)
                  HC HCB HCr HT0 Hfull Hr HrB HL0 HLB t HtB Ht) as [Lt E].
      apply Z.ltb_lt in Lt. rewrite Lt. cbn [fst]. exact E.
    + intros t Ht1 Ht2. rewrite (refill_stored rnd Hrnd key C rate store b t Eb).
      destruct (Z.ltb_spec (last_refill_ms b) t) as [Lt|Le]; cbn [fst]; [|exact Hfull].
      apply (short_before_reset rnd Hrnd C rate (tokens b) (last_refill_ms b)
               HC HCB HCr HT0 Hfull Hr HrB HL0 HLB t Lt Ht2).
Qed.

End Predict.


Lemma reset_time_predicts_full_witness :
  let rate := Double.round (11 # 60) in
  let store : gmap string Bucket := {[ "a"%string := mkBucket 4 0 3600 ]} in
  EngineDouble.calculateResetTime Double.round 0 4 15 rate == 60000 + (1 # 2 ^ 37) /\
  LuaDouble.refilled_tokens Double.round store "a" 15 rate 60002 == 15 /\
  LuaDouble.refilled_tokens Double.round store "a" 15 rate 59999 < 15.
Proof.
  intros rate store.
  split; [vm_compute; reflexivity|].
  destruct (reset_time_predicts_full Double.round DoubleFacts.round_binary64_like
              store "a"%string (mkBucket 4 0 3600) 15 rate eq_refl
              ltac:(vm_compute; reflexivity) ltac:(vm_compute; discriminate)
              ltac:(vm_compute; reflexivity) ltac:(vm_compute; discriminate)
              ltac:(vm_compute; discriminate) ltac:(vm_compute; discriminate)
              ltac:(vm_compute; discriminate) ltac:(vm_compute; discriminate)
              ltac:(vm_compute; discriminate))
    as (A & B).
  split.
  - apply A; vm_compute; discriminate.
  - apply B; vm_compute; discriminate.
Defined.

End ResetFacts.
